(** * Selection-set flattening of [complexity] (asger-noer/gql)

    A shallow embedding of [complexity.flattenSelectionSet], [flatten],
    [findFragmentDefinition], [AnalyseDocument] and [RunAnalysis], and the
    properties of the flattening algorithm and of its callers.

    The file has two models of the same code, and a relation.

    - A value model.  A selection set is a list of selection trees, the
      [fieldMap] of the source is a [gmap string Field], and the final
      [for _, field := range fieldMap] is an iteration in an unspecified
      order, which a [MapOrder] supplies.
    - [Module Heap]: a store model with pointers, in which the source's
      write [existing.SelectionSet = ...] is a write to an object of the
      store and [fieldMap] holds addresses.  It carries the frame property
      (what a call leaves unchanged), and it is shown to return what the
      value model returns.

    A third definition, the relation [Run], has every [range] choose an
    order of its own; every run agrees with the value model up to order.

    Layout: the data model and the code; the store model; the runs; the
    vocabulary of the properties; the lemmas; the claims; the proofs about
    the store. *)

From stdpp Require Import gmap strings list fin_maps option.

Set Warnings "-register-all".

(** * Part 1: the data model and the code *)

(** ** Data model (gqlparser's [ast] package, as far as the code reads it) *)

(** The attributes of an [ast.Field] that the code copies and never reads:
    [Arguments], [Directives], [Position], [Comment], [Definition] and
    [ObjectDefinition]. *)
Record FieldInfo := mkFieldInfo {
  Arguments : list (string * string);
  Directives : list string;
  Position : nat;
  Comment : string;
  FieldDefinition : string;
  ObjectDefinition : string
}.

#[global] Instance FieldInfo_eq_dec : EqDecision FieldInfo.
Proof. solve_decision. Defined.

(** [ast.Selection]: the three dynamic types the type switch of
    [flattenSelectionSet] distinguishes. *)
Inductive Selection :=
| FieldSel (alias name : string) (info : FieldInfo) (sels : list Selection)
| InlineFragment (typeCondition : string) (sels : list Selection)
| FragmentSpread (name : string).

Abbreviation SelectionSet := (list Selection).

(** [ast.Field] as a struct value: what a [*ast.Field] of [fieldMap] points to. *)
Record Field := mkField {
  Alias : string;
  Name : string;
  Info : FieldInfo;
  Selections : SelectionSet
}.

Definition ofField (f : Field) : Selection :=
  FieldSel (Alias f) (Name f) (Info f) (Selections f).

(** [existing.SelectionSet = merged] *)
Definition setSelections (f : Field) (merged : SelectionSet) : Field :=
  mkField (Alias f) (Name f) (Info f) merged.

Record FragmentDefinition := mkFragment {
  FragName : string;
  FragTypeCondition : string;
  FragSelections : SelectionSet
}.

Inductive Operation := Query | Mutation | Subscription.

Record OperationDefinition := mkOperation {
  OpKind : Operation;
  OpName : string;
  VariableDefinitions : list (string * string);
  OpDirectives : list string;
  OpSelections : SelectionSet;
  OpPosition : nat;
  OpComment : string
}.

Record QueryDocument := mkDocument {
  Operations : list OperationDefinition;
  Fragments : list FragmentDefinition
}.

(** Induction over selection trees, with the nested lists as [Forall]. *)
Section SelectionInd.
Variable P : Selection → Prop.
Hypothesis Hfield : ∀ a n i ss, Forall P ss → P (FieldSel a n i ss).
Hypothesis Hinline : ∀ tc ss, Forall P ss → P (InlineFragment tc ss).
Hypothesis Hspread : ∀ n, P (FragmentSpread n).

Fixpoint Selection_nested_ind (s : Selection) : P s :=
  let fix all (l : SelectionSet) : Forall P l :=
    match l with
    | [] => Forall_nil P
    | x :: l' => Forall_cons P x l' (Selection_nested_ind x) (all l')
    end in
  match s with
  | FieldSel a n i ss => Hfield a n i ss (all ss)
  | InlineFragment tc ss => Hinline tc ss (all ss)
  | FragmentSpread n => Hspread n
  end.
End SelectionInd.

(** ** The iteration order of a Go map *)

(** [range] over a map visits the entries in an order the language leaves
    unspecified.  A [MapOrder] is any way to order the keys of a map: it
    receives them in a canonical order and returns them in the order of the
    iteration.  The loop then meets the value of each key in turn.  Under
    a [MapOrder] two maps with the same keys are iterated alike; Go does
    not promise that, and the relation [Run] of Part 3 drops it. *)
Record MapOrder := mkMapOrder {
  rangeOrder : list string → list string;
  rangeOrder_perm : ∀ l, rangeOrder l ≡ₚ l
}.

Definition canonicalOrder : MapOrder :=
  mkMapOrder (λ l, l) (λ l, reflexivity l).

Definition reverseOrder : MapOrder :=
  mkMapOrder reverse reverse_Permutation.

(** The keys of a map in the order of the iteration, and the values. *)
Definition rangeKeys {V} (order : MapOrder) (m : gmap string V) : list string :=
  rangeOrder order (elements (dom m)).

Definition rangeValues {V} (order : MapOrder) (m : gmap string V) : list V :=
  omap (λ k, m !! k) (rangeKeys order m).

(** ** The code: [flattenSelectionSet], [flatten], [findFragmentDefinition] *)

(** Lines 151-154 (and 186-189, 212-215): the key of [fieldMap]. *)
Definition fieldKey (alias name : string) : string :=
  if decide (alias = "") then name else alias +:+ ":" +:+ name.

Definition keyOf (f : Field) : string := fieldKey (Alias f) (Name f).

(** The response key of the spec: the alias if present, otherwise the name. *)
Definition responseKey (alias name : string) : string :=
  if decide (alias = "") then name else alias.

(** [findFragmentDefinition]: the first definition with that name. *)
Fixpoint findFragment (frags : list FragmentDefinition) (name : string)
  : option FragmentDefinition :=
  match frags with
  | [] => None
  | frag :: rest =>
      if decide (FragName frag = name) then Some frag
      else findFragment rest name
  end.

Definition findFragmentDefinition (doc : QueryDocument) (name : string)
  : option FragmentDefinition :=
  findFragment (Fragments doc) name.

(** A [for] loop whose body may not return (the recursion below runs on
    fuel): the body is [f], the loop state is [b]. *)
Fixpoint foldlM {A B} (f : B → A → option B) (b : B) (l : list A) : option B :=
  match l with
  | [] => Some b
  | x :: l' => b' ← f b x; foldlM f b' l'
  end.

Section Flatten.
Variable order : MapOrder.
Variable doc : QueryDocument.

(** The body of the loops of lines 184-204 and 210-229 for one element
    [fragSel] of the flattened fragment: a field is merged into an
    existing entry or stored as it is; anything else is skipped. *)
Definition foldFragmentField (rec : SelectionSet → option SelectionSet)
    (fieldMap : gmap string Field) (fragSel : Selection)
  : option (gmap string Field) :=
  match fragSel with
  | FieldSel a n i ss =>
      let key := fieldKey a n in
      match fieldMap !! key with
      | Some existing =>
          merged ← rec (Selections existing ++ ss);
          Some (<[key := setSelections existing merged]> fieldMap)
      | None => Some (<[key := mkField a n i ss]> fieldMap)
      end
  | _ => Some fieldMap
  end.

(** The body of the loop of line 147 for one [selection]. *)
Definition stepSelection (rec : SelectionSet → option SelectionSet)
    (fieldMap : gmap string Field) (selection : Selection)
  : option (gmap string Field) :=
  match selection with
  | FieldSel a n i ss =>
      let key := fieldKey a n in
      match fieldMap !! key with
      | Some existing =>
          merged ← rec (Selections existing ++ ss);
          Some (<[key := setSelections existing merged]> fieldMap)
      | None =>
          flattened ← rec ss;
          Some (<[key := mkField a n i flattened]> fieldMap)
      end
  | InlineFragment _ ss =>
      fragmentSelections ← rec ss;
      foldlM (foldFragmentField rec) fieldMap fragmentSelections
  | FragmentSpread name =>
      match findFragmentDefinition doc name with
      | Some fragDef =>
          fragmentSelections ← rec (FragSelections fragDef);
          foldlM (foldFragmentField rec) fieldMap fragmentSelections
      | None => Some fieldMap
      end
  end.

(** Lines 235-240: the map's values, in the order of the iteration. *)
Definition mapValues (fieldMap : gmap string Field) : SelectionSet :=
  ofField <$> rangeValues order fieldMap.

(** [flattenSelectionSet].  The recursion of the source is not structural
    (it re-flattens merged children and follows fragment names), so the
    function runs on fuel; [None] is a run that has not returned within
    [fuel] nested calls. *)
Fixpoint flattenSelectionSet (fuel : nat) (selectionSet : SelectionSet)
  : option SelectionSet :=
  match fuel with
  | 0 => None
  | S fuel' =>
      fieldMap ← foldlM (stepSelection (flattenSelectionSet fuel')) ∅ selectionSet;
      Some (mapValues fieldMap)
  end.

(** [flatten]: a new operation with the flattened selection set. *)
Definition flatten (fuel : nat) (op : OperationDefinition)
  : option OperationDefinition :=
  flattened ← flattenSelectionSet fuel (OpSelections op);
  Some (mkOperation (OpKind op) (OpName op) (VariableDefinitions op)
          (OpDirectives op) flattened (OpPosition op) (OpComment op)).
End Flatten.

(** ** The code: [AnalyseDocument], and the scorer it calls *)

(** Lines 101-103: the cost rule [AnalyseDocument] hands to the scorer. *)
Definition ComplexityFunc (typeName fieldName : string) (childComplexity : Z)
    (args : list (string * string)) : Z * bool :=
  ((childComplexity + 1)%Z, true).

(** Modelled from the spec: the Complexity Scorer, [complexity.Calculate] of
    the gqlgen library, which this repository calls and does not contain.
    The spec (sections 2, 6 and the glossary) has it assign "an integer cost
    to an operation's selection tree by summing a per-field cost rule
    bottom-up": a field costs what the rule returns for the cost of its
    children, a fragment costs what its selections cost, and a selection set
    costs the sum of its selections.  A spread is scored through the
    definition it resolves to; the scorer has no result for a spread without
    one.  Where the rule does not accept, the field costs one more than its
    children. *)
Definition selectionComplexity (doc : QueryDocument) (rec : SelectionSet → option Z)
    (s : Selection) : option Z :=
  match s with
  | FieldSel _ n i cs =>
      childComplexity ← rec cs;
      let '(cost, accepted) :=
        ComplexityFunc (ObjectDefinition i) n childComplexity (Arguments i) in
      Some (if accepted then cost else (childComplexity + 1)%Z)
  | InlineFragment _ cs => rec cs
  | FragmentSpread name =>
      fragDef ← findFragmentDefinition doc name; rec (FragSelections fragDef)
  end.

(** The body of the scorer's loop: the running sum and one selection. *)
Definition addComplexity (doc : QueryDocument) (rec : SelectionSet → option Z)
    (complexity : Z) (s : Selection) : option Z :=
  c ← selectionComplexity doc rec s; Some (complexity + c)%Z.

Fixpoint selectionSetComplexity (doc : QueryDocument) (fuel : nat)
    (ss : SelectionSet) : option Z :=
  match fuel with
  | 0 => None
  | S fuel' => foldlM (addComplexity doc (selectionSetComplexity doc fuel')) 0%Z ss
  end.

Definition Calculate (doc : QueryDocument) (fuel : nat) (op : OperationDefinition)
  : option Z :=
  selectionSetComplexity doc fuel (OpSelections op).

(** [DocumentAnalysis] *)
Record DocumentAnalysis := mkAnalysis {
  OperationName : string;
  Complexity : Z;
  FlattenedComplexity : Z
}.

(** What [AnalyseDocument] returns: the error of the validation, or the
    results. *)
Inductive AnalysisResult :=
| ValidationError
| Analysed (documentResults : list DocumentAnalysis).

(** The schema, as far as the fixture needs it: the object types with the
    type of each field. *)
Record TypeDefinition := mkType {
  TypeName : string;
  TypeFields : list (string * string)
}.

Abbreviation Schema := (list TypeDefinition).

Section Analyse.
Variable order : MapOrder.
(** [validator.ValidateWithRules] with the default rules: an external
    collaborator; [true] is the absence of an error. *)
Variable validate : Schema → QueryDocument → bool.

(** The body of the loop of line 109. *)
Definition analyseOperation (fuel : nat) (queryDoc : QueryDocument)
    (op : OperationDefinition) : option DocumentAnalysis :=
  flatOp ← flatten order queryDoc fuel op;
  complexity ← Calculate queryDoc fuel op;
  flattenedComplexity ← Calculate queryDoc fuel flatOp;
  Some (mkAnalysis (OpName op) complexity flattenedComplexity).

Definition AnalyseDocument (fuel : nat) (schemaDoc : Schema)
    (queryDoc : QueryDocument) : option AnalysisResult :=
  if validate schemaDoc queryDoc then
    documentResults ← mapM (analyseOperation fuel queryDoc) (Operations queryDoc);
    Some (Analysed documentResults)
  else Some ValidationError.
End Analyse.

(** ** The code: [RunAnalysis] *)

(** [ast.Source], the input of the two parsers. *)
Module Source.
Record t := mk {
  Name : string;
  Input : string;
  BuiltIn : bool
}.
End Source.

(** [ComplexityAnalysis]: the record of one operation of one file. *)
Module ComplexityAnalysis.
Record t := mk {
  Path : string;
  OperationName : string;
  Complexity : Z;
  FlattenedComplexity : Z
}.
End ComplexityAnalysis.

Section RunAnalysis.
(** The [error] values of the operating system and of the parsers. *)
Variable error : Type.

(** The four errors [RunAnalysis] returns (lines 31, 38, 46, 51): each wraps
    the error of the call that failed. *)
Inductive RunError :=
| GlobbingSchemaFiles (err : error)
| ReadingSchemaFile (schemaPath : string) (err : error)
| LoadingSchema (err : error)
| GlobbingDocumentsFiles (err : error).

(** The three warnings it logs (lines 58, 66, 72), with the file they name.
    The error of the third is the validation error of [AnalyseDocument],
    which the model does not distinguish further. *)
Inductive Warning :=
| ReadingQueryFile (file : string) (err : error)
| ParsingQuery (file : string) (err : error)
| AnalysingDocument (file : string).

(** The calls that leave the package: [fs.Glob] on the working directory,
    [os.ReadFile], [gqlparser.LoadSchema] and [parser.ParseQuery].  A call
    returns an error ([inl]) or its value ([inr]); the files are those of
    one state of the file system. *)
Variable Glob : string → error + list string.
Variable ReadFile : string → error + string.
Variable LoadSchema : list Source.t → error + Schema.
Variable ParseQuery : Source.t → error + QueryDocument.

Variable order : MapOrder.
Variable validate : Schema → QueryDocument → bool.
Variable fuel : nat.

(** Lines 35-42: the loop that reads the schema files; the first file that
    cannot be read ends the function. *)
Fixpoint readSchemas (inputs : list Source.t) (schemas : list string)
  : RunError + list Source.t :=
  match schemas with
  | [] => inr inputs
  | schemaPath :: rest =>
      match ReadFile schemaPath with
      | inl err => inl (ReadingSchemaFile schemaPath err)
      | inr fileBytes =>
          readSchemas (inputs ++ [Source.mk schemaPath fileBytes false]) rest
      end
  end.

(** Lines 76-83: the records of one file are appended to [results]. *)
Definition appendAnalysis (match_ : string)
    (results : list ComplexityAnalysis.t) (analysis : list DocumentAnalysis)
  : list ComplexityAnalysis.t :=
  foldl (λ results res,
           results ++ [ComplexityAnalysis.mk match_ (OperationName res)
                         (Complexity res) (FlattenedComplexity res)])
        results analysis.

(** Lines 55-84: the body of the loop over the matched files.  The state is
    [results] and the log; [None] is an analysis that has not returned. *)
Definition analyseFile (schemaDoc : Schema)
    (st : list ComplexityAnalysis.t * list Warning) (match_ : string)
  : option (list ComplexityAnalysis.t * list Warning) :=
  let '(results, log) := st in
  match ReadFile match_ with
  | inl err => Some (results, log ++ [ReadingQueryFile match_ err])
  | inr fileBytes =>
      let source := Source.mk match_ fileBytes false in
      match ParseQuery source with
      | inl err => Some (results, log ++ [ParsingQuery match_ err])
      | inr queryDoc =>
          analysis ← AnalyseDocument order validate fuel schemaDoc queryDoc;
          match analysis with
          | ValidationError => Some (results, log ++ [AnalysingDocument match_])
          | Analysed analysis => Some (appendAnalysis match_ results analysis, log)
          end
      end
  end.

(** [RunAnalysis]: what it returns, and what it has logged. *)
Definition RunAnalysis (schema docs : string)
  : option ((RunError + list ComplexityAnalysis.t) * list Warning) :=
  match Glob schema with
  | inl err => Some (inl (GlobbingSchemaFiles err), [])
  | inr schemas =>
      match readSchemas [] schemas with
      | inl err => Some (inl err, [])
      | inr inputs =>
          match LoadSchema inputs with
          | inl err => Some (inl (LoadingSchema err), [])
          | inr schemaDoc =>
              match Glob docs with
              | inl err => Some (inl (GlobbingDocumentsFiles err), [])
              | inr matches =>
                  '(results, log) ← foldlM (analyseFile schemaDoc) ([], []) matches;
                  Some (inr results, log)
              end
          end
      end
  end.
End RunAnalysis.

(** * Part 2: the store model *)

Module Heap.

(** An address of the store: what a Go pointer holds. *)
Definition addr := nat.

(** The objects the code reaches through pointers.  A slice is held by
    value, as the list of the addresses it contains: the code writes no
    element of a slice it did not make itself. *)
Inductive object :=
| OField (alias name : string) (info : FieldInfo) (selectionSet : list addr)
| OInlineFragment (typeCondition : string) (selectionSet : list addr)
| OFragmentSpread (name : string)
| OFragmentDefinition (name typeCondition : string) (selectionSet : list addr)
| OOperation (kind : Operation) (name : string)
    (variableDefinitions : list (string * string)) (directives : list string)
    (selectionSet : list addr) (position : nat) (comment : string)
| ODocument (operations fragments : list addr).

(** The store: the object at address [a] is the [a]-th; a new object gets
    the next address. *)
Abbreviation heap := (list object).

(** A computation on the store that may not return. *)
Definition M (A : Type) : Type := heap → option (A * heap).

Definition ret {A} (x : A) : M A := λ h, Some (x, h).

Definition bind {A B} (m : M A) (f : A → M B) : M B :=
  λ h, match m h with
       | Some (x, h') => f x h'
       | None => None
       end.

Definition fail {A} : M A := λ _, None.

Notation "'let*' x := m 'in' f" := (bind m (λ x, f))
  (at level 10, x name, m at level 100, f at level 200).

Definition load (a : addr) : M object :=
  λ h, match h !! a with
       | Some o => Some (o, h)
       | None => None
       end.

Definition alloc (o : object) : M addr := λ h, Some (length h, h ++ [o]).

Definition store (a : addr) (o : object) : M unit :=
  λ h, match h !! a with
       | Some _ => Some (tt, <[a := o]> h)
       | None => None
       end.

Fixpoint foldM {A B} (f : B → A → M B) (b : B) (l : list A) : M B :=
  match l with
  | [] => ret b
  | x :: l' => let* b' := f b x in foldM f b' l'
  end.

Definition selectionSetOf (o : object) : list addr :=
  match o with
  | OField _ _ _ ss | OInlineFragment _ ss | OFragmentDefinition _ _ ss
  | OOperation _ _ _ _ ss _ _ => ss
  | OFragmentSpread _ | ODocument _ _ => []
  end.

(** [x.SelectionSet = ss] for the field at [x] *)
Definition setSelectionSet (x : addr) (ss : list addr) : M unit :=
  let* o := load x in
  match o with
  | OField a n i _ => store x (OField a n i ss)
  | _ => fail
  end.

(** The loop of [findFragmentDefinition] over [doc.Fragments]. *)
Fixpoint findFragment (frags : list addr) (name : string) : M (option addr) :=
  match frags with
  | [] => ret None
  | frag :: rest =>
      let* o := load frag in
      match o with
      | OFragmentDefinition n _ _ =>
          if decide (n = name) then ret (Some frag) else findFragment rest name
      | _ => fail
      end
  end.

Definition findFragmentDefinition (doc : addr) (name : string) : M (option addr) :=
  let* d := load doc in
  match d with
  | ODocument _ frags => findFragment frags name
  | _ => fail
  end.

Section Flatten.
Variable order : MapOrder.
Variable doc : addr.

(** Lines 158-163 (and 192-197, 218-223): the children of [existing] and the
  selections [ss] are flattened together, and the result is written to
  [existing]. *)
Definition mergeExisting (rec : list addr → M (list addr))
  (existing : addr) (ss : list addr) : M unit :=
let* e := load existing in
let* merged := rec (selectionSetOf e ++ ss) in
setSelectionSet existing merged.

Definition foldFragmentField (rec : list addr → M (list addr))
  (fieldMap : gmap string addr) (fragSel : addr) : M (gmap string addr) :=
let* o := load fragSel in
match o with
| OField a n _ ss =>
    let key := fieldKey a n in
    match fieldMap !! key with
    | Some existing =>
        let* _ := mergeExisting rec existing ss in ret fieldMap
    | None => ret (<[key := fragSel]> fieldMap)
    end
| _ => ret fieldMap
end.

Definition stepSelection (rec : list addr → M (list addr))
  (fieldMap : gmap string addr) (selection : addr) : M (gmap string addr) :=
let* o := load selection in
match o with
| OField a n i ss =>
    let key := fieldKey a n in
    match fieldMap !! key with
    | Some existing =>
        let* _ := mergeExisting rec existing ss in ret fieldMap
    | None =>
        let* flattened := rec ss in
        let* flattenedField := alloc (OField a n i flattened) in
        ret (<[key := flattenedField]> fieldMap)
    end
| OInlineFragment _ ss =>
    let* fragmentSelections := rec ss in
    foldM (foldFragmentField rec) fieldMap fragmentSelections
| OFragmentSpread name =>
    let* found := findFragmentDefinition doc name in
    match found with
    | Some fragDef =>
        let* fd := load fragDef in
        let* fragmentSelections := rec (selectionSetOf fd) in
        foldM (foldFragmentField rec) fieldMap fragmentSelections
    | None => ret fieldMap
    end
| _ => ret fieldMap
end.

Definition mapValues (fieldMap : gmap string addr) : list addr :=
rangeValues order fieldMap.

Fixpoint flattenSelectionSet (fuel : nat) (selectionSet : list addr)
: M (list addr) :=
match fuel with
| 0 => fail
| S fuel' =>
    let* fieldMap :=
      foldM (stepSelection (flattenSelectionSet fuel')) ∅ selectionSet in
    ret (mapValues fieldMap)
end.

(** [flatten]: the new operation is a new object. *)
Definition flatten (fuel : nat) (op : addr) : M addr :=
let* o := load op in
match o with
| OOperation kind name vars directives ss position comment =>
    let* flattened := flattenSelectionSet fuel ss in
    alloc (OOperation kind name vars directives flattened position comment)
| _ => fail
end.
End Flatten.

(** [extends h h']: every object of [h] is in [h'], at its address and as it
    was. *)
Definition extends (h h' : heap) : Prop :=
  length h ≤ length h' ∧ ∀ a o, h !! a = Some o → h' !! a = Some o.

(** Every address of [l] was allocated after [h]. *)
Definition newIn (h : heap) (l : list addr) : Prop :=
  Forall (λ a, length h ≤ a) l.

(** [rec] leaves the objects of the store as they are and returns addresses
    it allocated. *)
Definition recFrame (rec : list addr → M (list addr)) : Prop :=
  ∀ ss h out h', rec ss h = Some (out, h') → extends h h' ∧ newIn h out.

(** The state of a loop: the objects of [h0] are as they were, and the map
    holds addresses allocated after [h0]. *)
Definition loopInv (h0 : heap) (m : gmap string addr) (h : heap) : Prop :=
  extends h0 h ∧ map_Forall (λ _ a, length h0 ≤ a) m.

(** The fixture in the store: the two fragment definitions with their
    fields, the operation with its field and two spreads, the document. *)
Definition fixtureHeap : heap :=
  [ OField "id" "id" (mkFieldInfo [] [] 0 "" "ID" "User") [];
    OField "name" "name" (mkFieldInfo [] [] 0 "" "String" "User") [];
    OFragmentDefinition "HeaderFragment" "User" [0; 1];
    OField "id" "id" (mkFieldInfo [] [] 0 "" "ID" "User") [];
    OField "name" "name" (mkFieldInfo [] [] 0 "" "String" "User") [];
    OFragmentDefinition "UserFragment" "User" [3; 4];
    OFragmentSpread "HeaderFragment";
    OFragmentSpread "UserFragment";
    OField "user" "user" (mkFieldInfo [("id", "$id")] [] 0 "" "User" "Query") [6; 7];
    OOperation Query "GetOrder" [("id", "ID!")] [] [8] 0 "";
    ODocument [9] [2; 5] ].

(** ** Reading a selection tree off the store *)

(** Every address an object holds. *)
Definition addressesOf (o : object) : list addr :=
  match o with
  | ODocument ops frags => ops ++ frags
  | _ => selectionSetOf o
  end.

(** No object holds an address that is not allocated: the store has no
    dangling pointer. *)
Definition closed (h : heap) : Prop :=
  ∀ b o, h !! b = Some o → Forall (λ c, c < length h) (addressesOf o).

Definition closedb (h : heap) : bool :=
  forallb (λ o, forallb (λ c, bool_decide (c < length h)) (addressesOf o)) h.

(** The objects at [lo] and above hold addresses at [lo] and above only. *)
Definition freshClosed (lo : nat) (h : heap) : Prop :=
  ∀ b o, lo ≤ b → h !! b = Some o → Forall (λ c, lo ≤ c) (addressesOf o).

(** No object holds an address of [T]: the objects of [T] have no parent. *)
Definition noParent (T : addr → Prop) (h : heap) : Prop :=
  ∀ b o, h !! b = Some o → Forall (λ c, ¬ T c) (addressesOf o).

(** [reads h a s]: the object at [a], followed through its selection set,
    is the selection tree [s]. *)
Inductive reads (h : heap) : addr → Selection → Prop :=
| reads_field a al n i ss cs :
    h !! a = Some (OField al n i ss) → Forall2 (reads h) ss cs →
    reads h a (FieldSel al n i cs)
| reads_inline a tc ss cs :
    h !! a = Some (OInlineFragment tc ss) → Forall2 (reads h) ss cs →
    reads h a (InlineFragment tc cs)
| reads_spread a name :
    h !! a = Some (OFragmentSpread name) → reads h a (FragmentSpread name).

Definition readsFragment (h : heap) (a : addr) (fd : FragmentDefinition) : Prop :=
  ∃ ss, h !! a = Some (OFragmentDefinition (FragName fd) (FragTypeCondition fd) ss) ∧
        Forall2 (reads h) ss (FragSelections fd).

Definition readsOperation (h : heap) (a : addr) (op : OperationDefinition) : Prop :=
  ∃ ss, h !! a = Some (OOperation (OpKind op) (OpName op) (VariableDefinitions op)
                         (OpDirectives op) ss (OpPosition op) (OpComment op)) ∧
        Forall2 (reads h) ss (OpSelections op).

Definition readsDocument (h : heap) (a : addr) (doc : QueryDocument) : Prop :=
  ∃ ops frags, h !! a = Some (ODocument ops frags) ∧
               Forall2 (readsOperation h) ops (Operations doc) ∧
               Forall2 (readsFragment h) frags (Fragments doc).

(** Induction for [reads], with the nested [Forall2] carrying the induction
    hypothesis. *)
Section ReadsInd.
Variable h : heap.
Variable P : addr → Selection → Prop.
Hypothesis Hfield : ∀ a al n i ss cs,
  h !! a = Some (OField al n i ss) →
  Forall2 (λ x y, reads h x y ∧ P x y) ss cs → P a (FieldSel al n i cs).
Hypothesis Hinline : ∀ a tc ss cs,
  h !! a = Some (OInlineFragment tc ss) →
  Forall2 (λ x y, reads h x y ∧ P x y) ss cs → P a (InlineFragment tc cs).
Hypothesis Hspread : ∀ a name,
  h !! a = Some (OFragmentSpread name) → P a (FragmentSpread name).

Fixpoint reads_nested_ind a s (H : reads h a s) {struct H} : P a s :=
  let fix all l l' (F : Forall2 (reads h) l l') {struct F}
      : Forall2 (λ x y, reads h x y ∧ P x y) l l' :=
    match F in Forall2 _ l0 l0'
          return Forall2 (λ x y, reads h x y ∧ P x y) l0 l0' with
    | Forall2_nil _ => Forall2_nil _
    | Forall2_cons _ _ Hxy Hrest =>
        Forall2_cons _ _ (conj Hxy (reads_nested_ind _ _ Hxy)) (all _ _ Hrest)
    end in
  match H in reads _ a0 s0 return P a0 s0 with
  | reads_field _ a al n i ss cs Hl Hall => Hfield a al n i ss cs Hl (all ss cs Hall)
  | reads_inline _ a tc ss cs Hl Hall => Hinline a tc ss cs Hl (all ss cs Hall)
  | reads_spread _ a name Hl => Hspread a name Hl
  end.
End ReadsInd.

(** The outcome of a run on the store against the outcome of a run on
    values: both return and [P] relates the results, or neither returns. *)
Definition outcomes {A B} (P : A → heap → B → Prop)
    (x : option (A * heap)) (y : option B) : Prop :=
  match x, y with
  | Some (a, h'), Some b => P a h' b
  | None, None => True
  | _, _ => False
  end.

(** What a run of [flattenSelectionSet] from the store [h] establishes: the
    old objects are untouched, the results are new, distinct, parentless
    objects, and they read as the selection set the value model returns. *)
Definition post (h : heap) (out : list addr) (h' : heap) (r : SelectionSet) : Prop :=
  extends h h' ∧ closed h' ∧ freshClosed (length h) h' ∧ newIn h out ∧
  NoDup out ∧ noParent (λ c, c ∈ out) h' ∧ Forall2 (reads h') out r.

Definition recRefines (docA : addr) (doc : QueryDocument)
    (recA : list addr → M (list addr))
    (rec : SelectionSet → option SelectionSet) : Prop :=
  ∀ h ssA ss,
    closed h → readsDocument h docA doc → Forall2 (reads h) ssA ss →
    outcomes (post h) (recA ssA h) (rec ss).

(** The two loops side by side: the map of addresses and the store against
    the map of fields.  [pending] holds the elements of a flattened
    fragment that the loop has yet to visit. *)
Record loopRel (h0 : heap) (mA : gmap string addr) (h : heap)
    (m : gmap string Field) (pending : list addr) : Prop := mkLoopRel {
  lr_extends : extends h0 h;
  lr_closed : closed h;
  lr_fresh : freshClosed (length h0) h;
  lr_range : map_Forall (λ _ a, length h0 ≤ a) mA;
  lr_inj : ∀ k1 k2 a, mA !! k1 = Some a → mA !! k2 = Some a → k1 = k2;
  lr_noParent : noParent (λ c, (∃ k, mA !! k = Some c) ∨ c ∈ pending) h;
  lr_pending : Forall (λ q, length h0 ≤ q < length h ∧ ∀ k, mA !! k ≠ Some q) pending;
  lr_pending_nodup : NoDup pending;
  lr_entries : ∀ k, option_Forall2 (λ a f, reads h a (ofField f)) (mA !! k) (m !! k)
}.

(** [reach h a b]: from the object at [a], following the addresses the
    objects hold, one arrives at the object at [b]. *)
Inductive reach (h : heap) : addr → addr → Prop :=
| reach_here a : reach h a a
| reach_step a o c b :
    h !! a = Some o → c ∈ addressesOf o → reach h c b → reach h a b.

End Heap.

(** The value model's functions under their own names, for where the store
    model's are in scope. *)
Module Value.
Abbreviation findFragment := findFragment.
Abbreviation findFragmentDefinition := findFragmentDefinition.
Abbreviation foldFragmentField := foldFragmentField.
Abbreviation stepSelection := stepSelection.
Abbreviation mapValues := mapValues.
Abbreviation flattenSelectionSet := flattenSelectionSet.
Abbreviation flatten := flatten.
End Value.

(** * Part 3: runs with an order of their own at every [range] *)

(** Go does not promise the same order from one [range] over a map to the
    next.  In the relation below every [range] over [fieldMap] returns the
    values in an order of its own; a [MapOrder] is the special case where
    the order is a function of the keys. *)

(** A loop whose body is a relation between the state before, the element
    and the state after. *)
Inductive foldR {A B} (step : B → A → B → Prop) : B → list A → B → Prop :=
| foldR_nil b : foldR step b [] b
| foldR_cons b x b1 l b' :
    step b x b1 → foldR step b1 l b' → foldR step b (x :: l) b'.

Section RunSteps.
Variable doc : QueryDocument.
(** [rec ss r]: a recursive call on [ss] returns [r]. *)
Variable rec : SelectionSet → SelectionSet → Prop.

(** Lines 184-204 and 210-229, for one element of the flattened fragment. *)
Inductive foldFragmentFieldR
  : gmap string Field → Selection → gmap string Field → Prop :=
| fragField_existing fieldMap a n i ss existing merged :
    fieldMap !! fieldKey a n = Some existing →
    rec (Selections existing ++ ss) merged →
    foldFragmentFieldR fieldMap (FieldSel a n i ss)
      (<[fieldKey a n := setSelections existing merged]> fieldMap)
| fragField_new fieldMap a n i ss :
    fieldMap !! fieldKey a n = None →
    foldFragmentFieldR fieldMap (FieldSel a n i ss)
      (<[fieldKey a n := mkField a n i ss]> fieldMap)
| fragField_inline fieldMap tc ss :
    foldFragmentFieldR fieldMap (InlineFragment tc ss) fieldMap
| fragField_spread fieldMap name :
    foldFragmentFieldR fieldMap (FragmentSpread name) fieldMap.

(** The body of the loop of line 147. *)
Inductive stepSelectionR
  : gmap string Field → Selection → gmap string Field → Prop :=
| step_existing fieldMap a n i ss existing merged :
    fieldMap !! fieldKey a n = Some existing →
    rec (Selections existing ++ ss) merged →
    stepSelectionR fieldMap (FieldSel a n i ss)
      (<[fieldKey a n := setSelections existing merged]> fieldMap)
| step_new fieldMap a n i ss flattened :
    fieldMap !! fieldKey a n = None →
    rec ss flattened →
    stepSelectionR fieldMap (FieldSel a n i ss)
      (<[fieldKey a n := mkField a n i flattened]> fieldMap)
| step_inline fieldMap tc ss fragmentSelections fieldMap' :
    rec ss fragmentSelections →
    foldR foldFragmentFieldR fieldMap fragmentSelections fieldMap' →
    stepSelectionR fieldMap (InlineFragment tc ss) fieldMap'
| step_spread fieldMap name fragDef fragmentSelections fieldMap' :
    findFragmentDefinition doc name = Some fragDef →
    rec (FragSelections fragDef) fragmentSelections →
    foldR foldFragmentFieldR fieldMap fragmentSelections fieldMap' →
    stepSelectionR fieldMap (FragmentSpread name) fieldMap'
| step_unresolved fieldMap name :
    findFragmentDefinition doc name = None →
    stepSelectionR fieldMap (FragmentSpread name) fieldMap.
End RunSteps.

(** [RunN doc fuel ss r]: a run of [flattenSelectionSet] on [ss] with at most
    [fuel] nested calls returns [r].  Lines 235-240 return the values of
    the map in any order. *)
Fixpoint RunN (doc : QueryDocument) (fuel : nat) (ss r : SelectionSet) : Prop :=
  match fuel with
  | 0 => False
  | S fuel' =>
      ∃ fieldMap,
        foldR (stepSelectionR doc (RunN doc fuel')) ∅ ss fieldMap ∧
        r ≡ₚ mapValues canonicalOrder fieldMap
  end.

Definition Run (doc : QueryDocument) (ss r : SelectionSet) : Prop :=
  ∃ fuel, RunN doc fuel ss r.

(** * Part 4: the vocabulary of the properties *)

(** ** Flat selection sets and their comparison up to order *)

(** The [fieldMap] key of a selection (of a field; the other two have none). *)
Definition selKey (s : Selection) : string :=
  match s with
  | FieldSel a n _ _ => fieldKey a n
  | _ => ""
  end.

Definition selResponseKey (s : Selection) : string :=
  match s with
  | FieldSel a n _ _ => responseKey a n
  | _ => ""
  end.

Definition isField (s : Selection) : bool :=
  match s with
  | FieldSel _ _ _ _ => true
  | _ => false
  end.

Definition children (s : Selection) : SelectionSet :=
  match s with
  | FieldSel _ _ _ ss => ss
  | InlineFragment _ ss => ss
  | FragmentSpread _ => []
  end.

(** A selection is flat when it is a field whose selection set, at every
    nesting level, holds only fields with pairwise distinct [fieldMap] keys. *)
Fixpoint flatSel (s : Selection) : bool :=
  match s with
  | FieldSel _ _ _ ss =>
      forallb flatSel ss && bool_decide (NoDup (selKey <$> ss))
  | _ => false
  end.

Definition flatSet (ss : SelectionSet) : bool :=
  forallb flatSel ss && bool_decide (NoDup (selKey <$> ss)).

(** The same with the response key of the spec in place of the map key. *)
Fixpoint responseFlatSel (s : Selection) : bool :=
  match s with
  | FieldSel _ _ _ ss =>
      forallb responseFlatSel ss && bool_decide (NoDup (selResponseKey <$> ss))
  | _ => false
  end.

Definition responseFlatSet (ss : SelectionSet) : bool :=
  forallb responseFlatSel ss && bool_decide (NoDup (selResponseKey <$> ss)).

(** Only fields, at every level (no condition on the keys). *)
Fixpoint fieldsOnlySel (s : Selection) : bool :=
  match s with
  | FieldSel _ _ _ ss => forallb fieldsOnlySel ss
  | _ => false
  end.

Definition fieldsOnly (ss : SelectionSet) : bool := forallb fieldsOnlySel ss.

(** Two selection trees are equivalent when they are the same field with
    equivalent selection sets; two selection sets are equivalent when one is
    a reordering of the other up to the equivalence of the elements.  This
    is the comparison "ignoring iteration order" of the spec. *)
Inductive selEquiv : Selection → Selection → Prop :=
| selEquiv_field a n i ss ss' mid :
    ss ≡ₚ mid → Forall2 selEquiv mid ss' →
    selEquiv (FieldSel a n i ss) (FieldSel a n i ss').

Definition setEquiv (l l' : SelectionSet) : Prop :=
  ∃ mid, l ≡ₚ mid ∧ Forall2 selEquiv mid l'.

Infix "≈" := setEquiv (at level 70, no associativity).

Definition fieldEquiv (f f' : Field) : Prop :=
  Alias f = Alias f' ∧ Name f = Name f' ∧ Info f = Info f' ∧
  Selections f ≈ Selections f'.

(** Induction for [selEquiv], with the nested [Forall2] carrying the
    induction hypothesis. *)
Section SelEquivInd.
Variable P : Selection → Selection → Prop.
Hypothesis Hstep : ∀ a n i ss ss' mid,
  ss ≡ₚ mid → Forall2 (λ x y, selEquiv x y ∧ P x y) mid ss' →
  P (FieldSel a n i ss) (FieldSel a n i ss').

Fixpoint selEquiv_nested_ind x y (H : selEquiv x y) {struct H} : P x y :=
  match H in selEquiv x0 y0 return P x0 y0 with
  | selEquiv_field a n i ss ss' mid Hp Hall =>
      Hstep a n i ss ss' mid Hp
        ((fix all l l' (F : Forall2 selEquiv l l') {struct F}
            : Forall2 (λ x y, selEquiv x y ∧ P x y) l l' :=
            match F in Forall2 _ l0 l0'
                  return Forall2 (λ x y, selEquiv x y ∧ P x y) l0 l0' with
            | Forall2_nil _ => Forall2_nil _
            | Forall2_cons _ _ Hxy Hrest =>
                Forall2_cons _ _
                  (conj Hxy (selEquiv_nested_ind _ _ Hxy)) (all _ _ Hrest)
            end) mid ss' Hall)
  end.
End SelEquivInd.

Definition leaf (alias name : string) : Selection :=
  FieldSel alias name (mkFieldInfo [] [] 0 "" "" "") [].
Definition node (alias name : string) (ss : SelectionSet) : Selection :=
  FieldSel alias name (mkFieldInfo [] [] 0 "" "" "") ss.
Definition emptyDoc : QueryDocument := mkDocument [] [].

(** [rec'] returns whatever [rec] returns. *)
Definition recLe (rec rec' : SelectionSet → option SelectionSet) : Prop :=
  ∀ l r, rec l = Some r → rec' l = Some r.

(** The invariant of [fieldMap]: every entry is stored under its own key and
    its selection set is flat. *)
Definition mapOK (m : gmap string Field) : Prop :=
  map_Forall (λ k f, keyOf f = k ∧ flatSet (Selections f) = true) m.

Definition recFlat (rec : SelectionSet → option SelectionSet) : Prop :=
  ∀ l r, rec l = Some r → flatSet r = true.

(** Two maps are equivalent when they have the same keys and equivalent
    entries. *)
Definition mapEquiv (m m' : gmap string Field) : Prop :=
  ∀ k, option_Forall2 fieldEquiv (m !! k) (m' !! k).

(** Both loop bodies, at a field, read one key of [fieldMap] and write the
    same key. *)
Definition updateKey (k : string) (g : option Field → option Field)
    (m : gmap string Field) : option (gmap string Field) :=
  v ← g (m !! k); Some (<[k := v]> m).

Definition mergedEntry (rec : SelectionSet → option SelectionSet)
    (a n : string) (i : FieldInfo) (ss : SelectionSet) (flattenNew : bool)
    (old : option Field) : option Field :=
  match old with
  | Some existing =>
      merged ← rec (Selections existing ++ ss);
      Some (setSelections existing merged)
  | None =>
      if flattenNew then flattened ← rec ss; Some (mkField a n i flattened)
      else Some (mkField a n i ss)
  end.

(** Two inputs are related when they are made of the same selections and of
    equivalent flat blocks, in the same sequence. *)
Inductive inputRel : SelectionSet → SelectionSet → Prop :=
| inputRel_nil : inputRel [] []
| inputRel_same s l l' : inputRel l l' → inputRel (s :: l) (s :: l')
| inputRel_flat c c' l l' :
    flatSet c = true → c ≈ c' → inputRel l l' → inputRel (c ++ l) (c' ++ l').

Definition recRel (rec1 rec2 : SelectionSet → option SelectionSet) : Prop :=
  ∀ l l', inputRel l l' → option_Forall2 setEquiv (rec1 l) (rec2 l').

(** [fitsSel doc n s]: the selection [s], with the fragments it names
    expanded, has at most [n] nested levels of fields, inline fragments and
    resolved spreads below it.  A spread whose name is not defined has no
    levels. *)
Fixpoint fitsSel (doc : QueryDocument) (n : nat) (s : Selection) {struct n} : bool :=
  match s with
  | FragmentSpread name =>
      match findFragmentDefinition doc name with
      | None => true
      | Some fd =>
          match n with
          | 0 => false
          | S n' => forallb (fitsSel doc n') (FragSelections fd)
          end
      end
  | FieldSel _ _ _ cs | InlineFragment _ cs =>
      match n with
      | 0 => false
      | S n' => forallb (fitsSel doc n') cs
      end
  end.

Definition fits (doc : QueryDocument) (n : nat) (ss : SelectionSet) : bool :=
  forallb (fitsSel doc n) ss.

(** Every entry of the map has children within [n] levels. *)
Definition mapFits (doc : QueryDocument) (n : nat) (m : gmap string Field) : Prop :=
  map_Forall (λ _ f, fits doc n (Selections f) = true) m.

(** [rec] returns on every input within [n] levels, with a result within
    [n] levels. *)
Definition recTotal (doc : QueryDocument) (n : nat)
    (rec : SelectionSet → option SelectionSet) : Prop :=
  ∀ l, fits doc n l = true → ∃ r, rec l = Some r ∧ fits doc n r = true.

(** A map of the loop within [n] levels: the invariant of [fieldMap], and
    every entry has children within [n] levels. *)
Definition mapGood (doc : QueryDocument) (n : nat) (m : gmap string Field) : Prop :=
  mapOK m ∧ mapFits doc n m.

(** The names of the fragment spreads of a selection, at any depth. *)
Fixpoint spreadNames (s : Selection) : list string :=
  match s with
  | FieldSel _ _ _ cs | InlineFragment _ cs => flat_map spreadNames cs
  | FragmentSpread name => [name]
  end.

Definition spreadNamesOf (ss : SelectionSet) : list string :=
  flat_map spreadNames ss.

(** [references doc a b]: the definition that the name [a] resolves to
    contains a spread of [b]. *)
Definition references (doc : QueryDocument) (a b : string) : Prop :=
  ∃ fd, findFragmentDefinition doc a = Some fd ∧
        b ∈ spreadNamesOf (FragSelections fd).

(** The names the document defines. *)
Definition fragmentNames (doc : QueryDocument) : list string :=
  FragName <$> Fragments doc.

(** The fragment reference graph is acyclic: no name reaches itself. *)
Definition Acyclic (doc : QueryDocument) : Prop :=
  ∀ a, ¬ tc (references doc) a a.

(** The field a selection stands for (for a selection that is a field). *)
Definition fieldOf (s : Selection) : Field :=
  match s with
  | FieldSel a n i cs => mkField a n i cs
  | _ => mkField "" "" (mkFieldInfo [] [] 0 "" "" "") []
  end.

(** The map that holds the fields of a selection set as they are. *)
Definition insertEntry (m : gmap string Field) (s : Selection) : gmap string Field :=
  match s with
  | FieldSel a n i cs => <[fieldKey a n := mkField a n i cs]> m
  | _ => m
  end.

Definition insertAll (m : gmap string Field) (ss : SelectionSet) : gmap string Field :=
  foldl insertEntry m ss.

(** [rec] returns a flat input up to order. *)
Definition recIdem (rec : SelectionSet → option SelectionSet) : Prop :=
  ∀ cs r, flatSet cs = true → rec cs = Some r → r ≈ cs.

(** The selection set a fragment stands for: the nested set of an inline
    fragment, the set of the definition a spread resolves to. *)
Definition fragmentContents (doc : QueryDocument) (s : Selection)
  : option SelectionSet :=
  match s with
  | FieldSel _ _ _ _ => None
  | InlineFragment _ ss => Some ss
  | FragmentSpread name => FragSelections <$> findFragmentDefinition doc name
  end.

(** The selection with the type condition of every inline fragment, at any
    depth, replaced by the empty string. *)
Fixpoint eraseConditions (s : Selection) : Selection :=
  match s with
  | FieldSel a n i cs => FieldSel a n i (map eraseConditions cs)
  | InlineFragment _ cs => InlineFragment "" (map eraseConditions cs)
  | FragmentSpread name => FragmentSpread name
  end.

Definition eraseSet (ss : SelectionSet) : SelectionSet := map eraseConditions ss.

Definition eraseFragment (fd : FragmentDefinition) : FragmentDefinition :=
  mkFragment (FragName fd) (FragTypeCondition fd) (eraseSet (FragSelections fd)).

Definition eraseOperation (op : OperationDefinition) : OperationDefinition :=
  mkOperation (OpKind op) (OpName op) (VariableDefinitions op) (OpDirectives op)
    (eraseSet (OpSelections op)) (OpPosition op) (OpComment op).

Definition eraseDocument (doc : QueryDocument) : QueryDocument :=
  mkDocument (map eraseOperation (Operations doc)) (map eraseFragment (Fragments doc)).

(** The selection without the spreads, at any depth, whose name has no
    definition in [doc]: such a spread is dropped, everything else is
    kept. *)
Fixpoint dropUnresolved (doc : QueryDocument) (s : Selection) : SelectionSet :=
  match s with
  | FieldSel a n i cs => [FieldSel a n i (flat_map (dropUnresolved doc) cs)]
  | InlineFragment tc cs => [InlineFragment tc (flat_map (dropUnresolved doc) cs)]
  | FragmentSpread name =>
      match findFragmentDefinition doc name with
      | Some _ => [s]
      | None => []
      end
  end.

Definition dropSet (doc : QueryDocument) (ss : SelectionSet) : SelectionSet :=
  flat_map (dropUnresolved doc) ss.

Definition dropFragment (doc : QueryDocument) (fd : FragmentDefinition)
  : FragmentDefinition :=
  mkFragment (FragName fd) (FragTypeCondition fd) (dropSet doc (FragSelections fd)).

Definition dropOperation (doc : QueryDocument) (op : OperationDefinition)
  : OperationDefinition :=
  mkOperation (OpKind op) (OpName op) (VariableDefinitions op) (OpDirectives op)
    (dropSet doc (OpSelections op)) (OpPosition op) (OpComment op).

Definition dropDocument (doc : QueryDocument) : QueryDocument :=
  mkDocument (map (dropOperation doc) (Operations doc))
    (map (dropFragment doc) (Fragments doc)).

(** Fuel-free reading: the run returns [r] with some amount of fuel. *)
Definition Flattens (order : MapOrder) (doc : QueryDocument)
    (ss r : SelectionSet) : Prop :=
  ∃ fuel, flattenSelectionSet order doc fuel ss = Some r.

(** The fields the loops of [flattenSelectionSet] meet at one selection: the
    field itself (line 148), or the fields of the flattened contents of a
    fragment (lines 180-184 and 208-211).  A spread that resolves to no
    definition has none. *)
Definition encountered (doc : QueryDocument)
    (rec : SelectionSet → option SelectionSet) (s : Selection)
  : option SelectionSet :=
  match s with
  | FieldSel _ _ _ _ => Some [s]
  | _ =>
      match fragmentContents doc s with
      | Some contents => rec contents
      | None => Some []
      end
  end.

Fixpoint encounteredSet (doc : QueryDocument)
    (rec : SelectionSet → option SelectionSet) (ss : SelectionSet)
  : option SelectionSet :=
  match ss with
  | [] => Some []
  | s :: ss' =>
      e ← encountered doc rec s; es ← encounteredSet doc rec ss'; Some (e ++ es)
  end.

(** What the contributors of the key [k] have below them: the selection
    sets of the fields of [ss] with that key, one after the other. *)
Fixpoint contributions (k : string) (ss : SelectionSet) : SelectionSet :=
  match ss with
  | [] => []
  | FieldSel a n _ cs :: ss' =>
      if decide (fieldKey a n = k) then cs ++ contributions k ss'
      else contributions k ss'
  | _ :: ss' => contributions k ss'
  end.

(** The state of the loop after the fields [met]: every entry has, up to
    order, the children that flattening the contributions to its key
    gives. *)
Definition entriesMerge (order : MapOrder) (doc : QueryDocument)
    (m : gmap string Field) (met : SelectionSet) : Prop :=
  mapOK m ∧
  (∀ k, m !! k = None → contributions k met = []) ∧
  ∀ k f, m !! k = Some f →
    ∃ both, Flattens order doc (contributions k met) both ∧ Selections f ≈ both.

(** Two selection sets have the same flattening: the run on one returns
    exactly when the run on the other does, and the results are equal up
    to order at every level. *)
Definition sameFlattening (order : MapOrder) (doc : QueryDocument)
    (l1 l2 : SelectionSet) : Prop :=
  (∀ r, Flattens order doc l1 r → ∃ r', Flattens order doc l2 r' ∧ r ≈ r') ∧
  (∀ r', Flattens order doc l2 r' → ∃ r, Flattens order doc l1 r ∧ r ≈ r').

(** The fields of a selection with its fragments inlined: a field stands
    for itself, an inline fragment or a resolved spread for the fields of
    its contents, a spread without definition for nothing.  A definition
    may spread again: the expansion runs on fuel. *)
Fixpoint inlineSel (doc : QueryDocument) (fuel : nat) (s : Selection)
  : option SelectionSet :=
  match s with
  | FieldSel _ _ _ _ => Some [s]
  | _ =>
      match fragmentContents doc s with
      | None => Some []
      | Some contents =>
          match fuel with
          | 0 => None
          | S fuel' => fields ← mapM (inlineSel doc fuel') contents; Some (concat fields)
          end
      end
  end.

Definition inlineSet (doc : QueryDocument) (fuel : nat) (ss : SelectionSet)
  : option SelectionSet :=
  fields ← mapM (inlineSel doc fuel) ss; Some (concat fields).

(** The sum of a loop that adds a cost per element. *)
Fixpoint totalCost {A} (g : A → option Z) (l : list A) : option Z :=
  match l with
  | [] => Some 0%Z
  | x :: l' => c ← g x; t ← totalCost g l'; Some (c + t)%Z
  end.

(** gqlparser stores the name of a field written without an alias as its
    alias too; a tree built by hand may leave the alias empty.  [aliased]
    chooses between the two. *)
Definition fixtureField (aliased : bool) (object name type : string)
    (args : list (string * string)) (cs : SelectionSet) : Selection :=
  FieldSel (if aliased then name else "") name
    (mkFieldInfo args [] 0 "" type object) cs.

Definition fixtureSchema : Schema :=
  [mkType "Query" [("user", "User")];
   mkType "User" [("id", "ID"); ("name", "String")]].

Definition fixtureUserFields (aliased : bool) : SelectionSet :=
  [fixtureField aliased "User" "id" "ID" [] [];
   fixtureField aliased "User" "name" "String" [] []].

Definition fixtureOperation (aliased : bool) : OperationDefinition :=
  mkOperation Query "GetOrder" [("id", "ID!")] []
    [fixtureField aliased "Query" "user" "User" [("id", "$id")]
       [FragmentSpread "HeaderFragment"; FragmentSpread "UserFragment"]]
    0 "".

Definition fixtureDocument (aliased : bool) : QueryDocument :=
  mkDocument [fixtureOperation aliased]
    [mkFragment "HeaderFragment" "User" (fixtureUserFields aliased);
     mkFragment "UserFragment" "User" (fixtureUserFields aliased)].

Definition twoAliases : SelectionSet := [leaf "a" "x"; leaf "a" "y"].

Definition petOperation : OperationDefinition :=
  mkOperation Query "Pet" [] []
    [node "" "pet" [InlineFragment "Dog" [leaf "a" "name"];
                    InlineFragment "Cat" [leaf "a" "nick"]]]
    0 "".

Definition danglingOperation : OperationDefinition :=
  mkOperation Query "Dangling" [] []
    [leaf "" "id"; FragmentSpread "Missing"; leaf "" "name"] 0 "".

Definition aliasX : Selection := node "a" "x" [leaf "" "p"].
Definition aliasY : Selection := node "a" "y" [leaf "" "q"].

(** Without the precondition the run need not return: a fragment that
    spreads itself exhausts any fuel. *)
Definition cyclicDocument : QueryDocument :=
  mkDocument [] [mkFragment "Loop" "User" [FragmentSpread "Loop"]].

(** ** The number of fields *)

(** The fields of a selection tree as it stands, at every level. *)
Fixpoint sizeSel (s : Selection) : nat :=
  match s with
  | FieldSel _ _ _ cs => S (sum_list_with sizeSel cs)
  | InlineFragment _ cs => sum_list_with sizeSel cs
  | FragmentSpread _ => 0
  end.

Definition sizeSet (ss : SelectionSet) : nat := sum_list_with sizeSel ss.

(** A loop that adds a count per element. *)
Fixpoint sumM {A} (g : A → option nat) (l : list A) : option nat :=
  match l with
  | [] => Some 0
  | x :: l' => c ← g x; t ← sumM g l'; Some (c + t)
  end.

(** The fields of a selection with the fragments it names expanded, every
    occurrence counted: a field counts one more than its selection set, a
    fragment what its contents count, a spread without definition
    nothing.  A definition may spread again: the count runs on fuel. *)
Definition fieldCountSel (doc : QueryDocument) (rec : SelectionSet → option nat)
    (s : Selection) : option nat :=
  match s with
  | FieldSel _ _ _ cs => c ← rec cs; Some (S c)
  | InlineFragment _ cs => rec cs
  | FragmentSpread name =>
      match findFragmentDefinition doc name with
      | Some fd => rec (FragSelections fd)
      | None => Some 0
      end
  end.

Fixpoint fieldCount (doc : QueryDocument) (fuel : nat) (ss : SelectionSet)
  : option nat :=
  match fuel with
  | 0 => None
  | S fuel' => sumM (fieldCountSel doc (fieldCount doc fuel')) ss
  end.

(** The entries of a map, counted with what is below them. *)
Definition mapSize (m : gmap string Field) : nat :=
  sum_list_with (λ kv, S (sizeSet (Selections kv.2))) (map_to_list m).

(** ** The first field of a key *)

(** The first field of [ss] stored under the key [k]. *)
Fixpoint firstField (k : string) (ss : SelectionSet) : option Selection :=
  match ss with
  | [] => None
  | FieldSel a n i cs :: ss' =>
      if decide (fieldKey a n = k) then Some (FieldSel a n i cs)
      else firstField k ss'
  | _ :: ss' => firstField k ss'
  end.

(** What a field is apart from its selection set. *)
Definition headOf (s : Selection) : option (string * string * FieldInfo) :=
  match s with
  | FieldSel a n i _ => Some (a, n, i)
  | _ => None
  end.

(** The state of the loop after the fields [met]: the keys of the map are
    the keys met, and every entry is, apart from its selection set, the
    first field met with its key. *)
Definition entriesFirst (m : gmap string Field) (met : SelectionSet) : Prop :=
  ∀ k, (headOf ∘ ofField) <$> m !! k = headOf <$> firstField k met.

(** ** Documents whose spreads all resolve *)

(** Every spread of the selection set, at any depth, names a definition of
    the document. *)
Definition spreadsDefined (doc : QueryDocument) (ss : SelectionSet) : bool :=
  forallb (λ name, bool_decide (name ∈ fragmentNames doc)) (spreadNamesOf ss).

(** The same for every operation and every definition of the document. *)
Definition allSpreadsDefined (doc : QueryDocument) : bool :=
  forallb (λ op, spreadsDefined doc (OpSelections op)) (Operations doc)
  && forallb (λ fd, spreadsDefined doc (FragSelections fd)) (Fragments doc).

(** Two same-key fields with different arguments. *)
Definition userOne : Selection :=
  fixtureField false "Query" "user" "User" [("id", "1")] [leaf "" "id"].
Definition userTwo : Selection :=
  fixtureField false "Query" "user" "User" [("id", "2")] [leaf "" "name"].

(** ** [RunAnalysis]: what one file contributes *)

Section FileReport.
Context {error : Type}.
Variable ReadFile : string → error + string.
Variable ParseQuery : Source.t → error + QueryDocument.
Variable order : MapOrder.
Variable validate : Schema → QueryDocument → bool.
Variable fuel : nat.
Variable schemaDoc : Schema.

(** The file can be read; and, for a schema file, the source that is made
    of it. *)
Definition readable (path : string) : Prop :=
  ∃ fileBytes, ReadFile path = inr fileBytes.

Definition sourceOf (schemaPath : string) (source : Source.t) : Prop :=
  ∃ fileBytes, ReadFile schemaPath = inr fileBytes ∧
               source = Source.mk schemaPath fileBytes false.

(** The document of a file that can be read and parsed and passes the
    validation. *)
Definition validDocument (file : string) : option QueryDocument :=
  match ReadFile file with
  | inl _ => None
  | inr fileBytes =>
      match ParseQuery (Source.mk file fileBytes false) with
      | inl _ => None
      | inr queryDoc =>
          if validate schemaDoc queryDoc then Some queryDoc else None
      end
  end.

(** The record of one operation of the document of [file]. *)
Definition recordOf (file : string) (res : DocumentAnalysis)
  : ComplexityAnalysis.t :=
  ComplexityAnalysis.mk file (OperationName res) (Complexity res)
    (FlattenedComplexity res).

(** The records of a file: one per operation of its document, if it has a
    valid one; none otherwise.  [None] is an analysis that has not
    returned. *)
Definition fileResults (file : string) : option (list ComplexityAnalysis.t) :=
  match validDocument file with
  | None => Some []
  | Some queryDoc =>
      analysis ← mapM (analyseOperation order fuel queryDoc) (Operations queryDoc);
      Some (recordOf file <$> analysis)
  end.

(** The warning of a file without a valid document. *)
Definition fileWarning (file : string) : option (Warning error) :=
  match ReadFile file with
  | inl err => Some (ReadingQueryFile error file err)
  | inr fileBytes =>
      match ParseQuery (Source.mk file fileBytes false) with
      | inl err => Some (ParsingQuery error file err)
      | inr queryDoc =>
          if validate schemaDoc queryDoc then None
          else Some (AnalysingDocument error file)
      end
  end.
End FileReport.

(** A working directory for the examples: one schema file and three query
    files, of which one cannot be read and one does not parse.  The content
    of a file stands for its path. *)
Definition fixtureGlob (pattern : string) : string + list string :=
  if decide (pattern = "schema/*.graphql") then inr ["schema/schema.graphql"]
  else if decide (pattern = "queries/*.graphql")
       then inr ["queries/locked.graphql"; "queries/order.graphql";
                 "queries/broken.graphql"]
       else inl "syntax error in pattern".

Definition fixtureReadFile (path : string) : string + string :=
  if decide (path = "queries/locked.graphql") then inl "permission denied"
  else inr path.

Definition fixtureLoadSchema (inputs : list Source.t) : string + Schema :=
  inr fixtureSchema.

Definition fixtureParseQuery (source : Source.t) : string + QueryDocument :=
  if decide (Source.Input source = "queries/order.graphql")
  then inr (fixtureDocument true)
  else inl "unexpected token".

(** ** Fragments that spread in a cycle *)

(** From the name [a], following the spreads of the definitions, one
    arrives at a name that arrives at itself. *)
Definition reachesCycle (doc : QueryDocument) (a : string) : Prop :=
  ∃ c, rtc (references doc) a c ∧ tc (references doc) c c.

(** ** Names *)

(** The string has no colon, as every GraphQL name. *)
Fixpoint noColon (s : string) : bool :=
  match s with
  | EmptyString => true
  | String c s' => negb (bool_decide (String c "" = ":")) && noColon s'
  end.

(** * Part 5: lemmas *)

(** ** Loops and fuel *)

Lemma foldlM_app {A B} (f : B → A → option B) (b : B) (l1 l2 : list A) :
  foldlM f b (l1 ++ l2) = b' ← foldlM f b l1; foldlM f b' l2.
Proof.
  revert b. induction l1 as [|x l1 IH]; intros b; simpl; [done|].
  destruct (f b x); simpl; auto.
Qed.

Lemma foldlM_mono {A B} (f g : B → A → option B) :
  (∀ b x b', f b x = Some b' → g b x = Some b') →
  ∀ l b b', foldlM f b l = Some b' → foldlM g b l = Some b'.
Proof.
  intros Hfg l. induction l as [|x l IH]; intros b b' H; simpl in *; [done|].
  destruct (f b x) as [b1|] eqn:E; simpl in *; [|done].
  rewrite (Hfg _ _ _ E). simpl. auto.
Qed.

Lemma foldlM_invariant {A B} (f : B → A → option B) (I : B → Prop) (Q : A → Prop) :
  (∀ b x b', I b → Q x → f b x = Some b' → I b') →
  ∀ l b b', Forall Q l → I b → foldlM f b l = Some b' → I b'.
Proof.
  intros Hstep l. induction l as [|x l IH]; intros b b' HQ Hb H; simpl in *.
  - by simplify_eq.
  - destruct (f b x) as [b1|] eqn:E; simpl in *; [|done].
    inversion HQ; subst. eauto.
Qed.

Section Mono.
Variable order : MapOrder.
Variable doc : QueryDocument.
Variables rec rec' : SelectionSet → option SelectionSet.
Hypothesis Hrec : recLe rec rec'.

Lemma foldFragmentField_mono m s m' :
  foldFragmentField rec m s = Some m' → foldFragmentField rec' m s = Some m'.
Proof.
  destruct s as [a n i ss| |]; simpl; try done.
  destruct (m !! fieldKey a n) as [e|]; [|done].
  destruct (rec (Selections e ++ ss)) as [r|] eqn:E; simpl; [|done].
  by rewrite (Hrec _ _ E).
Qed.

Lemma stepSelection_mono m s m' :
  stepSelection doc rec m s = Some m' → stepSelection doc rec' m s = Some m'.
Proof.
  destruct s as [a n i ss|tc ss|name]; simpl.
  - destruct (m !! fieldKey a n) as [e|].
    + destruct (rec (Selections e ++ ss)) as [r|] eqn:E; simpl; [|done].
      by rewrite (Hrec _ _ E).
    + destruct (rec ss) as [r|] eqn:E; simpl; [|done].
      by rewrite (Hrec _ _ E).
  - destruct (rec ss) as [r|] eqn:E; simpl; [|done].
    rewrite (Hrec _ _ E). simpl.
    apply foldlM_mono, foldFragmentField_mono.
  - destruct (findFragmentDefinition doc name) as [fd|]; [|done].
    destruct (rec (FragSelections fd)) as [r|] eqn:E; simpl; [|done].
    rewrite (Hrec _ _ E). simpl.
    apply foldlM_mono, foldFragmentField_mono.
Qed.
End Mono.

(** More fuel does not change a result. *)
Lemma flattenSelectionSet_S order doc fuel :
  recLe (flattenSelectionSet order doc fuel) (flattenSelectionSet order doc (S fuel)).
Proof.
  induction fuel as [|fuel IH]; intros l r H; [done|].
  cbn [flattenSelectionSet] in *.
  destruct (foldlM _ ∅ l) as [m|] eqn:E; simpl in *; [|done].
  erewrite foldlM_mono; [exact H| |exact E].
  intros b x b'. by apply stepSelection_mono.
Qed.

Lemma flattenSelectionSet_mono order doc fuel fuel' :
  fuel ≤ fuel' →
  recLe (flattenSelectionSet order doc fuel) (flattenSelectionSet order doc fuel').
Proof.
  induction 1 as [|fuel' _ IH]; intros l r H; [done|].
  by apply flattenSelectionSet_S, IH.
Qed.

Lemma flattenSelectionSet_det order doc fuel fuel' l r r' :
  flattenSelectionSet order doc fuel l = Some r →
  flattenSelectionSet order doc fuel' l = Some r' → r = r'.
Proof.
  intros H H'.
  apply (flattenSelectionSet_mono _ _ _ (fuel `max` fuel')) in H; [|lia].
  apply (flattenSelectionSet_mono _ _ _ (fuel `max` fuel')) in H'; [|lia].
  congruence.
Qed.

(** ** The iteration over a map *)

Lemma rangeKeys_perm {V} order (m : gmap string V) :
  rangeKeys order m ≡ₚ (map_to_list m).*1.
Proof.
  unfold rangeKeys. rewrite rangeOrder_perm.
  apply NoDup_Permutation.
  - apply NoDup_elements.
  - apply NoDup_fst_map_to_list.
  - intros k. rewrite elem_of_elements, elem_of_dom, list_elem_of_fmap.
    split.
    + intros [v Hv]. exists (k, v). split; [done|]. by apply elem_of_map_to_list.
    + intros ([k' v] & -> & Hkv). exists v. by apply elem_of_map_to_list.
Qed.

Lemma omap_fst_snd {K V} (f : K → option V) (l : list (K * V)) :
  Forall (λ kv, f kv.1 = Some kv.2) l → omap f l.*1 = l.*2.
Proof.
  induction 1 as [|[k v] l Hkv _ IH]; [done|].
  csimpl. simpl in Hkv. by rewrite Hkv, IH.
Qed.

Lemma omap_lookup_map_to_list {V} (m : gmap string V) :
  omap (λ k, m !! k) (map_to_list m).*1 = (map_to_list m).*2.
Proof.
  apply omap_fst_snd, Forall_forall. intros [k v] Hin%list_elem_of_In.
  by apply elem_of_map_to_list.
Qed.

Lemma rangeValues_perm {V} order (m : gmap string V) :
  rangeValues order m ≡ₚ (map_to_list m).*2.
Proof.
  unfold rangeValues. rewrite rangeKeys_perm. by rewrite omap_lookup_map_to_list.
Qed.

Lemma rangeValues_elem {V} order (m : gmap string V) v :
  v ∈ rangeValues order m ↔ ∃ k, m !! k = Some v.
Proof.
  rewrite rangeValues_perm, list_elem_of_fmap. split.
  - intros ([k v'] & -> & Hin). exists k. by apply elem_of_map_to_list.
  - intros [k Hk]. exists (k, v). split; [done|]. by apply elem_of_map_to_list.
Qed.

Lemma rangeValues_empty {V} order : rangeValues order (∅ : gmap string V) = [].
Proof.
  pose proof (rangeValues_perm order (∅ : gmap string V)) as H.
  rewrite map_to_list_empty in H. by apply Permutation_nil_r in H.
Qed.

Lemma rangeValues_singleton {V} order k (v : V) :
  rangeValues order ({[k := v]} : gmap string V) = [v].
Proof.
  pose proof (rangeValues_perm order ({[k := v]} : gmap string V)) as H.
  rewrite map_to_list_singleton in H. by apply Permutation_singleton_r in H.
Qed.

Lemma mapValues_perm order m :
  mapValues order m ≡ₚ (λ kv, ofField kv.2) <$> map_to_list m.
Proof.
  unfold mapValues. rewrite rangeValues_perm. by rewrite <- list_fmap_compose.
Qed.

Lemma mapValues_elem_of order m x :
  x ∈ mapValues order m ↔ ∃ k f, m !! k = Some f ∧ x = ofField f.
Proof.
  unfold mapValues. rewrite list_elem_of_fmap. split.
  - intros (f & -> & [k Hk]%rangeValues_elem). eauto.
  - intros (k & f & Hk & ->). exists f. split; [done|].
    apply rangeValues_elem. eauto.
Qed.

(** ** The output is flat *)

Lemma flatSet_spec ss :
  flatSet ss = true ↔
  Forall (λ s, flatSel s = true) ss ∧ NoDup (selKey <$> ss).
Proof.
  unfold flatSet. rewrite andb_true_iff, forallb_forall, bool_decide_eq_true.
  rewrite Forall_forall. by setoid_rewrite <- list_elem_of_In.
Qed.

Lemma flatSel_field a n i ss : flatSel (FieldSel a n i ss) = flatSet ss.
Proof. done. Qed.

Lemma flatSel_ofField f : flatSel (ofField f) = flatSet (Selections f).
Proof. done. Qed.

Lemma selKey_ofField f : selKey (ofField f) = keyOf f.
Proof. done. Qed.

Lemma flatSel_fieldsOnlySel s : flatSel s = true → fieldsOnlySel s = true.
Proof.
  induction s as [a n i ss IH| |] using Selection_nested_ind; simpl; try done.
  rewrite andb_true_iff, !forallb_forall. intros [H _] x Hx.
  rewrite Forall_forall in IH. apply (IH x Hx), H, Hx.
Qed.

Lemma flatSet_fieldsOnly ss : flatSet ss = true → fieldsOnly ss = true.
Proof.
  unfold flatSet, fieldsOnly. rewrite andb_true_iff, !forallb_forall.
  intros [H _] x Hx. apply flatSel_fieldsOnlySel; auto.
Qed.

Lemma mapOK_empty : mapOK ∅.
Proof. apply map_Forall_empty. Qed.

Lemma mapOK_insert m k f :
  mapOK m → keyOf f = k → flatSet (Selections f) = true → mapOK (<[k := f]> m).
Proof. intros. by apply map_Forall_insert_2. Qed.

Create HintDb flat.
#[local] Hint Resolve mapOK_empty mapOK_insert : flat.

Section FlatOutput.
Variable order : MapOrder.
Variable doc : QueryDocument.
Variable rec : SelectionSet → option SelectionSet.
Hypothesis Hrec : recFlat rec.

Lemma foldFragmentField_ok m s m' :
  mapOK m → flatSel s = true →
  foldFragmentField rec m s = Some m' → mapOK m'.
Proof.
  intros Hm Hs. destruct s as [a n i ss| |]; simpl; try done.
  destruct (m !! fieldKey a n) as [e|] eqn:Ee.
  - destruct (rec (Selections e ++ ss)) as [r|] eqn:E; simpl; [|done].
    intros [= <-]. apply mapOK_insert; [done| |by eapply Hrec].
    by destruct (Hm _ _ Ee).
  - intros [= <-]. by apply mapOK_insert.
Qed.

Lemma foldFragment_ok m l m' :
  mapOK m → flatSet l = true →
  foldlM (foldFragmentField rec) m l = Some m' → mapOK m'.
Proof.
  intros Hm Hl. apply flatSet_spec in Hl as [Hl _].
  eapply (foldlM_invariant _ mapOK (λ s, flatSel s = true)); eauto.
  intros. by eapply foldFragmentField_ok.
Qed.

Lemma stepSelection_ok m s m' :
  mapOK m → stepSelection doc rec m s = Some m' → mapOK m'.
Proof.
  intros Hm. destruct s as [a n i ss|tc ss|name]; simpl.
  - destruct (m !! fieldKey a n) as [e|] eqn:Ee.
    + destruct (rec (Selections e ++ ss)) as [r|] eqn:E; simpl; [|done].
      intros [= <-]. apply mapOK_insert; [done| |by eapply Hrec].
      by destruct (Hm _ _ Ee).
    + destruct (rec ss) as [r|] eqn:E; simpl; [|done].
      intros [= <-]. apply mapOK_insert; [done|done|by eapply Hrec].
  - destruct (rec ss) as [r|] eqn:E; simpl; [|done].
    apply foldFragment_ok; [done|by eapply Hrec].
  - destruct (findFragmentDefinition doc name) as [fd|]; [|by intros [= <-]].
    destruct (rec (FragSelections fd)) as [r|] eqn:E; simpl; [|done].
    apply foldFragment_ok; [done|by eapply Hrec].
Qed.

Lemma foldSelections_ok m l m' :
  mapOK m → foldlM (stepSelection doc rec) m l = Some m' → mapOK m'.
Proof.
  intros Hm. eapply (foldlM_invariant _ mapOK (λ _, True)); eauto.
  - intros. by eapply stepSelection_ok.
  - by apply Forall_true.
Qed.

Lemma mapValues_keys m :
  mapOK m → selKey <$> mapValues order m ≡ₚ (map_to_list m).*1.
Proof.
  intros Hm. rewrite mapValues_perm, <- list_fmap_compose.
  apply reflexive_eq, Forall_fmap_ext_1, Forall_forall.
  intros [k f] Hin%list_elem_of_In. simpl.
  apply elem_of_map_to_list in Hin. by destruct (Hm _ _ Hin).
Qed.

Lemma mapValues_flat m : mapOK m → flatSet (mapValues order m) = true.
Proof.
  intros Hm. apply flatSet_spec. split.
  - rewrite Forall_forall. intros x Hin%list_elem_of_In.
    apply mapValues_elem_of in Hin as (k & f & Hf & ->).
    by destruct (Hm _ _ Hf).
  - rewrite mapValues_keys by done. apply NoDup_fst_map_to_list.
Qed.
End FlatOutput.

Lemma flattenSelectionSet_flat order doc fuel :
  recFlat (flattenSelectionSet order doc fuel).
Proof.
  induction fuel as [|fuel IH]; intros l r H; [done|].
  cbn [flattenSelectionSet] in H.
  destruct (foldlM _ ∅ l) as [m|] eqn:E; simpl in H; [|done].
  injection H as <-. apply mapValues_flat.
  eapply foldSelections_ok; eauto with flat.
Qed.

(** ** Equivalence up to order *)

Lemma Forall2_weaken {A B} (R R' : A → B → Prop) l l' :
  Forall2 R l l' → (∀ x y, R x y → R' x y) → Forall2 R' l l'.
Proof. induction 1; constructor; auto. Qed.

Lemma Forall2_Permutation_r {A B} (R : A → B → Prop) l1 l2 l2' :
  Forall2 R l1 l2 → l2 ≡ₚ l2' → ∃ l1', l1 ≡ₚ l1' ∧ Forall2 R l1' l2'.
Proof.
  intros HF Hp. apply Forall2_flip in HF.
  destruct (Permutation_Forall2 Hp HF) as (l1' & Hp' & HF').
  exists l1'. split; [done|]. by apply Forall2_flip.
Qed.

Lemma setEquiv_intro l mid mid' l' :
  l ≡ₚ mid → Forall2 selEquiv mid mid' → mid' ≡ₚ l' → l ≈ l'.
Proof.
  intros Hp HF Hp'.
  destruct (Forall2_Permutation_r _ _ _ _ HF Hp') as (l1 & Hp1 & HF1).
  exists l1. split; [by etrans|done].
Qed.

Lemma selEquiv_set a n i ss ss' :
  selEquiv (FieldSel a n i ss) (FieldSel a n i ss') ↔ ss ≈ ss'.
Proof.
  split.
  - inversion 1; subst. by eexists.
  - intros (mid & ? & ?). by econstructor.
Qed.

Lemma selEquiv_refl s : fieldsOnlySel s = true → selEquiv s s.
Proof.
  induction s as [a n i ss IH| |] using Selection_nested_ind; simpl; try done.
  intros Hall. apply (selEquiv_field _ _ _ _ _ ss); [done|].
  induction IH as [|x l Hx _ IHl]; simpl in *; [constructor|].
  apply andb_true_iff in Hall as [??]. constructor; auto.
Qed.

Lemma selEquiv_sym x y : selEquiv x y → selEquiv y x.
Proof.
  induction 1 as [a n i ss ss' mid Hp HF] using selEquiv_nested_ind.
  assert (Forall2 (flip selEquiv) mid ss') as HF'.
  { eapply Forall2_weaken; [exact HF|]. by intros ?? [_ ?]. }
  symmetry in Hp.
  destruct (Permutation_Forall2 Hp HF') as (l2 & Hp2 & HF2).
  apply (selEquiv_field _ _ _ _ _ l2); [done|]. by apply Forall2_flip.
Qed.

Lemma selEquiv_trans x y z : selEquiv x y → selEquiv y z → selEquiv x z.
Proof.
  intros H. revert z.
  induction H as [a n i ss ss' mid Hp HF] using selEquiv_nested_ind.
  intros z Hz. inversion Hz as [? ? ? ? ss'' mid' Hp' HF']; subst.
  destruct (Forall2_Permutation_r _ _ _ _ HF Hp') as (l1 & Hp1 & HF1).
  apply (selEquiv_field _ _ _ _ _ l1); [by etrans|].
  clear -HF1 HF'. revert ss'' HF'.
  induction HF1 as [|u v l l' [_ Huv] _ IH]; intros ss'' HF';
    inversion HF'; subst; constructor; auto.
Qed.

Lemma setEquiv_refl l : fieldsOnly l = true → l ≈ l.
Proof.
  intros H. apply (selEquiv_set "" "" (mkFieldInfo [] [] 0 "" "" "")).
  by apply selEquiv_refl.
Qed.

Lemma setEquiv_sym l l' : l ≈ l' → l' ≈ l.
Proof.
  rewrite <- !(selEquiv_set "" "" (mkFieldInfo [] [] 0 "" "" "")).
  apply selEquiv_sym.
Qed.

Lemma setEquiv_trans l1 l2 l3 : l1 ≈ l2 → l2 ≈ l3 → l1 ≈ l3.
Proof.
  rewrite <- !(selEquiv_set "" "" (mkFieldInfo [] [] 0 "" "" "")).
  apply selEquiv_trans.
Qed.

Lemma setEquiv_flat_refl l : flatSet l = true → l ≈ l.
Proof. intros. by apply setEquiv_refl, flatSet_fieldsOnly. Qed.

Lemma selEquiv_key x y : selEquiv x y → selKey x = selKey y.
Proof. by inversion 1. Qed.

Lemma selEquiv_responseKey x y : selEquiv x y → selResponseKey x = selResponseKey y.
Proof. by inversion 1. Qed.

Lemma Forall2_selEquiv_keys l l' :
  Forall2 selEquiv l l' → selKey <$> l = selKey <$> l'.
Proof.
  induction 1 as [|x y l l' Hxy _ IH]; [done|].
  rewrite !fmap_cons. f_equal; [by apply selEquiv_key|done].
Qed.

Lemma setEquiv_keys l l' : l ≈ l' → selKey <$> l ≡ₚ selKey <$> l'.
Proof.
  intros (mid & Hp & HF). rewrite Hp. by rewrite (Forall2_selEquiv_keys _ _ HF).
Qed.

Lemma setEquiv_length l l' : l ≈ l' → length l = length l'.
Proof.
  intros (mid & Hp & HF). rewrite Hp. by eapply Forall2_length.
Qed.

Lemma setEquiv_nil_inv l : l ≈ [] → l = [].
Proof. intros H%setEquiv_length. by destruct l. Qed.

Lemma selEquiv_flat x y : selEquiv x y → flatSel x = true → flatSel y = true.
Proof.
  induction 1 as [a n i ss ss' mid Hp HF] using selEquiv_nested_ind.
  rewrite !flatSel_field, !flatSet_spec. intros [Hall Hnd].
  rewrite Hp in Hall, Hnd. split.
  - clear Hnd Hp. induction HF as [|u v l l' [_ Huv] _ IH]; [constructor|].
    inversion Hall; subst. constructor; auto.
  - erewrite <- Forall2_selEquiv_keys; [exact Hnd|].
    eapply Forall2_weaken; [exact HF|]. by intros ?? [? _].
Qed.

Lemma setEquiv_flat l l' : l ≈ l' → flatSet l = true → flatSet l' = true.
Proof.
  intros H. apply (selEquiv_set "" "" (mkFieldInfo [] [] 0 "" "" "")) in H.
  apply (selEquiv_flat _ _ H).
Qed.

Lemma setEquiv_app l1 l1' l2 l2' : l1 ≈ l1' → l2 ≈ l2' → l1 ++ l2 ≈ l1' ++ l2'.
Proof.
  intros (m1 & Hp1 & HF1) (m2 & Hp2 & HF2). exists (m1 ++ m2). split.
  - by rewrite Hp1, Hp2.
  - by apply Forall2_app.
Qed.

Lemma fieldEquiv_ofField f f' : fieldEquiv f f' → selEquiv (ofField f) (ofField f').
Proof.
  destruct f, f'. unfold fieldEquiv, ofField. simpl.
  intros (-> & -> & -> & H). by apply selEquiv_set.
Qed.

Lemma fieldEquiv_refl f : flatSet (Selections f) = true → fieldEquiv f f.
Proof. intros. repeat split. by apply setEquiv_flat_refl. Qed.

Lemma fieldEquiv_key f f' : fieldEquiv f f' → keyOf f = keyOf f'.
Proof. intros (Ha & Hn & _). unfold keyOf. by rewrite Ha, Hn. Qed.

Lemma mapEquiv_empty : mapEquiv ∅ ∅.
Proof. intros k. rewrite !lookup_empty. constructor. Qed.

Lemma mapEquiv_insert m m' k f f' :
  mapEquiv m m' → fieldEquiv f f' → mapEquiv (<[k := f]> m) (<[k := f']> m').
Proof.
  intros Hm Hf j. destruct (decide (k = j)) as [->|Hne].
  - rewrite !lookup_insert_eq. by constructor.
  - rewrite !lookup_insert_ne by done. apply Hm.
Qed.

Lemma mapEquiv_delete m m' k :
  mapEquiv m m' → mapEquiv (delete k m) (delete k m').
Proof.
  intros Hm j. destruct (decide (k = j)) as [->|Hne].
  - rewrite !lookup_delete_eq. constructor.
  - rewrite !lookup_delete_ne by done. apply Hm.
Qed.

Lemma mapEquiv_refl m : mapOK m → mapEquiv m m.
Proof.
  intros Hm k. destruct (m !! k) as [f|] eqn:E; constructor.
  apply fieldEquiv_refl. by destruct (Hm _ _ E).
Qed.

Lemma mapEquiv_lookup_Some m m' k f :
  mapEquiv m m' → m !! k = Some f → ∃ f', m' !! k = Some f' ∧ fieldEquiv f f'.
Proof. intros Hm E. specialize (Hm k). rewrite E in Hm. inversion Hm; eauto. Qed.

Lemma mapEquiv_lookup_None m m' k :
  mapEquiv m m' → m !! k = None → m' !! k = None.
Proof. intros Hm E. specialize (Hm k). rewrite E in Hm. by inversion Hm. Qed.

Lemma mapEquiv_to_list m m' :
  mapEquiv m m' →
  ∃ L L', map_to_list m ≡ₚ L ∧ map_to_list m' ≡ₚ L' ∧
          Forall2 (λ kv kv', fieldEquiv kv.2 kv'.2) L L'.
Proof.
  revert m. induction m' as [|k f' m' Hk IH] using map_ind; intros m Hm.
  - assert (m = ∅) as ->.
    { apply map_empty. intros k. specialize (Hm k).
      rewrite lookup_empty in Hm. by inversion Hm. }
    exists [], []. rewrite !map_to_list_empty. by repeat split.
  - pose proof (Hm k) as Hk'. rewrite lookup_insert_eq in Hk'.
    inversion Hk' as [f ? Hf Ef|]; subst. symmetry in Ef.
    destruct (IH (delete k m)) as (L & L' & HL & HL' & HF).
    { intros j. destruct (decide (k = j)) as [->|Hne].
      - rewrite lookup_delete_eq, Hk. constructor.
      - rewrite lookup_delete_ne by done. specialize (Hm j).
        by rewrite lookup_insert_ne in Hm. }
    exists ((k, f) :: L), ((k, f') :: L'). split_and!.
    + rewrite <- HL, <- map_to_list_insert by apply lookup_delete_eq.
      by rewrite insert_delete_id.
    + by rewrite <- HL', map_to_list_insert.
    + by constructor.
Qed.

Lemma mapValues_equiv order order' m m' :
  mapEquiv m m' → mapValues order m ≈ mapValues order' m'.
Proof.
  intros (L & L' & HL & HL' & HF)%mapEquiv_to_list.
  apply (setEquiv_intro _ ((λ kv, ofField kv.2) <$> L) ((λ kv, ofField kv.2) <$> L')).
  - by rewrite mapValues_perm, HL.
  - apply Forall2_fmap. eapply Forall2_weaken; [exact HF|].
    intros ???. by apply fieldEquiv_ofField.
  - by rewrite mapValues_perm, HL'.
Qed.

(** ** The two loop bodies as updates of one key *)

Lemma stepSelection_field doc rec m a n i ss :
  stepSelection doc rec m (FieldSel a n i ss) =
  updateKey (fieldKey a n) (mergedEntry rec a n i ss true) m.
Proof.
  unfold updateKey, mergedEntry. simpl.
  destruct (m !! fieldKey a n) as [e|].
  - by destruct (rec (Selections e ++ ss)).
  - by destruct (rec ss).
Qed.

Lemma foldFragmentField_field rec m a n i ss :
  foldFragmentField rec m (FieldSel a n i ss) =
  updateKey (fieldKey a n) (mergedEntry rec a n i ss false) m.
Proof.
  unfold updateKey, mergedEntry. simpl.
  destruct (m !! fieldKey a n) as [e|]; [|done].
  by destruct (rec (Selections e ++ ss)).
Qed.

Lemma updateKey_comm k1 k2 g1 g2 m :
  k1 ≠ k2 →
  (m' ← updateKey k1 g1 m; updateKey k2 g2 m') =
  (m' ← updateKey k2 g2 m; updateKey k1 g1 m').
Proof.
  intros Hne. unfold updateKey.
  destruct (g1 (m !! k1)) as [v1|] eqn:E1; simpl;
    destruct (g2 (m !! k2)) as [v2|] eqn:E2; simpl;
    rewrite ?lookup_insert_ne by done; rewrite ?E1, ?E2; simpl; try done.
  by rewrite insert_insert_ne.
Qed.

(** A loop over elements that update pairwise distinct keys does not depend
    on the order of the elements. *)
Lemma foldlM_perm {A B K} (f : B → A → option B) (key : A → K) (Q : A → Prop) :
  (∀ x y b, Q x → Q y → key x ≠ key y →
     (b' ← f b x; f b' y) = (b' ← f b y; f b' x)) →
  ∀ l l', l ≡ₚ l' → Forall Q l → NoDup (key <$> l) →
  ∀ b, foldlM f b l = foldlM f b l'.
Proof.
  intros Hcomm l l' Hp.
  induction Hp as [|x l l' Hp IH|x y l|l l' l'' Hp1 IH1 Hp2 IH2];
    intros HQ Hnd b.
  - done.
  - simpl. inversion HQ; subst. rewrite fmap_cons in Hnd.
    inversion Hnd; subst.
    destruct (f b x); simpl; auto.
  - inversion HQ as [|?? Qy HQ']; subst. inversion HQ' as [|?? Qx _]; subst.
    rewrite !fmap_cons in Hnd. inversion Hnd as [|?? Hy _]; subst.
    assert (key y ≠ key x) as Hne by (intros E; apply Hy; rewrite E; left).
    specialize (Hcomm y x b Qy Qx Hne). simpl.
    destruct (f b y) as [by_|] eqn:Ey; destruct (f b x) as [bx|] eqn:Ex;
      simpl in *; try done.
    + by rewrite Hcomm.
    + by rewrite Hcomm.
    + by rewrite <- Hcomm.
  - rewrite IH1 by done. apply IH2.
    + by rewrite <- Hp1.
    + by rewrite <- Hp1.
Qed.

Lemma foldSelections_perm doc rec l l' m :
  l ≡ₚ l' → flatSet l = true →
  foldlM (stepSelection doc rec) m l = foldlM (stepSelection doc rec) m l'.
Proof.
  intros Hp [Hall Hnd]%flatSet_spec.
  apply (foldlM_perm _ selKey (λ s, isField s = true)); try done.
  - intros [a n i ss| |] [a' n' i' ss'| |] b; try done. intros _ _ Hne.
    rewrite !stepSelection_field.
    transitivity (m' ← updateKey (fieldKey a n) (mergedEntry rec a n i ss true) b;
                  updateKey (fieldKey a' n') (mergedEntry rec a' n' i' ss' true) m').
    { apply option_bind_ext_fun. intros. apply stepSelection_field. }
    rewrite updateKey_comm by done.
    apply option_bind_ext_fun. intros. symmetry. apply stepSelection_field.
  - eapply Forall_impl; [|exact Hall]. by intros [].
Qed.

Lemma foldFragment_perm rec l l' m :
  l ≡ₚ l' → flatSet l = true →
  foldlM (foldFragmentField rec) m l = foldlM (foldFragmentField rec) m l'.
Proof.
  intros Hp [Hall Hnd]%flatSet_spec.
  apply (foldlM_perm _ selKey (λ s, isField s = true)); try done.
  - intros [a n i ss| |] [a' n' i' ss'| |] b; try done. intros _ _ Hne.
    rewrite !foldFragmentField_field.
    transitivity (m' ← updateKey (fieldKey a n) (mergedEntry rec a n i ss false) b;
                  updateKey (fieldKey a' n') (mergedEntry rec a' n' i' ss' false) m').
    { apply option_bind_ext_fun. intros. apply foldFragmentField_field. }
    rewrite updateKey_comm by done.
    apply option_bind_ext_fun. intros. symmetry. apply foldFragmentField_field.
  - eapply Forall_impl; [|exact Hall]. by intros [].
Qed.

(** ** Independence of the iteration order *)

(** Two runs of the algorithm, with any two iteration orders, on inputs that
    differ by reordering flat blocks, return equivalent results (or both do
    not return). *)

Lemma inputRel_refl l : inputRel l l.
Proof. induction l; constructor; auto. Qed.

Lemma inputRel_block c c' : flatSet c = true → c ≈ c' → inputRel c c'.
Proof.
  intros. rewrite <- (app_nil_r c), <- (app_nil_r c').
  by constructor; [| |constructor].
Qed.

Lemma inputRel_block_same c c' l :
  flatSet c = true → c ≈ c' → inputRel (c ++ l) (c' ++ l).
Proof. intros. constructor; [done|done|apply inputRel_refl]. Qed.

Lemma inputRel_app l1 l1' l2 l2' :
  inputRel l1 l1' → inputRel l2 l2' → inputRel (l1 ++ l2) (l1' ++ l2').
Proof.
  induction 1; intros; simpl; [done|constructor; auto|].
  rewrite <- !app_assoc. constructor; auto.
Qed.

Lemma updateKey_equiv k g1 g2 m1 m2 :
  mapEquiv m1 m2 →
  option_Forall2 fieldEquiv (g1 (m1 !! k)) (g2 (m2 !! k)) →
  option_Forall2 mapEquiv (updateKey k g1 m1) (updateKey k g2 m2).
Proof.
  intros Hm Hg. unfold updateKey.
  destruct Hg as [v1 v2 Hv|]; simpl; constructor.
  by apply mapEquiv_insert.
Qed.

Section Simulation.
Variable doc : QueryDocument.
Variables rec1 rec2 : SelectionSet → option SelectionSet.
Hypothesis Hflat1 : recFlat rec1.
Hypothesis Hrel : recRel rec1 rec2.

Lemma mergedEntry_equiv a n i ss ss' (b : bool) old1 old2 :
  option_Forall2 fieldEquiv old1 old2 →
  (∀ e, old1 = Some e → flatSet (Selections e) = true) →
  inputRel ss ss' → (b = false → ss ≈ ss') →
  option_Forall2 fieldEquiv
    (mergedEntry rec1 a n i ss b old1) (mergedEntry rec2 a n i ss' b old2).
Proof.
  intros Hold Hok Hin Hfrag.
  destruct Hold as [e1 e2 (Ha & Hn & Hi & He)|]; simpl.
  - assert (inputRel (Selections e1 ++ ss) (Selections e2 ++ ss')) as Hrun.
    { constructor; auto. }
    destruct (Hrel _ _ Hrun) as [r1 r2 Hr|]; simpl; constructor.
    by repeat split.
  - destruct b.
    + destruct (Hrel _ _ Hin) as [r1 r2 Hr|]; simpl; constructor.
      by repeat split.
    + constructor. repeat split. by apply Hfrag.
Qed.

Lemma entryOK m k :
  mapOK m → ∀ e : Field, m !! k = Some e → flatSet (Selections e) = true.
Proof. intros Hm e E. by destruct (Hm _ _ E). Qed.

Lemma foldFragment_equiv r1 r2 m1 m2 :
  r1 ≈ r2 → flatSet r1 = true → mapEquiv m1 m2 → mapOK m1 →
  option_Forall2 mapEquiv
    (foldlM (foldFragmentField rec1) m1 r1)
    (foldlM (foldFragmentField rec2) m2 r2).
Proof.
  intros (mid & Hp & HF) Hflat.
  rewrite (foldFragment_perm rec1 r1 mid) by done.
  assert (Forall (λ s, flatSel s = true) mid) as Hmid.
  { rewrite <- Hp. by apply flatSet_spec in Hflat as [? _]. }
  clear Hp Hflat r1. revert m1 m2.
  induction HF as [|x y l l' Hxy _ IH]; intros m1 m2 Hm Hok; simpl.
  { by constructor. }
  inversion Hmid as [|?? Hx Hl]; subst.
  destruct Hxy as [a n i ss ss' mid0 Hp0 HF0].
  assert (ss ≈ ss') as Hss by by exists mid0.
  rewrite !foldFragmentField_field.
  pose proof (updateKey_equiv (fieldKey a n)
    (mergedEntry rec1 a n i ss false) (mergedEntry rec2 a n i ss' false)
    m1 m2 Hm) as Hstep.
  pose proof (foldFragmentField_ok rec1 Hflat1 m1 (FieldSel a n i ss)) as Hok'.
  rewrite foldFragmentField_field in Hok'.
  destruct Hstep as [m1' m2' Hm'|]; simpl.
  - apply mergedEntry_equiv; [apply Hm|by apply entryOK| |done].
    by apply inputRel_block.
  - apply IH; auto.
  - constructor.
Qed.

Lemma foldFields_equiv c c' m1 m2 :
  c ≈ c' → flatSet c = true → mapEquiv m1 m2 → mapOK m1 →
  option_Forall2 mapEquiv
    (foldlM (stepSelection doc rec1) m1 c)
    (foldlM (stepSelection doc rec2) m2 c').
Proof.
  intros (mid & Hp & HF) Hflat.
  rewrite (foldSelections_perm doc rec1 c mid) by done.
  assert (Forall (λ s, flatSel s = true) mid) as Hmid.
  { rewrite <- Hp. by apply flatSet_spec in Hflat as [? _]. }
  clear Hp Hflat c. revert m1 m2.
  induction HF as [|x y l l' Hxy _ IH]; intros m1 m2 Hm Hok; simpl.
  { by constructor. }
  inversion Hmid as [|?? Hx Hl]; subst.
  destruct Hxy as [a n i ss ss' mid0 Hp0 HF0].
  assert (ss ≈ ss') as Hss by by exists mid0.
  rewrite !stepSelection_field.
  pose proof (updateKey_equiv (fieldKey a n)
    (mergedEntry rec1 a n i ss true) (mergedEntry rec2 a n i ss' true)
    m1 m2 Hm) as Hstep.
  pose proof (stepSelection_ok doc rec1 Hflat1 m1 (FieldSel a n i ss)) as Hok'.
  rewrite stepSelection_field in Hok'.
  destruct Hstep as [m1' m2' Hm'|]; simpl.
  - apply mergedEntry_equiv; [apply Hm|by apply entryOK| |done].
    by apply inputRel_block.
  - apply IH; auto.
  - constructor.
Qed.

Lemma stepSelection_equiv s m1 m2 :
  mapEquiv m1 m2 → mapOK m1 →
  option_Forall2 mapEquiv
    (stepSelection doc rec1 m1 s) (stepSelection doc rec2 m2 s).
Proof.
  intros Hm Hok. destruct s as [a n i ss|tc ss|name].
  - rewrite !stepSelection_field. apply updateKey_equiv; [done|].
    apply mergedEntry_equiv; [apply Hm|by apply entryOK| |done].
    apply inputRel_refl.
  - simpl. pose proof (Hflat1 ss) as Hfl.
    destruct (Hrel ss ss (inputRel_refl _)) as [r1 r2 Hr|]; simpl.
    + apply foldFragment_equiv; auto.
    + constructor.
  - simpl. destruct (findFragmentDefinition doc name) as [fd|]; [|by constructor].
    pose proof (Hflat1 (FragSelections fd)) as Hfl.
    destruct (Hrel _ _ (inputRel_refl (FragSelections fd))) as [r1 r2 Hr|]; simpl.
    + apply foldFragment_equiv; auto.
    + constructor.
Qed.

Lemma foldInput_equiv l l' m1 m2 :
  inputRel l l' → mapEquiv m1 m2 → mapOK m1 →
  option_Forall2 mapEquiv
    (foldlM (stepSelection doc rec1) m1 l)
    (foldlM (stepSelection doc rec2) m2 l').
Proof.
  intros Hin. revert m1 m2.
  induction Hin as [|s l l' _ IH|c c' l l' Hc Hcc _ IH]; intros m1 m2 Hm Hok.
  - simpl. by constructor.
  - simpl. pose proof (stepSelection_ok doc rec1 Hflat1 m1 s) as Hok'.
    destruct (stepSelection_equiv s m1 m2 Hm Hok) as [m1' m2' Hm'|]; simpl.
    + apply IH; auto.
    + constructor.
  - rewrite !foldlM_app.
    pose proof (foldSelections_ok doc rec1 Hflat1 m1 c) as Hok'.
    destruct (foldFields_equiv c c' m1 m2 Hcc Hc Hm Hok) as [m1' m2' Hm'|]; simpl.
    + apply IH; auto.
    + constructor.
Qed.
End Simulation.

Theorem flattenSelectionSet_sim order1 order2 doc fuel :
  recRel (flattenSelectionSet order1 doc fuel) (flattenSelectionSet order2 doc fuel).
Proof.
  induction fuel as [|fuel IH]; intros l l' Hin; [constructor|].
  cbn [flattenSelectionSet].
  destruct (foldInput_equiv doc _ _ (flattenSelectionSet_flat order1 doc fuel) IH
              l l' ∅ ∅ Hin mapEquiv_empty mapOK_empty) as [m1 m2 Hm|]; simpl;
    constructor.
  by apply mapValues_equiv.
Qed.

(** ** Termination within the depth of the input *)

Lemma fits_app doc n l1 l2 :
  fits doc n (l1 ++ l2) = fits doc n l1 && fits doc n l2.
Proof. apply forallb_app. Qed.

Lemma fits_Forall doc n ss :
  fits doc n ss = true ↔ Forall (λ s, fitsSel doc n s = true) ss.
Proof.
  unfold fits. rewrite forallb_forall, Forall_forall. done.
Qed.

Lemma fitsSel_S doc n s : fitsSel doc n s = true → fitsSel doc (S n) s = true.
Proof.
  revert s. induction n as [|n IH]; intros s.
  - destruct s as [| |name]; simpl; try done.
    by destruct (findFragmentDefinition doc name).
  - assert (∀ l, forallb (fitsSel doc n) l = true →
                 forallb (fitsSel doc (S n)) l = true) as Hall.
    { intros l. rewrite !forallb_forall. auto. }
    destruct s as [a m i cs|tc cs|name].
    + intros H. apply (Hall cs H).
    + intros H. apply (Hall cs H).
    + intros H. cbn [fitsSel] in *.
      destruct (findFragmentDefinition doc name) as [fd|]; [|done].
      apply (Hall _ H).
Qed.

Lemma fitsSel_le doc n n' s :
  n ≤ n' → fitsSel doc n s = true → fitsSel doc n' s = true.
Proof. induction 1; auto using fitsSel_S. Qed.

Lemma fits_le doc n n' ss : n ≤ n' → fits doc n ss = true → fits doc n' ss = true.
Proof.
  intros Hle. rewrite !fits_Forall. apply Forall_impl.
  intros s. by apply fitsSel_le.
Qed.

Section Termination.
Variable order : MapOrder.
Variable doc : QueryDocument.
Variable n : nat.
Variable rec : SelectionSet → option SelectionSet.
Hypothesis Hrec : recTotal doc n rec.

Lemma mergedEntry_total a nm i ss (b : bool) (old : option Field) :
  (∀ e, old = Some e → fits doc n (Selections e) = true) →
  fits doc n ss = true →
  ∃ v, mergedEntry rec a nm i ss b old = Some v ∧
       fits doc n (Selections v) = true.
Proof.
  intros Hold Hss. destruct old as [e|]; simpl.
  - destruct (Hrec (Selections e ++ ss)) as (r & -> & Hr).
    { rewrite fits_app, Hss, (Hold e) by done. done. }
    simpl. eauto.
  - destruct b; [|by eauto].
    destruct (Hrec ss Hss) as (r & -> & Hr). simpl. eauto.
Qed.

Lemma updateKey_total k g (m : gmap string Field) :
  mapFits doc n m →
  (∃ v, g (m !! k) = Some v ∧ fits doc n (Selections v) = true) →
  ∃ m', updateKey k g m = Some m' ∧ mapFits doc n m'.
Proof.
  intros Hm (v & Hv & Hfit). unfold updateKey. rewrite Hv. simpl.
  eexists. split; [done|]. by apply map_Forall_insert_2.
Qed.

Lemma foldFragment_total r m :
  mapFits doc n m → fits doc n r = true →
  ∃ m', foldlM (foldFragmentField rec) m r = Some m' ∧ mapFits doc n m'.
Proof.
  revert m. induction r as [|s r IH]; intros m Hm Hr; simpl; [by eauto|].
  apply andb_true_iff in Hr as [Hs Hr].
  assert (∃ m1, foldFragmentField rec m s = Some m1 ∧ mapFits doc n m1)
    as (m1 & -> & Hm1); [|simpl; by apply IH].
  destruct s as [a nm i cs| |]; [|simpl; by eauto..].
  rewrite foldFragmentField_field. apply updateKey_total; [done|].
  apply mergedEntry_total.
  - intros e He. apply (Hm _ _ He).
  - apply (fitsSel_S doc n (FieldSel a nm i cs)) in Hs. apply Hs.
Qed.

Lemma stepSelection_total s m :
  mapFits doc n m → fitsSel doc (S n) s = true →
  ∃ m', stepSelection doc rec m s = Some m' ∧ mapFits doc n m'.
Proof.
  intros Hm Hs. destruct s as [a nm i cs|tc cs|name].
  - rewrite stepSelection_field. apply updateKey_total; [done|].
    apply mergedEntry_total; [|apply Hs].
    intros e He. apply (Hm _ _ He).
  - simpl. destruct (Hrec cs Hs) as (r & -> & Hr). simpl.
    by apply foldFragment_total.
  - cbn [fitsSel] in Hs. simpl.
    destruct (findFragmentDefinition doc name) as [fd|]; [|by eauto].
    destruct (Hrec _ Hs) as (r & -> & Hr). simpl.
    by apply foldFragment_total.
Qed.

Lemma foldSelections_total l m :
  mapFits doc n m → fits doc (S n) l = true →
  ∃ m', foldlM (stepSelection doc rec) m l = Some m' ∧ mapFits doc n m'.
Proof.
  revert m. induction l as [|s l IH]; intros m Hm Hl; simpl; [by eauto|].
  apply andb_true_iff in Hl as [Hs Hl].
  destruct (stepSelection_total s m Hm Hs) as (m1 & -> & Hm1). simpl.
  by apply IH.
Qed.

Lemma mapValues_fits m : mapFits doc n m → fits doc (S n) (mapValues order m) = true.
Proof.
  intros Hm. apply fits_Forall. rewrite Forall_forall.
  intros x Hin%list_elem_of_In.
  apply mapValues_elem_of in Hin as (k & f & Hf & ->). apply (Hm _ _ Hf).
Qed.
End Termination.

Lemma mapValues_empty order : mapValues order ∅ = [].
Proof. unfold mapValues. by rewrite rangeValues_empty. Qed.

Lemma mapValues_singleton order k f : mapValues order {[k := f]} = [ofField f].
Proof. unfold mapValues. by rewrite rangeValues_singleton. Qed.

(** With one unit of fuel above the number of levels, the run returns. *)
Lemma flattenSelectionSet_total order doc n :
  recTotal doc n (flattenSelectionSet order doc (S n)).
Proof.
  induction n as [|n IH]; intros l Hl.
  - exists []. split; [|done].
    change (flattenSelectionSet order doc 1 l) with
      (m ← foldlM (stepSelection doc (flattenSelectionSet order doc 0)) ∅ l;
       Some (mapValues order m)).
    assert (foldlM (stepSelection doc (flattenSelectionSet order doc 0)) ∅ l
            = Some ∅) as ->; [|simpl; by rewrite mapValues_empty].
    generalize (∅ : gmap string Field).
    induction l as [|s l IHl]; intros m; simpl; [done|].
    apply andb_true_iff in Hl as [Hs Hl].
    destruct s as [| |name]; simpl in Hs; try done.
    simpl. destruct (findFragmentDefinition doc name); [done|]. simpl. auto.
  - change (flattenSelectionSet order doc (S (S n)) l) with
      (m ← foldlM (stepSelection doc (flattenSelectionSet order doc (S n))) ∅ l;
       Some (mapValues order m)).
    destruct (foldSelections_total doc n _ IH l ∅) as (m & -> & Hm).
    + apply map_Forall_empty.
    + done.
    + simpl. eexists. split; [done|]. by apply mapValues_fits.
Qed.

(** ** Acyclic documents have a depth *)

Lemma findFragment_Some frags name fd :
  findFragment frags name = Some fd → FragName fd = name ∧ fd ∈ frags.
Proof.
  induction frags as [|f frags IH]; simpl; [done|].
  case_decide.
  - intros [= ->]. split; [done|left].
  - intros [? ?]%IH. split; [done|by right].
Qed.

Lemma fitsSel_common doc (cs : SelectionSet) :
  Forall (λ c, ∃ n, fitsSel doc n c = true) cs →
  ∃ n, forallb (fitsSel doc n) cs = true.
Proof.
  induction 1 as [|c cs [n Hn] _ [n' Hn']]; [by exists 0|].
  exists (n `max` n'). simpl. apply andb_true_iff. split.
  - eapply fitsSel_le; [|exact Hn]. lia.
  - eapply (fits_le _ n'); [lia|exact Hn'].
Qed.

Section Acyclic.
Variable doc : QueryDocument.
Hypothesis Hacyclic : Acyclic doc.

Lemma resolved_name a fd :
  findFragmentDefinition doc a = Some fd → a ∈ fragmentNames doc.
Proof.
  intros [<- Hin]%findFragment_Some. by apply list_elem_of_fmap_2.
Qed.

(** [path] is the chain of fragments being expanded; every spread of the
    selection at hand is reached from each of them. *)
Lemma fitsSel_on_path k :
  ∀ path, NoDup path → (∀ p, p ∈ path → p ∈ fragmentNames doc) →
          k = length (fragmentNames doc) - length path →
  ∀ s, (∀ b, b ∈ spreadNames s → ∀ p, p ∈ path → tc (references doc) p b) →
       ∃ n, fitsSel doc n s = true.
Proof.
  induction k as [k IHk] using lt_wf_ind.
  intros path Hnd Hsub Hk s.
  induction s as [a nm i cs IH|tc cs IH|b] using Selection_nested_ind;
    intros Hreach.
  - destruct (fitsSel_common doc cs) as [n Hn]; [|by exists (S n)].
    rewrite Forall_forall in IH |- *. intros c Hc. apply IH; [done|].
    intros b Hb. apply Hreach. simpl. apply list_elem_of_In, in_flat_map.
    exists c. split; [done|by apply list_elem_of_In].
  - destruct (fitsSel_common doc cs) as [n Hn]; [|by exists (S n)].
    rewrite Forall_forall in IH |- *. intros c Hc. apply IH; [done|].
    intros b Hb. apply Hreach. simpl. apply list_elem_of_In, in_flat_map.
    exists c. split; [done|by apply list_elem_of_In].
  - destruct (findFragmentDefinition doc b) as [fd|] eqn:Efd.
    2:{ exists 0. simpl. by rewrite Efd. }
    assert (b ∉ path) as Hfresh.
    { intros Hin. apply (Hacyclic b). apply Hreach; [left|done]. }
    assert (NoDup (b :: path)) as Hnd' by by constructor.
    assert (∀ p, p ∈ b :: path → p ∈ fragmentNames doc) as Hsub'.
    { intros p [->|Hp]%elem_of_cons; [by eapply resolved_name|auto]. }
    assert (length (b :: path) ≤ length (fragmentNames doc)) as Hlen.
    { apply submseteq_length, NoDup_submseteq; auto. }
    simpl in Hlen.
    destruct (fitsSel_common doc (FragSelections fd)) as [n Hn].
    2:{ exists (S n). simpl. by rewrite Efd. }
    rewrite Forall_forall. intros c Hc%list_elem_of_In.
    apply (IHk (length (fragmentNames doc) - length (b :: path)))
      with (path := b :: path);
      [simpl; lia|done|done|done|].
    intros x Hx p Hp.
    assert (references doc b x) as Hbx.
    { exists fd. split; [done|]. apply list_elem_of_In, in_flat_map.
      exists c. split; by apply list_elem_of_In. }
    apply elem_of_cons in Hp as [->|Hp]; [by apply tc_once|].
    eapply tc_r; [|exact Hbx]. apply Hreach; [left|done].
Qed.

Lemma acyclic_fits ss : ∃ n, fits doc n ss = true.
Proof.
  apply fitsSel_common, Forall_forall. intros s _.
  apply (fitsSel_on_path _ [] (NoDup_nil_2) ltac:(by intros ? ?%elem_of_nil) eq_refl).
  by intros ? _ ? ?%elem_of_nil.
Qed.
End Acyclic.

Lemma fieldsOnlySel_fits doc s : fieldsOnlySel s = true → ∃ n, fitsSel doc n s = true.
Proof.
  induction s as [a nm i cs IH| |] using Selection_nested_ind; simpl; try done.
  intros Hall. destruct (fitsSel_common doc cs) as [n Hn]; [|by exists (S n)].
  rewrite Forall_forall in IH |- *. intros c Hc. apply IH; [done|].
  rewrite forallb_forall in Hall. auto.
Qed.

Lemma fieldsOnly_fits doc ss : fieldsOnly ss = true → ∃ n, fits doc n ss = true.
Proof.
  intros Hall. apply fitsSel_common, Forall_forall. intros s Hs.
  apply fieldsOnlySel_fits. unfold fieldsOnly in Hall.
  rewrite forallb_forall in Hall. auto.
Qed.

(** ** Idempotence *)

Lemma Permutation_setEquiv l l' : l ≡ₚ l' → fieldsOnly l' = true → l ≈ l'.
Proof.
  intros Hp Hall. exists l'. split; [done|].
  unfold fieldsOnly in Hall. rewrite forallb_forall in Hall.
  apply Forall2_same_length_lookup_2; [done|].
  intros i x y Hx Hy. simplify_eq. apply selEquiv_refl, Hall.
  by eapply list_elem_of_In, list_elem_of_lookup_2.
Qed.

Lemma ofField_fieldOf s : isField s = true → ofField (fieldOf s) = s.
Proof. by destruct s. Qed.

Lemma insertAll_to_list ss m :
  Forall (λ s, isField s = true) ss → NoDup (selKey <$> ss) →
  (∀ s, s ∈ ss → m !! selKey s = None) →
  map_to_list (insertAll m ss) ≡ₚ ((λ s, (selKey s, fieldOf s)) <$> ss) ++ map_to_list m.
Proof.
  revert m. induction ss as [|s ss IH]; intros m Hall Hnd Hfresh; [done|].
  inversion Hall as [|?? Hs Hall']; subst.
  rewrite fmap_cons in Hnd. inversion Hnd as [|?? Hk Hnd']; subst.
  destruct s as [a n i cs| |]; try done. simpl.
  unfold insertAll in IH. rewrite IH; try done.
  - rewrite map_to_list_insert by (apply (Hfresh (FieldSel a n i cs)); left).
    by rewrite Permutation_middle.
  - intros s' Hs'. rewrite lookup_insert_ne; [apply Hfresh; by right|].
    intros E. apply Hk. simpl. rewrite E. by apply list_elem_of_fmap_2.
Qed.

Lemma mapValues_insertAll order ss :
  flatSet ss = true → mapValues order (insertAll ∅ ss) ≡ₚ ss.
Proof.
  intros [Hall Hnd]%flatSet_spec.
  assert (Forall (λ s, isField s = true) ss) as Hf.
  { eapply Forall_impl; [|exact Hall]. by intros []. }
  rewrite mapValues_perm, insertAll_to_list; try done.
  rewrite map_to_list_empty, app_nil_r, <- list_fmap_compose.
  rewrite <- (list_fmap_id ss) at 2.
  apply reflexive_eq, Forall_fmap_ext_1.
  eapply Forall_impl; [|exact Hf]. intros s Hs. by apply ofField_fieldOf.
Qed.

Lemma foldSelections_fresh doc rec ss :
  recIdem rec →
  ∀ m m0 m', Forall (λ s, flatSel s = true) ss → NoDup (selKey <$> ss) →
    (∀ s, s ∈ ss → m !! selKey s = None) → mapEquiv m m0 →
    foldlM (stepSelection doc rec) m ss = Some m' →
    mapEquiv m' (insertAll m0 ss).
Proof.
  intros Hidem. induction ss as [|s ss IH]; intros m m0 m' Hall Hnd Hfresh Hm.
  { simpl. by intros [= <-]. }
  inversion Hall as [|?? Hs Hall']; subst.
  rewrite fmap_cons in Hnd. inversion Hnd as [|?? Hk Hnd']; subst.
  destruct s as [a n i cs| |]; try done.
  pose proof (Hfresh (FieldSel a n i cs) ltac:(left)) as Hnew.
  simpl in Hnew |- *. rewrite Hnew.
  destruct (rec cs) as [r|] eqn:Er; simpl; [|done].
  apply IH; try done.
  - intros s' Hs'. rewrite lookup_insert_ne; [apply Hfresh; by right|].
    intros E. apply Hk. simpl. rewrite E. by apply list_elem_of_fmap_2.
  - apply mapEquiv_insert; [done|]. repeat split. simpl. by apply Hidem.
Qed.

Lemma flattenSelectionSet_idem order doc fuel :
  recIdem (flattenSelectionSet order doc fuel).
Proof.
  induction fuel as [|fuel IH]; intros ss r Hflat H; [done|].
  cbn [flattenSelectionSet] in H.
  destruct (foldlM _ ∅ ss) as [m|] eqn:E; simpl in H; [|done].
  injection H as <-.
  pose proof Hflat as [Hall Hnd]%flatSet_spec.
  eapply setEquiv_trans.
  - apply (mapValues_equiv order order m (insertAll ∅ ss)).
    eapply foldSelections_fresh; eauto using mapEquiv_empty.
    intros. apply lookup_empty.
  - apply Permutation_setEquiv; [by apply mapValues_insertAll|].
    by apply flatSet_fieldsOnly.
Qed.

(** A flat selection set is flattened to itself, up to order. *)
Lemma flatten_flat order doc ss :
  flatSet ss = true →
  ∃ fuel r, flattenSelectionSet order doc fuel ss = Some r ∧ r ≈ ss.
Proof.
  intros Hflat.
  destruct (fieldsOnly_fits doc ss (flatSet_fieldsOnly _ Hflat)) as [n Hn].
  destruct (flattenSelectionSet_total order doc n ss Hn) as (r & Hr & _).
  exists (S n), r. split; [done|]. by eapply flattenSelectionSet_idem.
Qed.

(** ** Fragments are transparent *)

Lemma stepSelection_fragment doc rec m s contents :
  fragmentContents doc s = Some contents →
  stepSelection doc rec m s =
  c ← rec contents; foldlM (foldFragmentField rec) m c.
Proof.
  destruct s as [| |name]; simpl; [done|by intros [= ->]|].
  destruct (findFragmentDefinition doc name); [|done]. by intros [= <-].
Qed.

Lemma fits_children doc n s :
  isField s = true → fitsSel doc n s = true → fits doc n (children s) = true.
Proof.
  destruct s as [a nm i cs| |]; try done. intros _ H.
  apply (fitsSel_S doc n (FieldSel a nm i cs)) in H. apply H.
Qed.

Section Inlined.
Variable doc : QueryDocument.
Variables rec1 rec2 : SelectionSet → option SelectionSet.
Hypothesis Hflat1 : recFlat rec1.
Hypothesis Hrel : recRel rec1 rec2.

(** Folding a flattened fragment into the map (left) against visiting
    its fields as selections of the current level (right). *)
Lemma inlined_fold_equiv c1 c2 m1 m2 :
  c1 ≈ c2 → flatSet c1 = true →
  Forall (λ s, ∃ y, rec2 (children s) = Some y ∧ y ≈ children s) c2 →
  mapEquiv m1 m2 → mapOK m1 →
  option_Forall2 mapEquiv
    (foldlM (foldFragmentField rec1) m1 c1)
    (foldlM (stepSelection doc rec2) m2 c2).
Proof.
  intros (mid & Hp & HF) Hflat Hret.
  rewrite (foldFragment_perm rec1 c1 mid) by done.
  assert (Forall (λ s, flatSel s = true) mid) as Hmid.
  { rewrite <- Hp. by apply flatSet_spec in Hflat as [? _]. }
  clear Hp Hflat c1. revert m1 m2.
  induction HF as [|x y l l' Hxy _ IH]; intros m1 m2 Hm Hok; simpl.
  { by constructor. }
  inversion Hmid as [|?? Hx Hl]; subst.
  inversion Hret as [|?? (r & Hr & Hry) Hret']; subst.
  destruct Hxy as [a n i ss ss' mid0 Hp0 HF0].
  assert (ss ≈ ss') as Hss by by exists mid0.
  rewrite foldFragmentField_field, stepSelection_field.
  pose proof (foldFragmentField_ok rec1 Hflat1 m1 (FieldSel a n i ss)) as Hok'.
  rewrite foldFragmentField_field in Hok'.
  assert (option_Forall2 mapEquiv
    (updateKey (fieldKey a n) (mergedEntry rec1 a n i ss false) m1)
    (updateKey (fieldKey a n) (mergedEntry rec2 a n i ss' true) m2)) as Hstep.
  { apply updateKey_equiv; [done|].
    pose proof (Hm (fieldKey a n)) as Hk.
    destruct (m1 !! fieldKey a n) as [e1|] eqn:E1;
      destruct (m2 !! fieldKey a n) as [e2|] eqn:E2;
      inversion Hk as [? ? (Ha & Hn & Hi & He)|]; subst; simpl.
    - assert (inputRel (Selections e1 ++ ss) (Selections e2 ++ ss')) as Hrun.
      { apply inputRel_app; apply inputRel_block; auto.
        by eapply entryOK. }
      destruct (Hrel _ _ Hrun) as [r1 r2 Hr12|]; simpl; constructor.
      by repeat split.
    - simpl in Hr. rewrite Hr. simpl. constructor. repeat split. simpl.
      eapply setEquiv_trans; [exact Hss|by apply setEquiv_sym]. }
  destruct Hstep as [m1' m2' Hm'|]; simpl; [|constructor].
  apply IH; auto.
Qed.
End Inlined.

Lemma flat_children_return order doc c :
  flatSet c = true →
  ∃ n, ∀ fuel, n ≤ fuel →
    Forall (λ s, ∃ y, flattenSelectionSet order doc fuel (children s) = Some y ∧
                      y ≈ children s) c.
Proof.
  intros Hflat.
  destruct (fieldsOnly_fits doc c (flatSet_fieldsOnly _ Hflat)) as [n Hn].
  exists (S n). intros fuel Hle.
  apply flatSet_spec in Hflat as [Hall _].
  apply fits_Forall in Hn. rewrite Forall_forall in Hall, Hn |- *.
  intros s Hs. specialize (Hall s Hs). specialize (Hn s Hs).
  assert (isField s = true) as Hfield by by destruct s.
  destruct (flattenSelectionSet_total order doc n (children s)) as (y & Hy & _).
  { by apply fits_children. }
  exists y. split.
  - by eapply flattenSelectionSet_mono.
  - eapply flattenSelectionSet_idem; [|exact Hy]. by destruct s.
Qed.

Lemma option_Forall2_bind {A B} (R : A → A → Prop) (Q : B → B → Prop)
    (x y : option A) (f g : A → option B) :
  option_Forall2 R x y →
  (∀ a b, R a b → option_Forall2 Q (f a) (g b)) →
  option_Forall2 Q (x ≫= f) (y ≫= g).
Proof. intros [a b Hab|] Hfg; simpl; [auto|constructor]. Qed.

Lemma option_Forall2_Some_l {A} (R : A → A → Prop) (a : A) (y : option A) :
  option_Forall2 R (Some a) y → ∃ b, y = Some b ∧ R a b.
Proof. inversion 1; eauto. Qed.

Lemma option_Forall2_Some_r {A} (R : A → A → Prop) (x : option A) (b : A) :
  option_Forall2 R x (Some b) → ∃ a, x = Some a ∧ R a b.
Proof. inversion 1; eauto. Qed.

Lemma option_Forall2_and {A} (R : A → A → Prop) (P : A → Prop) (x y : option A) :
  option_Forall2 R x y → (∀ a, x = Some a → P a) →
  option_Forall2 (λ a b, R a b ∧ P a) x y.
Proof. intros [a b Hab|] HP; constructor; auto. Qed.

(** From some amount of fuel on, the run on the original selection set and
    the run on the set with the fragment replaced return equivalent
    results, or both do not return. *)
Lemma transparency_fuel order0 order1 order2 doc pre frag post contents c fuel0 :
  fragmentContents doc frag = Some contents →
  flattenSelectionSet order0 doc fuel0 contents = Some c →
  ∃ N, ∀ fuel, N ≤ fuel →
    option_Forall2 setEquiv
      (flattenSelectionSet order1 doc (S fuel) (pre ++ frag :: post))
      (flattenSelectionSet order2 doc (S fuel) (pre ++ c ++ post)).
Proof.
  intros Hfrag Hc.
  pose proof (flattenSelectionSet_flat _ _ _ _ _ Hc) as Hcflat.
  destruct (flat_children_return order2 doc c Hcflat) as [n Hn].
  exists (fuel0 `max` n). intros fuel Hle.
  cbn [flattenSelectionSet].
  pose proof (flattenSelectionSet_flat order1 doc fuel) as Hflat1.
  pose proof (flattenSelectionSet_sim order1 order2 doc fuel) as Hrel.
  apply option_Forall2_bind with (R := mapEquiv);
    [|intros; constructor; by apply mapValues_equiv].
  rewrite !foldlM_app.
  apply option_Forall2_bind with (R := λ m1 m2, mapEquiv m1 m2 ∧ mapOK m1).
  { apply option_Forall2_and.
    - apply foldInput_equiv; auto using inputRel_refl, mapEquiv_empty, mapOK_empty.
    - intros m1. apply foldSelections_ok; auto using mapOK_empty. }
  intros m1 m2 [Hm Hok]. rewrite foldlM_app. cbn [foldlM].
  rewrite (stepSelection_fragment _ _ _ _ _ Hfrag).
  assert (flattenSelectionSet order0 doc fuel contents = Some c) as Hc'.
  { eapply flattenSelectionSet_mono; [|exact Hc]. lia. }
  pose proof (flattenSelectionSet_sim order0 order1 doc fuel contents contents
                (inputRel_refl _)) as Hc1.
  rewrite Hc' in Hc1. inversion Hc1 as [? c1 Hcc1 E1 E2|]; subst. simpl.
  assert (flatSet c1 = true) as Hc1flat by (eapply Hflat1; eauto).
  apply option_Forall2_bind with (R := λ m1 m2, mapEquiv m1 m2 ∧ mapOK m1).
  { apply option_Forall2_and.
    - apply inlined_fold_equiv; auto.
      + by apply setEquiv_sym.
      + apply Hn. lia.
    - intros m1'. by apply foldFragment_ok. }
  intros m1' m2' [Hm' Hok']. apply foldInput_equiv; auto using inputRel_refl.
Qed.

(** ** Type conditions *)

Lemma eraseConditions_fieldsOnly s : fieldsOnlySel s = true → eraseConditions s = s.
Proof.
  induction s as [a n i cs IH| |] using Selection_nested_ind; simpl; try done.
  intros Hall. f_equal. rewrite forallb_forall in Hall.
  rewrite Forall_forall in IH. rewrite <- (map_id cs) at 2.
  apply map_ext_in. intros c Hc. auto.
Qed.

Lemma eraseSet_flat ss : flatSet ss = true → eraseSet ss = ss.
Proof.
  intros H%flatSet_fieldsOnly. unfold fieldsOnly in H.
  rewrite forallb_forall in H. unfold eraseSet.
  rewrite <- (map_id ss) at 2. apply map_ext_in.
  intros c Hc. by apply eraseConditions_fieldsOnly, H.
Qed.

Lemma eraseSet_app l1 l2 : eraseSet (l1 ++ l2) = eraseSet l1 ++ eraseSet l2.
Proof. apply map_app. Qed.

Lemma findFragment_erase frags name :
  findFragment (map eraseFragment frags) name =
  eraseFragment <$> findFragment frags name.
Proof.
  induction frags as [|fd frags IH]; simpl; [done|].
  by case_decide.
Qed.

Section Erase.
Variable doc : QueryDocument.
Variables rec rec' : SelectionSet → option SelectionSet.
Hypothesis Hflat : recFlat rec.
Hypothesis Hrec : ∀ l, rec l = rec' (eraseSet l).

Lemma rec_erase_merge (e : Field) cs :
  flatSet (Selections e) = true →
  rec (Selections e ++ cs) = rec' (Selections e ++ eraseSet cs).
Proof.
  intros He. by rewrite Hrec, eraseSet_app, (eraseSet_flat _ He).
Qed.

Lemma foldFragmentField_erase m s :
  mapOK m → flatSel s = true →
  foldFragmentField rec m s = foldFragmentField rec' m s.
Proof.
  intros Hm Hs. destruct s as [a n i cs| |]; try done. simpl.
  destruct (m !! fieldKey a n) as [e|] eqn:E; [|done].
  rewrite rec_erase_merge by (by destruct (Hm _ _ E)).
  by rewrite (eraseSet_flat cs).
Qed.

Lemma foldFragment_erase r m :
  mapOK m → Forall (λ s, flatSel s = true) r →
  foldlM (foldFragmentField rec) m r = foldlM (foldFragmentField rec') m r.
Proof.
  revert m. induction r as [|s r IH]; intros m Hm Hr; simpl; [done|].
  inversion Hr; subst. rewrite <- foldFragmentField_erase by done.
  destruct (foldFragmentField rec m s) as [m1|] eqn:E; simpl; [|done].
  apply IH; [|done]. by eapply foldFragmentField_ok.
Qed.

Lemma stepSelection_erase m s :
  mapOK m →
  stepSelection doc rec m s =
  stepSelection (eraseDocument doc) rec' m (eraseConditions s).
Proof.
  intros Hm. destruct s as [a n i cs|tc cs|name]; simpl.
  - destruct (m !! fieldKey a n) as [e|] eqn:E.
    + by rewrite rec_erase_merge by (by destruct (Hm _ _ E)).
    + by rewrite Hrec.
  - rewrite Hrec. fold (eraseSet cs).
    destruct (rec' (eraseSet cs)) as [r|] eqn:Er; simpl; [|done].
    apply foldFragment_erase; [done|].
    rewrite <- Hrec in Er. by apply Hflat, flatSet_spec in Er as [? _].
  - unfold findFragmentDefinition. simpl. rewrite findFragment_erase.
    destruct (findFragment (Fragments doc) name) as [fd|]; simpl; [|done].
    rewrite Hrec.
    destruct (rec' (eraseSet (FragSelections fd))) as [r|] eqn:Er; simpl; [|done].
    apply foldFragment_erase; [done|].
    rewrite <- Hrec in Er. by apply Hflat, flatSet_spec in Er as [? _].
Qed.

Lemma foldSelections_erase l m :
  mapOK m →
  foldlM (stepSelection doc rec) m l =
  foldlM (stepSelection (eraseDocument doc) rec') m (eraseSet l).
Proof.
  revert m. induction l as [|s l IH]; intros m Hm; simpl; [done|].
  rewrite <- stepSelection_erase by done.
  destruct (stepSelection doc rec m s) as [m1|] eqn:E; simpl; [|done].
  apply IH. by eapply stepSelection_ok.
Qed.
End Erase.

Lemma flattenSelectionSet_erase order doc fuel l :
  flattenSelectionSet order doc fuel l =
  flattenSelectionSet order (eraseDocument doc) fuel (eraseSet l).
Proof.
  revert l. induction fuel as [|fuel IH]; intros l; [done|].
  cbn [flattenSelectionSet].
  rewrite (foldSelections_erase doc _ (flattenSelectionSet order (eraseDocument doc) fuel));
    auto using flattenSelectionSet_flat, mapOK_empty.
Qed.

(** ** Spreads without definition *)

Lemma dropUnresolved_fieldsOnly doc s :
  fieldsOnlySel s = true → dropUnresolved doc s = [s].
Proof.
  induction s as [a n i cs IH| |] using Selection_nested_ind; simpl; try done.
  intros Hall. do 2 f_equal. rewrite forallb_forall in Hall.
  rewrite Forall_forall in IH.
  induction cs as [|c cs IHcs]; simpl; [done|].
  rewrite (IH c) by (by left + (apply Hall; by left)).
  simpl. f_equal. apply IHcs.
  - intros x Hx. apply IH. by right.
  - intros x Hx. apply Hall. by right.
Qed.

Lemma dropSet_flat doc ss : flatSet ss = true → dropSet doc ss = ss.
Proof.
  intros H%flatSet_fieldsOnly. unfold fieldsOnly in H.
  rewrite forallb_forall in H. unfold dropSet.
  induction ss as [|s ss IH]; simpl; [done|].
  rewrite (dropUnresolved_fieldsOnly doc s) by (apply H; by left).
  simpl. f_equal. apply IH. intros x Hx. apply H. by right.
Qed.

Lemma dropSet_app doc l1 l2 : dropSet doc (l1 ++ l2) = dropSet doc l1 ++ dropSet doc l2.
Proof. apply flat_map_app. Qed.

Lemma findFragment_drop doc frags name :
  findFragment (map (dropFragment doc) frags) name =
  dropFragment doc <$> findFragment frags name.
Proof.
  induction frags as [|fd frags IH]; simpl; [done|].
  by case_decide.
Qed.

Section Drop.
Variable doc : QueryDocument.
Variables rec rec' : SelectionSet → option SelectionSet.
Hypothesis Hflat : recFlat rec.
Hypothesis Hrec : ∀ l, rec l = rec' (dropSet doc l).

Lemma rec_drop_merge (e : Field) cs :
  flatSet (Selections e) = true →
  rec (Selections e ++ cs) = rec' (Selections e ++ dropSet doc cs).
Proof.
  intros He. by rewrite Hrec, dropSet_app, (dropSet_flat _ _ He).
Qed.

Lemma foldFragmentField_drop m s :
  mapOK m → flatSel s = true →
  foldFragmentField rec m s = foldFragmentField rec' m s.
Proof.
  intros Hm Hs. destruct s as [a n i cs| |]; try done. simpl.
  destruct (m !! fieldKey a n) as [e|] eqn:E; [|done].
  rewrite rec_drop_merge by (by destruct (Hm _ _ E)).
  by rewrite (dropSet_flat doc cs).
Qed.

Lemma foldFragment_drop r m :
  mapOK m → Forall (λ s, flatSel s = true) r →
  foldlM (foldFragmentField rec) m r = foldlM (foldFragmentField rec') m r.
Proof.
  revert m. induction r as [|s r IH]; intros m Hm Hr; simpl; [done|].
  inversion Hr; subst. rewrite <- foldFragmentField_drop by done.
  destruct (foldFragmentField rec m s) as [m1|] eqn:E; simpl; [|done].
  apply IH; [|done]. by eapply foldFragmentField_ok.
Qed.

Lemma stepSelection_drop m s :
  mapOK m →
  foldlM (stepSelection doc rec) m [s] =
  foldlM (stepSelection (dropDocument doc) rec') m (dropUnresolved doc s).
Proof.
  intros Hm. destruct s as [a n i cs|tc cs|name]; simpl.
  - fold (dropSet doc cs). destruct (m !! fieldKey a n) as [e|] eqn:E.
    + by rewrite rec_drop_merge by (by destruct (Hm _ _ E)).
    + by rewrite Hrec.
  - fold (dropSet doc cs). rewrite Hrec.
    destruct (rec' (dropSet doc cs)) as [r|] eqn:Er; simpl; [|done].
    rewrite <- foldFragment_drop; [by destruct (foldlM _ m r)|done|].
    rewrite <- Hrec in Er. by apply Hflat, flatSet_spec in Er as [? _].
  - destruct (findFragmentDefinition doc name) as [fd|] eqn:Efd; simpl; [|done].
    unfold findFragmentDefinition in *. simpl. rewrite findFragment_drop, Efd. simpl.
    rewrite Hrec.
    destruct (rec' (dropSet doc (FragSelections fd))) as [r|] eqn:Er; simpl; [|done].
    rewrite <- foldFragment_drop; [by destruct (foldlM _ m r)|done|].
    rewrite <- Hrec in Er. by apply Hflat, flatSet_spec in Er as [? _].
Qed.

Lemma foldSelections_drop l m :
  mapOK m →
  foldlM (stepSelection doc rec) m l =
  foldlM (stepSelection (dropDocument doc) rec') m (dropSet doc l).
Proof.
  revert m. induction l as [|s l IH]; intros m Hm; [done|].
  change (dropSet doc (s :: l)) with (dropUnresolved doc s ++ dropSet doc l).
  rewrite foldlM_app, <- stepSelection_drop by done. simpl.
  destruct (stepSelection doc rec m s) as [m1|] eqn:E; simpl; [|done].
  apply IH. by eapply stepSelection_ok.
Qed.
End Drop.

Lemma flattenSelectionSet_drop order doc fuel l :
  flattenSelectionSet order doc fuel l =
  flattenSelectionSet order (dropDocument doc) fuel (dropSet doc l).
Proof.
  revert l. induction fuel as [|fuel IH]; intros l; [done|].
  cbn [flattenSelectionSet].
  rewrite (foldSelections_drop doc _ (flattenSelectionSet order (dropDocument doc) fuel));
    auto using flattenSelectionSet_flat, mapOK_empty.
Qed.

(** ** Keys of the map, and absorption of a flattened prefix *)

Lemma updateKey_keys k g (m m' : gmap string Field) :
  updateKey k g m = Some m' →
  is_Some (m' !! k) ∧ ∀ j, is_Some (m !! j) → is_Some (m' !! j).
Proof.
  unfold updateKey. destruct (g (m !! k)) as [v|]; simpl; [|done].
  intros [= <-]. split.
  - rewrite lookup_insert_eq. eauto.
  - intros j Hj. destruct (decide (k = j)) as [->|Hne].
    + rewrite lookup_insert_eq. eauto.
    + by rewrite lookup_insert_ne.
Qed.

Lemma foldFragment_keys rec r : ∀ m m' j,
  foldlM (foldFragmentField rec) m r = Some m' →
  is_Some (m !! j) → is_Some (m' !! j).
Proof.
  induction r as [|s r IH]; intros m m' j; simpl.
  { by intros [= <-]. }
  destruct (foldFragmentField rec m s) as [m1|] eqn:E; simpl; [|done].
  intros Hfold Hj. apply (IH _ _ _ Hfold).
  destruct s as [a n i cs| |]; simpl in E; try by simplify_eq.
  change (foldFragmentField rec m (FieldSel a n i cs) = Some m1) in E.
  rewrite foldFragmentField_field in E.
  by apply updateKey_keys in E as [_ ?]; auto.
Qed.

Lemma stepSelection_keys doc rec m s m' j :
  stepSelection doc rec m s = Some m' →
  is_Some (m !! j) → is_Some (m' !! j).
Proof.
  destruct s as [a n i cs|tc cs|name].
  - rewrite stepSelection_field. intros [_ H]%updateKey_keys. auto.
  - simpl. destruct (rec cs); simpl; [|done]. apply foldFragment_keys.
  - simpl. destruct (findFragmentDefinition doc name); [|by intros [= <-]].
    destruct (rec _); simpl; [|done]. apply foldFragment_keys.
Qed.

Lemma foldSelections_keys doc rec l : ∀ m m',
  foldlM (stepSelection doc rec) m l = Some m' →
  (∀ j, is_Some (m !! j) → is_Some (m' !! j)) ∧
  (∀ s, s ∈ l → isField s = true → is_Some (m' !! selKey s)).
Proof.
  induction l as [|s l IH]; intros m m'; simpl.
  { intros [= <-]. split; [done|]. by intros ? ?%elem_of_nil. }
  destruct (stepSelection doc rec m s) as [m1|] eqn:E; simpl; [|done].
  intros [Hkeep Hnew]%IH. split.
  - intros j Hj. apply Hkeep. by eapply stepSelection_keys.
  - intros x Hx Hfield. apply elem_of_cons in Hx as [->|Hx]; [|by auto].
    apply Hkeep. destruct s as [a n i cs| |]; try done.
    rewrite stepSelection_field in E. by apply updateKey_keys in E as [? _].
Qed.

Lemma mapValues_elem order m k :
  mapOK m → is_Some (m !! k) → ∃ x, x ∈ mapValues order m ∧ selKey x = k.
Proof.
  intros Hm [f Hf]. exists (ofField f). split.
  - apply mapValues_elem_of. eauto.
  - by destruct (Hm _ _ Hf).
Qed.

Lemma foldFragment_fresh rec c : ∀ m,
  Forall (λ s, isField s = true) c → NoDup (selKey <$> c) →
  (∀ s, s ∈ c → m !! selKey s = None) →
  foldlM (foldFragmentField rec) m c = Some (insertAll m c).
Proof.
  induction c as [|s c IH]; intros m Hall Hnd Hfresh; [done|].
  inversion Hall as [|?? Hs Hall']; subst.
  rewrite fmap_cons in Hnd. inversion Hnd as [|?? Hk Hnd']; subst.
  destruct s as [a n i cs| |]; try done.
  pose proof (Hfresh (FieldSel a n i cs) ltac:(left)) as Hnew.
  simpl in Hnew |- *. rewrite Hnew. simpl. apply IH; try done.
  intros s' Hs'. rewrite lookup_insert_ne; [apply Hfresh; by right|].
  intros E. apply Hk. simpl. rewrite E. by apply list_elem_of_fmap_2.
Qed.

Lemma insertAll_mapValues order m : mapOK m → insertAll ∅ (mapValues order m) = m.
Proof.
  intros Hm. apply map_to_list_inj.
  pose proof (mapValues_flat order m Hm) as [Hall Hnd]%flatSet_spec.
  rewrite insertAll_to_list; try done.
  - rewrite map_to_list_empty, app_nil_r, mapValues_perm.
    rewrite <- list_fmap_compose.
    rewrite <- (list_fmap_id (map_to_list m)) at 2.
    apply reflexive_eq, Forall_fmap_ext_1, Forall_forall.
    intros [k f] Hin%list_elem_of_In.
    apply elem_of_map_to_list in Hin. destruct (Hm _ _ Hin) as [<- _].
    by destruct f.
  - eapply Forall_impl; [|exact Hall]. by intros [].
Qed.

Lemma mapEquiv_trans m1 m2 m3 : mapEquiv m1 m2 → mapEquiv m2 m3 → mapEquiv m1 m3.
Proof.
  intros H12 H23 k. specialize (H12 k). specialize (H23 k).
  destruct H12 as [f1 f2 (Ha & Hn & Hi & Hs)|]; inversion H23 as [? f3 (Ha' & Hn' & Hi' & Hs')|];
    subst; constructor.
  repeat split; try congruence. by eapply setEquiv_trans.
Qed.

(** The run on [c ++ B], where [c] is the flattened [A], against the run on
    [A ++ B]. *)
Lemma absorb_fuel order0 order1 order2 doc A B c fuel0 :
  flattenSelectionSet order0 doc fuel0 A = Some c →
  ∃ N, ∀ fuel, N ≤ fuel →
    option_Forall2 setEquiv
      (flattenSelectionSet order1 doc (S fuel) (c ++ B))
      (flattenSelectionSet order2 doc (S fuel) (A ++ B)).
Proof.
  intros Hc.
  pose proof (flattenSelectionSet_flat _ _ _ _ _ Hc) as Hcflat.
  destruct (flat_children_return order1 doc c Hcflat) as [n Hn].
  exists (fuel0 `max` n). intros fuel Hle.
  destruct fuel0 as [|fuel0]; [done|]. cbn [flattenSelectionSet] in Hc.
  destruct (foldlM _ ∅ A) as [mA|] eqn:EA; simpl in Hc; [|done].
  injection Hc as <-.
  assert (mapOK mA) as HokA.
  { eapply foldSelections_ok; eauto using flattenSelectionSet_flat, mapOK_empty. }
  cbn [flattenSelectionSet].
  pose proof (flattenSelectionSet_flat order1 doc fuel) as Hflat1.
  pose proof (flattenSelectionSet_flat order0 doc fuel) as Hflat0.
  apply option_Forall2_bind with (R := mapEquiv);
    [|intros; constructor; by apply mapValues_equiv].
  rewrite !foldlM_app.
  apply option_Forall2_bind with (R := λ m1 m2, mapEquiv m1 m2 ∧ mapOK m1).
  2:{ intros m1 m2 [Hm Hok]. apply foldInput_equiv;
        auto using inputRel_refl, flattenSelectionSet_sim. }
  (* the maps after [c] and after [A] *)
  assert (foldlM (stepSelection doc (flattenSelectionSet order0 doc fuel)) ∅ A
          = Some mA) as EA'.
  { eapply foldlM_mono; [|exact EA]. intros b x b'.
    apply stepSelection_mono, flattenSelectionSet_mono. lia. }
  pose proof (foldInput_equiv doc _ _ Hflat0
                (flattenSelectionSet_sim order0 order2 doc fuel)
                A A ∅ ∅ (inputRel_refl _) mapEquiv_empty mapOK_empty) as HA.
  rewrite EA' in HA. inversion HA as [? mA2 HmA E1 E2|]; subst.
  pose proof (inlined_fold_equiv doc _ _ Hflat1
                (flattenSelectionSet_sim order1 order1 doc fuel)
                (mapValues order0 mA) (mapValues order0 mA) ∅ ∅
                (setEquiv_flat_refl _ Hcflat) Hcflat (Hn fuel ltac:(lia))
                mapEquiv_empty mapOK_empty) as Hc.
  pose proof Hcflat as [Hall Hnd]%flatSet_spec.
  rewrite foldFragment_fresh, insertAll_mapValues in Hc; try done.
  2:{ eapply Forall_impl; [|exact Hall]. by intros []. }
  inversion Hc as [? m1 Hm1 E3 E4|]; subst. constructor. split.
  - eapply mapEquiv_trans; [|exact HmA].
    (* [m1] against [mA]: equivalence is symmetric on the entries *)
    intros k. specialize (Hm1 k).
    destruct Hm1 as [f1 f2 (Ha & Hn' & Hi & Hs)|]; constructor.
    repeat split; try done. by apply setEquiv_sym.
  - eapply foldSelections_ok; [exact Hflat1|apply mapOK_empty|]. by symmetry.
Qed.

Lemma Flattens_fuel order doc ss r fuel :
  Flattens order doc ss r → ∃ fuel', fuel ≤ fuel' ∧
    flattenSelectionSet order doc (S fuel') ss = Some r.
Proof.
  intros [f Hf]. exists (f `max` fuel). split; [lia|].
  eapply flattenSelectionSet_mono; [|exact Hf]. lia.
Qed.

(** ** The scorer *)

Lemma foldlM_totalCost {A} (g : A → option Z) (l : list A) (acc : Z) :
  foldlM (λ complexity s, c ← g s; Some (complexity + c)%Z) acc l =
  t ← totalCost g l; Some (acc + t)%Z.
Proof.
  revert acc. induction l as [|x l IH]; intros acc; simpl.
  - f_equal. lia.
  - destruct (g x) as [c|]; simpl; [|done]. rewrite IH.
    destruct (totalCost g l) as [t|]; simpl; [|done]. f_equal. lia.
Qed.

Lemma totalCost_perm {A} (g : A → option Z) l l' :
  l ≡ₚ l' → totalCost g l = totalCost g l'.
Proof.
  induction 1 as [|x l l' _ IH|x y l|l l' l'' _ IH1 _ IH2]; simpl.
  - done.
  - by rewrite IH.
  - destruct (g x) as [cx|], (g y) as [cy|]; simpl; try done.
    destruct (totalCost g l) as [t|]; simpl; [|done]. f_equal. lia.
  - congruence.
Qed.

Lemma totalCost_Forall2 {A} (g : A → option Z) l l' :
  Forall2 (λ x y, g x = g y) l l' → totalCost g l = totalCost g l'.
Proof. induction 1 as [|x y l l' Hxy _ IH]; simpl; [done|]. by rewrite Hxy, IH. Qed.

Lemma selectionSetComplexity_unfold doc fuel ss :
  selectionSetComplexity doc (S fuel) ss =
  foldlM (addComplexity doc (selectionSetComplexity doc fuel)) 0%Z ss.
Proof. done. Qed.

Lemma selectionComplexity_mono doc (rec rec' : SelectionSet → option Z) s c :
  (∀ l x, rec l = Some x → rec' l = Some x) →
  selectionComplexity doc rec s = Some c → selectionComplexity doc rec' s = Some c.
Proof.
  intros Hrec. destruct s as [a n i cs|tc cs|name]; simpl.
  - destruct (rec cs) as [cc|] eqn:E; simpl; [|done].
    by rewrite (Hrec _ _ E).
  - apply Hrec.
  - destruct (findFragmentDefinition doc name); simpl; [apply Hrec|done].
Qed.

Lemma selectionSetComplexity_S doc fuel ss c :
  selectionSetComplexity doc fuel ss = Some c →
  selectionSetComplexity doc (S fuel) ss = Some c.
Proof.
  revert ss c. induction fuel as [|fuel IH]; intros ss c H; [done|].
  rewrite selectionSetComplexity_unfold in H |- *.
  eapply foldlM_mono; [|exact H]. clear H. intros acc s acc'. unfold addComplexity.
  destruct (selectionComplexity doc (selectionSetComplexity doc fuel) s)
    as [c0|] eqn:E; [|done].
  by rewrite (selectionComplexity_mono _ _ _ _ _ IH E).
Qed.

Lemma selectionSetComplexity_mono doc fuel fuel' ss c :
  fuel ≤ fuel' → selectionSetComplexity doc fuel ss = Some c →
  selectionSetComplexity doc fuel' ss = Some c.
Proof. induction 1; auto using selectionSetComplexity_S. Qed.

(** The cost does not depend on the order of the selections. *)
Lemma selectionSetComplexity_equiv doc fuel ss ss' :
  ss ≈ ss' → selectionSetComplexity doc fuel ss = selectionSetComplexity doc fuel ss'.
Proof.
  revert ss ss'. induction fuel as [|fuel IH]; intros ss ss' (mid & Hp & HF); [done|].
  rewrite !selectionSetComplexity_unfold. unfold addComplexity.
  rewrite !foldlM_totalCost.
  rewrite (totalCost_perm _ _ _ Hp). f_equal.
  apply totalCost_Forall2. eapply Forall2_weaken; [exact HF|].
  intros x y Hxy. destruct Hxy as [a n i cs cs' mid0 Hp0 HF0]. simpl.
  rewrite (IH cs cs'); [done|]. by exists mid0.
Qed.

(** ** The children of a merged entry *)

Lemma contributions_app k l1 l2 :
  contributions k (l1 ++ l2) = contributions k l1 ++ contributions k l2.
Proof.
  induction l1 as [|[a n i cs| |] l1 IH]; simpl; try done.
  case_decide; [|done]. by rewrite IH, app_assoc.
Qed.

Lemma contributions_snoc k met a n i cs :
  contributions k (met ++ [FieldSel a n i cs]) =
  contributions k met ++ (if decide (fieldKey a n = k) then cs else []).
Proof. rewrite contributions_app. simpl. case_decide; by rewrite ?app_nil_r. Qed.

(** Flattening the children of an entry together with new selections gives
    what flattening the contributions to the entry together with them
    gives. *)
Lemma merged_absorb order doc fuel (O1 both1 E X merged : SelectionSet) :
  Flattens order doc O1 both1 → E ≈ both1 → flatSet E = true →
  flattenSelectionSet order doc fuel (E ++ X) = Some merged →
  ∃ both, Flattens order doc (O1 ++ X) both ∧ merged ≈ both.
Proof.
  intros [fuel1 H1] HE Hflat Hm.
  pose proof (flattenSelectionSet_sim order order doc fuel (E ++ X) (both1 ++ X)
                (inputRel_block_same _ _ _ Hflat HE)) as Hsim.
  rewrite Hm in Hsim. apply option_Forall2_Some_l in Hsim as (merged1 & Hm1 & Hmm1).
  destruct (absorb_fuel order order order doc O1 X both1 fuel1 H1) as [N HN].
  specialize (HN (N `max` fuel) ltac:(lia)).
  rewrite (flattenSelectionSet_mono _ _ fuel (S (N `max` fuel)) ltac:(lia) _ _ Hm1) in HN.
  apply option_Forall2_Some_l in HN as (both & Hboth & Hmb).
  exists both. split; [by eexists|]. by eapply setEquiv_trans.
Qed.

Lemma entriesMerge_new order doc m met a n i (X cs : SelectionSet) :
  entriesMerge order doc m met → m !! fieldKey a n = None →
  flatSet cs = true → (∃ both, Flattens order doc X both ∧ cs ≈ both) →
  entriesMerge order doc (<[fieldKey a n := mkField a n i cs]> m)
    (met ++ [FieldSel a n i X]).
Proof.
  intros (Hok & Hnone & Hsome) Ee Hflat Hboth. split_and!.
  - by apply mapOK_insert.
  - intros k Hk. apply lookup_insert_None in Hk as [Hk Hne].
    rewrite contributions_snoc, (Hnone k Hk). by case_decide.
  - intros k f Hk. rewrite contributions_snoc.
    destruct (decide (fieldKey a n = k)) as [<-|Hne].
    + rewrite lookup_insert_eq in Hk. injection Hk as <-. simpl.
      by rewrite (Hnone _ Ee).
    + rewrite lookup_insert_ne in Hk by done. rewrite app_nil_r. by apply Hsome.
Qed.

Section Merge.
Variable order : MapOrder.
Variable doc : QueryDocument.
Variable fuel : nat.
Let rec := flattenSelectionSet order doc fuel.

(** A field is met, in the selection set ([flattenNew]) or in a flattened
    fragment. *)
Lemma updateKey_merge m met a n i X (flattenNew : bool) m' :
  entriesMerge order doc m met →
  (flattenNew = false → flatSet X = true) →
  updateKey (fieldKey a n) (mergedEntry rec a n i X flattenNew) m = Some m' →
  entriesMerge order doc m' (met ++ [FieldSel a n i X]).
Proof.
  intros HI HX. pose proof HI as (Hok & Hnone & Hsome). unfold updateKey.
  destruct (m !! fieldKey a n) as [e|] eqn:Ee; cbn [mergedEntry].
  - destruct (rec (Selections e ++ X)) as [merged|] eqn:Em; simpl; [|done].
    intros [= <-]. destruct (Hok _ _ Ee) as [Hke Hfe].
    destruct (Hsome _ _ Ee) as (both1 & Hb1 & He1).
    split_and!.
    + apply mapOK_insert; [done|by destruct e|].
      by eapply (flattenSelectionSet_flat order doc fuel).
    + intros k Hk. apply lookup_insert_None in Hk as [Hk Hne].
      rewrite contributions_snoc, (Hnone k Hk). by case_decide.
    + intros k f Hk. rewrite contributions_snoc.
      destruct (decide (fieldKey a n = k)) as [<-|Hne].
      * rewrite lookup_insert_eq in Hk. injection Hk as <-. simpl.
        by eapply merged_absorb.
      * rewrite lookup_insert_ne in Hk by done. rewrite app_nil_r. by apply Hsome.
  - destruct flattenNew.
    + destruct (rec X) as [flattened|] eqn:Ef; simpl; [|done]. intros [= <-].
      pose proof (flattenSelectionSet_flat order doc fuel _ _ Ef) as Hflat.
      apply entriesMerge_new; [done..|]. exists flattened.
      split; [by eexists|by apply setEquiv_flat_refl].
    + simpl. intros [= <-]. specialize (HX eq_refl).
      destruct (flatten_flat order doc X HX) as (fuel' & r & Hr & HrX).
      apply entriesMerge_new; [done..|]. exists r.
      split; [by eexists|by apply setEquiv_sym].
Qed.

Lemma foldFragment_merge c : ∀ m met m',
  entriesMerge order doc m met → Forall (λ s, flatSel s = true) c →
  foldlM (foldFragmentField rec) m c = Some m' →
  entriesMerge order doc m' (met ++ c).
Proof.
  induction c as [|g c IH]; intros m met m' HI Hc; simpl.
  { intros [= <-]. by rewrite app_nil_r. }
  inversion Hc as [|?? Hg Hc']; subst. destruct g as [a n i X| |]; try done.
  rewrite foldFragmentField_field.
  destruct (updateKey _ _ m) as [m1|] eqn:E1; simpl; [|done]. intros Hm'.
  rewrite (cons_middle _ met c), app_assoc. eapply IH; [|done..].
  eapply updateKey_merge; [done| |exact E1]. intros _. by rewrite flatSel_field in Hg.
Qed.

Lemma foldSelections_merge ss : ∀ m met m',
  entriesMerge order doc m met →
  foldlM (stepSelection doc rec) m ss = Some m' →
  ∃ enc, encounteredSet doc rec ss = Some enc ∧
         entriesMerge order doc m' (met ++ enc).
Proof.
  induction ss as [|s ss IH]; intros m met m' HI; simpl.
  { intros [= <-]. exists []. by rewrite app_nil_r. }
  destruct (stepSelection doc rec m s) as [m1|] eqn:E1; simpl; [|done]. intros Hm'.
  assert (∃ e, encountered doc rec s = Some e ∧
               entriesMerge order doc m1 (met ++ e)) as (e & He & HI1).
  { destruct (fragmentContents doc s) as [contents|] eqn:Ec.
    - rewrite (stepSelection_fragment _ _ _ _ _ Ec) in E1.
      destruct (rec contents) as [c|] eqn:Er; simpl in E1; [|done].
      exists c. split.
      + destruct s; [by simpl in Ec|unfold encountered; by rewrite Ec..].
      + eapply foldFragment_merge; [done| |done].
        by apply (flattenSelectionSet_flat order doc fuel), flatSet_spec in Er as [? _].
    - destruct s as [a n i X|tc cs|name]; simpl in Ec; [|done|].
      + exists [FieldSel a n i X]. split; [done|].
        rewrite stepSelection_field in E1.
        by eapply (updateKey_merge _ _ _ _ _ _ true); [exact HI| |exact E1].
      + exists []. simpl in E1 |- *.
        destruct (findFragmentDefinition doc name); [done|].
        injection E1 as <-. by rewrite app_nil_r. }
  destruct (IH _ _ _ HI1 Hm') as (enc & Henc & HI').
  exists (e ++ enc). rewrite He, Henc. simpl. by rewrite app_assoc.
Qed.
End Merge.

Lemma entriesMerge_empty order doc : entriesMerge order doc ∅ [].
Proof.
  split_and!; [apply mapOK_empty|done|]. intros k f Hk. by rewrite lookup_empty in Hk.
Qed.

(** ** Inlining a fragment *)

Lemma foldSelections_fits0 doc rec l : ∀ m m',
  (∀ x, rec x = None) →
  foldlM (stepSelection doc rec) m l = Some m' → fits doc 0 l = true.
Proof.
  induction l as [|s l IH]; intros m m' Hrec; simpl; [done|].
  destruct (stepSelection doc rec m s) as [m1|] eqn:E1; simpl; [|done].
  intros Hl. rewrite (IH _ _ Hrec Hl), andb_true_r.
  destruct s as [a nm i cs|tc cs|name]; simpl in E1 |- *.
  - destruct (m !! fieldKey a nm); by rewrite Hrec in E1.
  - by rewrite Hrec in E1.
  - destruct (findFragmentDefinition doc name); [by rewrite Hrec in E1|done].
Qed.

Lemma foldSelections_fits doc n rec l : ∀ m m',
  (∀ x r, rec x = Some r → fits doc n x = true) →
  foldlM (stepSelection doc rec) m l = Some m' → fits doc (S n) l = true.
Proof.
  induction l as [|s l IH]; intros m m' Hrec; simpl; [done|].
  destruct (stepSelection doc rec m s) as [m1|] eqn:E1; simpl; [|done].
  intros Hl. rewrite (IH _ _ Hrec Hl), andb_true_r.
  destruct s as [a nm i cs|tc cs|name]; simpl in E1.
  - change (fitsSel doc (S n) (FieldSel a nm i cs)) with (fits doc n cs).
    destruct (m !! fieldKey a nm) as [e|].
    + destruct (rec (Selections e ++ cs)) as [x|] eqn:Ex; simpl in E1; [|done].
      apply Hrec in Ex. rewrite fits_app in Ex. by apply andb_true_iff in Ex as [_ ?].
    + destruct (rec cs) as [x|] eqn:Ex; simpl in E1; [|done]. by eapply Hrec.
  - change (fitsSel doc (S n) (InlineFragment tc cs)) with (fits doc n cs).
    destruct (rec cs) as [x|] eqn:Ex; simpl in E1; [|done]. by eapply Hrec.
  - cbn [fitsSel]. destruct (findFragmentDefinition doc name) as [fd|]; [|done].
    destruct (rec (FragSelections fd)) as [x|] eqn:Ex; simpl in E1; [|done].
    by eapply Hrec.
Qed.

(** A run that returns did so within its fuel: the input has fewer levels
    than the run had fuel. *)
Lemma returns_fits order doc n : ∀ l r,
  flattenSelectionSet order doc (S n) l = Some r → fits doc n l = true.
Proof.
  induction n as [|n IH]; intros l r.
  - change (flattenSelectionSet order doc 1 l) with
      (m ← foldlM (stepSelection doc (flattenSelectionSet order doc 0)) ∅ l;
       Some (mapValues order m)).
    destruct (foldlM _ ∅ l) as [m|] eqn:E; simpl; [|done]. intros _.
    by eapply foldSelections_fits0.
  - change (flattenSelectionSet order doc (S (S n)) l) with
      (m ← foldlM (stepSelection doc (flattenSelectionSet order doc (S n))) ∅ l;
       Some (mapValues order m)).
    destruct (foldlM _ ∅ l) as [m|] eqn:E; simpl; [|done]. intros _.
    by eapply foldSelections_fits.
Qed.

Lemma flattenSelectionSet_total_lt order doc n fuel :
  n < fuel → recTotal doc n (flattenSelectionSet order doc fuel).
Proof.
  intros Hlt l Hl. destruct (flattenSelectionSet_total order doc n l Hl) as (r & Hr & Hfit).
  exists r. split; [|done]. eapply flattenSelectionSet_mono; [|exact Hr]. lia.
Qed.

(** Above the number of levels of the input, the fuel does not matter. *)
Lemma flattenSelectionSet_fuel order doc n fuel fuel' l :
  fits doc n l = true → n < fuel → n < fuel' →
  flattenSelectionSet order doc fuel l = flattenSelectionSet order doc fuel' l.
Proof.
  intros Hl H1 H2.
  destruct (flattenSelectionSet_total order doc n l Hl) as (r & Hr & _).
  rewrite (flattenSelectionSet_mono order doc (S n) fuel ltac:(lia) _ _ Hr).
  by rewrite (flattenSelectionSet_mono order doc (S n) fuel' ltac:(lia) _ _ Hr).
Qed.

Lemma absorb_total order doc n fuel (A B c : SelectionSet) :
  n < fuel → fits doc n A = true → fits doc n B = true →
  flattenSelectionSet order doc fuel A = Some c →
  option_Forall2 setEquiv
    (flattenSelectionSet order doc fuel (c ++ B))
    (flattenSelectionSet order doc fuel (A ++ B)).
Proof.
  intros Hlt HA HB Hc.
  destruct (flattenSelectionSet_total_lt order doc n fuel Hlt A HA) as (c' & Hc' & Hfit).
  assert (c' = c) as -> by congruence.
  destruct (absorb_fuel order order order doc A B c fuel Hc) as [N HN].
  specialize (HN (N `max` fuel) ltac:(lia)).
  rewrite (flattenSelectionSet_fuel order doc n _ fuel (c ++ B)) in HN;
    [|by rewrite fits_app, Hfit, HB|lia|done].
  rewrite (flattenSelectionSet_fuel order doc n _ fuel (A ++ B)) in HN;
    [done|by rewrite fits_app, HA, HB|lia|done].
Qed.

(** The values of a map, with the entry of one key last. *)
Lemma mapValues_insert_last order m k v :
  mapValues order (<[k := v]> m) ≡ₚ mapValues order (delete k m) ++ [ofField v].
Proof.
  rewrite !mapValues_perm, <- insert_delete_eq.
  rewrite map_to_list_insert by apply lookup_delete_eq.
  rewrite fmap_cons. simpl. apply Permutation_cons_append.
Qed.


Lemma mapGood_empty doc n : mapGood doc n ∅.
Proof. split; [apply mapOK_empty|apply map_Forall_empty]. Qed.

Lemma mapGood_insert doc n m k f :
  mapGood doc n m → keyOf f = k → flatSet (Selections f) = true →
  fits doc n (Selections f) = true → mapGood doc n (<[k := f]> m).
Proof.
  intros [Hok Hfit] Hk Hflat Hf. split; [by apply mapOK_insert|].
  by apply map_Forall_insert_2.
Qed.

Lemma mapGood_delete doc n m k : mapGood doc n m → mapGood doc n (delete k m).
Proof.
  intros [Hok Hfit]. split; intros j f Hj; apply lookup_delete_Some in Hj as [_ Hj];
    [by apply (Hok j)|by apply (Hfit j f)].
Qed.

Lemma mapGood_values order doc n m :
  mapGood doc n m →
  flatSet (mapValues order m) = true ∧ fits doc (S n) (mapValues order m) = true.
Proof. intros [Hok Hfit]. split; [by apply mapValues_flat|by apply mapValues_fits]. Qed.

Section Commute.
Variable order : MapOrder.
Variable doc : QueryDocument.
Variable n : nat.
Variable rec : SelectionSet → option SelectionSet.
Hypothesis Hflat : recFlat rec.
Hypothesis Hsim : recRel rec rec.
Hypothesis Hidem : recIdem rec.
Hypothesis Htotal : recTotal doc n rec.
Hypothesis Hprefix : ∀ A B c,
  fits doc n A = true → fits doc n B = true → rec A = Some c →
  option_Forall2 setEquiv (rec (c ++ B)) (rec (A ++ B)).
Hypothesis Hsuffix : ∀ A B c,
  fits doc n A = true → fits doc n B = true → rec B = Some c →
  option_Forall2 setEquiv (rec (A ++ c)) (rec (A ++ B)).

Local Abbreviation merge := (foldlM (foldFragmentField rec)).

Lemma rec_returns l :
  fits doc n l = true → ∃ r, rec l = Some r ∧ fits doc n r = true ∧ flatSet r = true.
Proof.
  intros Hl. destruct (Htotal l Hl) as (r & Hr & Hfit). exists r.
  split_and!; [done..|]. by eapply Hflat.
Qed.

Lemma mergedEntry_good a nm i X (flag : bool) (old : option Field) :
  (∀ e, old = Some e → keyOf e = fieldKey a nm ∧ flatSet (Selections e) = true ∧
                        fits doc n (Selections e) = true) →
  fits doc n X = true → (flag = false → flatSet X = true) →
  ∃ v, mergedEntry rec a nm i X flag old = Some v ∧ keyOf v = fieldKey a nm ∧
       flatSet (Selections v) = true ∧ fits doc n (Selections v) = true.
Proof.
  intros Hold HX Hflag. destruct old as [e|]; simpl.
  - destruct (Hold e eq_refl) as (Hk & _ & Hfit).
    destruct (rec_returns (Selections e ++ X)) as (r & -> & Hr & Hrf).
    { by rewrite fits_app, Hfit, HX. }
    simpl. eexists. split; [done|]. by destruct e.
  - destruct flag.
    + destruct (rec_returns X HX) as (r & -> & Hr & Hrf). simpl.
      eexists. by split.
    + eexists. split; [done|]. split_and!; [done|by apply Hflag|done].
Qed.

Lemma updateKey_good a nm i X (flag : bool) m :
  mapGood doc n m → fits doc n X = true → (flag = false → flatSet X = true) →
  ∃ m', updateKey (fieldKey a nm) (mergedEntry rec a nm i X flag) m = Some m' ∧
        mapGood doc n m'.
Proof.
  intros Hm HX Hflag. unfold updateKey.
  destruct (mergedEntry_good a nm i X flag (m !! fieldKey a nm))
    as (v & -> & Hk & Hvf & Hvfit); [|done..|].
  { intros e He. destruct Hm as [Hok Hfit].
    destruct (Hok _ _ He) as [? ?]. split_and!; [done..|]. by apply (Hfit _ _ He). }
  simpl. eexists. split; [done|]. by apply mapGood_insert.
Qed.

Lemma merge_good l : ∀ m,
  mapGood doc n m → flatSet l = true → fits doc (S n) l = true →
  ∃ m', merge m l = Some m' ∧ mapGood doc n m'.
Proof.
  induction l as [|g l IH]; intros m Hm Hl Hfit; simpl; [by eauto|].
  apply flatSet_spec in Hl as [Hall Hnd]. inversion Hall as [|?? Hg Hall']; subst.
  rewrite fmap_cons in Hnd. inversion Hnd as [|?? _ Hnd']; subst.
  apply andb_true_iff in Hfit as [Hgfit Hfit].
  destruct g as [a nm i X| |]; try done.
  rewrite foldFragmentField_field.
  destruct (updateKey_good a nm i X false m Hm Hgfit) as (m1 & -> & Hm1).
  { intros _. by rewrite flatSel_field in Hg. }
  simpl. apply IH; [done| |done]. by apply flatSet_spec.
Qed.

Lemma merge_insert m mB k v :
  mapOK (<[k := v]> mB) →
  merge m (mapValues order (<[k := v]> mB)) =
  m0 ← merge m (mapValues order (delete k mB)); foldFragmentField rec m0 (ofField v).
Proof.
  intros Hok.
  rewrite (foldFragment_perm rec _ (mapValues order (delete k mB) ++ [ofField v]));
    [|apply mapValues_insert_last|by apply mapValues_flat].
  rewrite foldlM_app. destruct (merge m _) as [m0|]; cbn [mbind option_bind foldlM]; [|done].
  by destruct (foldFragmentField rec m0 (ofField v)).
Qed.

Lemma merge_lookup m mB k e :
  mapOK mB → mB !! k = Some e →
  merge m (mapValues order mB) =
  m0 ← merge m (mapValues order (delete k mB)); foldFragmentField rec m0 (ofField e).
Proof.
  intros Hok Hk. rewrite <- (insert_id mB k e Hk) at 1.
  apply merge_insert. by rewrite insert_id.
Qed.

Lemma foldFragmentField_ofField m v :
  foldFragmentField rec m (ofField v) =
  updateKey (keyOf v)
    (mergedEntry rec (Alias v) (Name v) (Info v) (Selections v) false) m.
Proof. destruct v. apply foldFragmentField_field. Qed.

(** Three sets merged in the two ways the loops can meet them. *)
Lemma rec_assoc (E Eb X V r1 W r3 : SelectionSet) :
  fits doc n E = true → fits doc n Eb = true → fits doc n X = true →
  rec (Eb ++ X) = Some V → rec (E ++ V) = Some r1 →
  rec (E ++ Eb) = Some W → rec (W ++ X) = Some r3 →
  r1 ≈ r3.
Proof.
  intros HE HEb HX HV Hr1 HW Hr3.
  pose proof (Hsuffix E (Eb ++ X) V HE ltac:(by rewrite fits_app, HEb, HX) HV) as H1.
  pose proof (Hprefix (E ++ Eb) X W ltac:(by rewrite fits_app, HE, HEb) HX HW) as H2.
  rewrite Hr1 in H1. rewrite Hr3, <- app_assoc in H2.
  inversion H1 as [?? Ha E1 E2|]; subst. rewrite <- E2 in H2.
  inversion H2; subst. eapply setEquiv_trans; [done|]. by apply setEquiv_sym.
Qed.

(** One update of the map commutes with merging the map into another. *)
Lemma update_commute m mB a nm i X (flag : bool) :
  mapGood doc n m → mapGood doc n mB → fits doc n X = true →
  (flag = false → flatSet X = true) →
  ∃ mB1 L m1 R,
    updateKey (fieldKey a nm) (mergedEntry rec a nm i X flag) mB = Some mB1 ∧
    merge m (mapValues order mB1) = Some L ∧
    merge m (mapValues order mB) = Some m1 ∧
    updateKey (fieldKey a nm) (mergedEntry rec a nm i X flag) m1 = Some R ∧
    mapEquiv L R ∧
    mapGood doc n mB1 ∧ mapGood doc n L ∧ mapGood doc n m1 ∧ mapGood doc n R.
Proof.
  intros Hm HmB HX Hflag. set (k := fieldKey a nm).
  destruct (updateKey_good a nm i X flag mB HmB HX Hflag) as (mB1 & HmB1 & HgB1).
  destruct (mapGood_values order doc n mB1 HgB1) as [Hf1 Hfit1].
  destruct (merge_good _ m Hm Hf1 Hfit1) as (L & HL & HgL).
  destruct (mapGood_values order doc n mB HmB) as [HfB HfitB].
  destruct (merge_good _ m Hm HfB HfitB) as (m1 & Hm1 & Hgm1).
  destruct (updateKey_good a nm i X flag m1 Hgm1 HX Hflag) as (R & HR & HgR).
  exists mB1, L, m1, R. split_and!; try done.
  destruct (mapGood_values order doc n _ (mapGood_delete doc n mB k HmB)) as [Hfd Hfitd].
  destruct (merge_good _ m Hm Hfd Hfitd) as (m0 & Hm0 & Hgm0).
  fold k in HmB1, HR. unfold updateKey in HmB1.
  destruct (mB !! k) as [eb|] eqn:Eb.
  - destruct (proj1 HmB _ _ Eb) as [Hkeb Hfeb]. pose proof (proj2 HmB _ _ Eb) as Hfiteb.
    cbn [mergedEntry] in HmB1.
    destruct (rec (Selections eb ++ X)) as [V|] eqn:EV; simpl in HmB1; [|done].
    injection HmB1 as <-.
    rewrite merge_insert, Hm0 in HL by apply HgB1.
    rewrite (merge_lookup m mB k eb (proj1 HmB) Eb), Hm0 in Hm1.
    cbn [mbind option_bind] in HL, Hm1.
    rewrite foldFragmentField_ofField in HL, Hm1.
    assert (keyOf (setSelections eb V) = k) as Hkv by (by destruct eb).
    rewrite Hkv in HL. rewrite Hkeb in Hm1.
    unfold updateKey in HL, Hm1, HR.
    destruct (m0 !! k) as [e|] eqn:E0; cbn [mergedEntry] in HL, Hm1.
    + pose proof (proj2 Hgm0 _ _ E0) as Hfite. simpl in Hfite, Hfiteb.
      destruct (rec (Selections e ++ Selections (setSelections eb V))) as [r1|] eqn:Er1;
        simpl in HL; [|done]. injection HL as <-.
      destruct (rec (Selections e ++ Selections eb)) as [W|] eqn:EW;
        simpl in Hm1; [|done]. injection Hm1 as <-.
      rewrite lookup_insert_eq in HR. cbn [mergedEntry Selections setSelections] in HR.
      destruct (rec (W ++ X)) as [r3|] eqn:Er3; simpl in HR; [|done].
      injection HR as <-. rewrite insert_insert_eq.
      apply mapEquiv_insert; [apply mapEquiv_refl, Hgm0|].
      assert (Selections (setSelections eb V) = V) as HV by (by destruct eb).
      rewrite HV in Er1.
      pose proof (rec_assoc _ _ _ _ _ _ _ Hfite Hfiteb HX EV Er1 EW Er3) as Heq.
      by destruct e.
    + simpl in HL, Hm1. injection HL as <-. injection Hm1 as <-.
      rewrite lookup_insert_eq in HR. cbn [mergedEntry Selections] in HR.
      rewrite EV in HR. simpl in HR. injection HR as <-. rewrite insert_insert_eq.
      pose proof (proj1 HgL) as HokL. destruct eb as [ea en ei es].
      by apply mapEquiv_refl.
  - rewrite (delete_id mB k Eb), Hm1 in Hm0. injection Hm0 as <-.
    assert (∃ V, mergedEntry rec a nm i X flag None = Some (mkField a nm i V) ∧
                 (flag = true → rec X = Some V) ∧ (flag = false → V = X))
      as (V & Hnew & HVt & HVf).
    { destruct flag; simpl in HmB1 |- *.
      - destruct (rec X) as [V|]; simpl in HmB1; [|done]. by exists V.
      - by exists X. }
    rewrite Hnew in HmB1. simpl in HmB1. injection HmB1 as <-.
    rewrite merge_insert, (delete_id mB k Eb), Hm1 in HL by apply HgB1.
    cbn [mbind option_bind] in HL. rewrite foldFragmentField_ofField in HL.
    change (keyOf (mkField a nm i V)) with k in HL.
    unfold updateKey in HL, HR. cbn [Alias Name Info Selections] in HL.
    destruct (m1 !! k) as [e|] eqn:E1.
    + pose proof (proj2 Hgm1 _ _ E1) as Hfite. simpl in Hfite.
      cbn [mergedEntry] in HL, HR.
      destruct (rec (Selections e ++ V)) as [r1|] eqn:Er1; simpl in HL; [|done].
      destruct (rec (Selections e ++ X)) as [r3|] eqn:Er3; simpl in HR; [|done].
      injection HL as <-. injection HR as <-.
      apply mapEquiv_insert; [apply mapEquiv_refl, Hgm1|].
      assert (r1 ≈ r3) as Heq; [|by destruct e].
      destruct flag.
      * pose proof (Hsuffix _ _ _ Hfite HX (HVt eq_refl)) as H1.
        rewrite Er1, Er3 in H1. by inversion H1.
      * rewrite (HVf eq_refl), Er3 in Er1. injection Er1 as <-.
        apply setEquiv_flat_refl. by eapply Hflat.
    + rewrite Hnew in HR. simpl in HL, HR. injection HL as <-. injection HR as <-.
      apply mapEquiv_refl, HgL.
Qed.

Lemma step_good s m :
  mapGood doc n m → fitsSel doc (S n) s = true →
  ∃ m', stepSelection doc rec m s = Some m' ∧ mapGood doc n m'.
Proof.
  intros [Hok Hfit] Hs.
  destruct (stepSelection_total doc n rec Htotal s m Hfit Hs) as (m' & Hm' & Hfit').
  exists m'. split; [done|]. split; [|done]. by eapply stepSelection_ok.
Qed.

Lemma foldSelections_good l : ∀ m,
  mapGood doc n m → fits doc (S n) l = true →
  ∃ m', foldlM (stepSelection doc rec) m l = Some m' ∧ mapGood doc n m'.
Proof.
  induction l as [|s l IH]; intros m Hm Hl; simpl; [by eauto|].
  apply andb_true_iff in Hl as [Hs Hl].
  destruct (step_good s m Hm Hs) as (m1 & -> & Hm1). simpl. by apply IH.
Qed.

(** Merging a flattened fragment into a map commutes with merging the map
    into another. *)
Lemma merge_commute c : ∀ m mB,
  mapGood doc n m → mapGood doc n mB → flatSet c = true → fits doc (S n) c = true →
  ∃ mB' L m1 R,
    merge mB c = Some mB' ∧ merge m (mapValues order mB') = Some L ∧
    merge m (mapValues order mB) = Some m1 ∧ merge m1 c = Some R ∧
    mapEquiv L R ∧
    mapGood doc n mB' ∧ mapGood doc n L ∧ mapGood doc n m1 ∧ mapGood doc n R.
Proof.
  induction c as [|g c IH]; intros m mB Hm HmB Hc Hfit.
  - destruct (mapGood_values order doc n mB HmB) as [HfB HfitB].
    destruct (merge_good _ m Hm HfB HfitB) as (m1 & Hm1 & Hgm1).
    exists mB, m1, m1, m1. split_and!; try done. apply mapEquiv_refl, Hgm1.
  - pose proof Hc as [Hall Hnd]%flatSet_spec.
    inversion Hall as [|?? Hg Hall']; subst.
    rewrite fmap_cons in Hnd. inversion Hnd as [|?? _ Hnd']; subst.
    assert (flatSet c = true) as Hc' by (by apply flatSet_spec).
    apply andb_true_iff in Hfit as [Hgfit Hfit].
    destruct g as [a nm i X| |]; try done.
    destruct (update_commute m mB a nm i X false Hm HmB Hgfit)
      as (mB1 & L1 & m1 & R1 & HmB1 & HL1 & Hm1 & HR1 & Heq1 & HgB1 & HgL1 & Hgm1 & HgR1).
    { intros _. by rewrite flatSel_field in Hg. }
    destruct (IH m mB1 Hm HgB1 Hc' Hfit)
      as (mB' & L & L1' & R' & HmB' & HL & HL1' & HR' & Heq & HgB' & HgL & _ & HgR').
    rewrite HL1 in HL1'. injection HL1' as <-.
    destruct (merge_good c R1 HgR1 Hc' Hfit) as (R & HR & HgR).
    exists mB', L, m1, R. cbn [foldlM]. rewrite !foldFragmentField_field, HmB1, HR1.
    split_and!; try done.
    pose proof (foldFragment_equiv rec rec Hflat Hsim c c L1 R1
                  (setEquiv_flat_refl _ Hc') Hc' Heq1 (proj1 HgL1)) as Hfold.
    rewrite HR', HR in Hfold. inversion Hfold; subst.
    by eapply mapEquiv_trans.
Qed.

Lemma fits_contents s contents :
  fragmentContents doc s = Some contents → fitsSel doc (S n) s = true →
  fits doc n contents = true.
Proof.
  destruct s as [| |name]; simpl; [done|by intros [= <-]|].
  destruct (findFragmentDefinition doc name); [|done]. by intros [= <-].
Qed.

(** One step of the loop commutes with merging the map into another. *)
Lemma step_commute s m mB :
  mapGood doc n m → mapGood doc n mB → fitsSel doc (S n) s = true →
  ∃ mB1 L m1 R,
    stepSelection doc rec mB s = Some mB1 ∧ merge m (mapValues order mB1) = Some L ∧
    merge m (mapValues order mB) = Some m1 ∧ stepSelection doc rec m1 s = Some R ∧
    mapEquiv L R ∧
    mapGood doc n mB1 ∧ mapGood doc n L ∧ mapGood doc n m1 ∧ mapGood doc n R.
Proof.
  intros Hm HmB Hs.
  destruct (fragmentContents doc s) as [contents|] eqn:Ec.
  - destruct (rec_returns contents (fits_contents _ _ Ec Hs)) as (c & Hc & Hcfit & Hcflat).
    destruct (merge_commute c m mB Hm HmB Hcflat (fits_le doc n (S n) c ltac:(lia) Hcfit))
      as (mB' & L & m1 & R & HmB' & HL & Hm1 & HR & Heq & ? & ? & ? & ?).
    exists mB', L, m1, R. rewrite !(stepSelection_fragment _ _ _ _ _ Ec), Hc.
    cbn [mbind option_bind]. by split_and!.
  - destruct s as [a nm i X|tc cs|name]; simpl in Ec; [|done|].
    + destruct (update_commute m mB a nm i X true Hm HmB Hs)
        as (mB' & L & m1 & R & HmB' & HL & Hm1 & HR & Heq & ? & ? & ? & ?); [done|].
      exists mB', L, m1, R. rewrite !stepSelection_field. by split_and!.
    + destruct (mapGood_values order doc n mB HmB) as [HfB HfitB].
      destruct (merge_good _ m Hm HfB HfitB) as (m1 & Hm1 & Hgm1).
      exists mB, m1, m1, m1. simpl.
      destruct (findFragmentDefinition doc name); [done|].
      split_and!; try done. apply mapEquiv_refl, Hgm1.
Qed.

(** The loop over a selection set commutes with merging the map into
    another. *)
Lemma fold_commute B : ∀ m mB,
  mapGood doc n m → mapGood doc n mB → fits doc (S n) B = true →
  ∃ mB' L m1 R,
    foldlM (stepSelection doc rec) mB B = Some mB' ∧
    merge m (mapValues order mB') = Some L ∧
    merge m (mapValues order mB) = Some m1 ∧
    foldlM (stepSelection doc rec) m1 B = Some R ∧
    mapEquiv L R ∧
    mapGood doc n mB' ∧ mapGood doc n L ∧ mapGood doc n m1 ∧ mapGood doc n R.
Proof.
  induction B as [|s B IH]; intros m mB Hm HmB Hfit.
  - destruct (mapGood_values order doc n mB HmB) as [HfB HfitB].
    destruct (merge_good _ m Hm HfB HfitB) as (m1 & Hm1 & Hgm1).
    exists mB, m1, m1, m1. split_and!; try done. apply mapEquiv_refl, Hgm1.
  - apply andb_true_iff in Hfit as [Hs Hfit].
    destruct (step_commute s m mB Hm HmB Hs)
      as (mB1 & L1 & m1 & R1 & HmB1 & HL1 & Hm1 & HR1 & Heq1 & HgB1 & HgL1 & Hgm1 & HgR1).
    destruct (IH m mB1 Hm HgB1 Hfit)
      as (mB' & L & L1' & R' & HmB' & HL & HL1' & HR' & Heq & HgB' & HgL & _ & HgR').
    rewrite HL1 in HL1'. injection HL1' as <-.
    destruct (foldSelections_good B R1 HgR1 Hfit) as (R & HR & HgR).
    exists mB', L, m1, R. cbn [foldlM]. rewrite HmB1, HR1.
    split_and!; try done.
    pose proof (foldInput_equiv doc rec rec Hflat Hsim B B L1 R1
                  (inputRel_refl _) Heq1 (proj1 HgL1)) as Hfold.
    rewrite HR', HR in Hfold. inversion Hfold; subst.
    by eapply mapEquiv_trans.
Qed.
Lemma merge_as_steps m c :
  mapGood doc n m → flatSet c = true → fits doc (S n) c = true →
  option_Forall2 mapEquiv (merge m c) (foldlM (stepSelection doc rec) m c).
Proof.
  intros Hm Hc Hfit.
  apply (inlined_fold_equiv doc rec rec Hflat Hsim);
    [by apply setEquiv_flat_refl|done| |apply mapEquiv_refl, Hm|apply Hm].
  apply flatSet_spec in Hc as [Hall _]. apply fits_Forall in Hfit.
  rewrite Forall_forall in Hall, Hfit. apply Forall_forall.
  intros g Hg. specialize (Hall g Hg). specialize (Hfit g Hg).
  destruct g as [a nm i X| |]; try done. simpl.
  destruct (rec_returns X Hfit) as (y & Hy & _ & _). exists y. split; [done|].
  apply Hidem; [|done]. by rewrite flatSel_field in Hall.
Qed.

(** The loop over [A ++ c ++ P], where [c] is the flattened [B], against
    the loop over [A ++ B ++ P]. *)
Lemma absorb_fold (A B P : SelectionSet) mB' :
  fits doc (S n) A = true → fits doc (S n) B = true →
  foldlM (stepSelection doc rec) ∅ B = Some mB' →
  option_Forall2 mapEquiv
    (foldlM (stepSelection doc rec) ∅ (A ++ mapValues order mB' ++ P))
    (foldlM (stepSelection doc rec) ∅ (A ++ B ++ P)).
Proof.
  intros HA HB HmB'. rewrite !foldlM_app.
  destruct (foldSelections_good A ∅ (mapGood_empty doc n) HA) as (mA & -> & HgA).
  cbn [mbind option_bind]. rewrite !foldlM_app.
  destruct (fold_commute B mA ∅ HgA (mapGood_empty doc n) HB)
    as (mB & L & m1 & R & HmB & HL & Hm1 & HR & Heq & HgB & HgL & _ & HgR).
  rewrite HmB' in HmB. injection HmB as <-.
  rewrite mapValues_empty in Hm1. simpl in Hm1. injection Hm1 as <-. rewrite HR.
  destruct (mapGood_values order doc n mB' HgB) as [Hcflat Hcfit].
  pose proof (merge_as_steps mA _ HgA Hcflat Hcfit) as Hsteps.
  rewrite HL in Hsteps. inversion Hsteps as [? L' HLL' E1 E2|]; subst.
  cbn [mbind option_bind].
  apply (foldInput_equiv doc rec rec Hflat Hsim); [apply inputRel_refl| |].
  - intros k. specialize (HLL' k). specialize (Heq k).
    destruct HLL' as [f1 f2 H12|]; inversion Heq as [? f3 H13|]; subst; constructor.
    destruct H12 as (Ha & Hn & Hi & Hs), H13 as (Ha' & Hn' & Hi' & Hs').
    split_and!; [congruence..|].
    eapply setEquiv_trans; [by apply setEquiv_sym|done].
  - symmetry in E2. eapply foldSelections_ok; [exact Hflat|apply HgA|exact E2].
Qed.

(** The loop over a selection set with a fragment against the loop over
    the selection set with the contents of the fragment in its place. *)
Lemma inline_fold (A P : SelectionSet) frag contents mB' :
  fits doc (S n) A = true → fits doc n contents = true →
  fragmentContents doc frag = Some contents →
  foldlM (stepSelection doc rec) ∅ contents = Some mB' →
  rec contents = Some (mapValues order mB') →
  option_Forall2 mapEquiv
    (foldlM (stepSelection doc rec) ∅ (A ++ frag :: P))
    (foldlM (stepSelection doc rec) ∅ (A ++ contents ++ P)).
Proof.
  intros HA Hfit Hfrag HmB' Hc. rewrite !foldlM_app.
  destruct (foldSelections_good A ∅ (mapGood_empty doc n) HA) as (mA & -> & HgA).
  cbn [mbind option_bind foldlM]. rewrite foldlM_app.
  rewrite (stepSelection_fragment _ _ _ _ _ Hfrag), Hc.
  destruct (fold_commute contents mA ∅ HgA (mapGood_empty doc n)
              (fits_le doc n (S n) _ ltac:(lia) Hfit))
    as (mB & L & m1 & R & HmB & HL & Hm1 & HR & Heq & HgB & HgL & _ & HgR).
  rewrite HmB' in HmB. injection HmB as <-.
  rewrite mapValues_empty in Hm1. simpl in Hm1. injection Hm1 as <-.
  cbn [mbind option_bind]. rewrite HR, HL. cbn [mbind option_bind].
  apply (foldInput_equiv doc rec rec Hflat Hsim); [apply inputRel_refl|done|apply HgL].
Qed.
End Commute.

Lemma flattenSelectionSet_unfold order doc fuel l :
  flattenSelectionSet order doc (S fuel) l =
  m ← foldlM (stepSelection doc (flattenSelectionSet order doc fuel)) ∅ l;
  Some (mapValues order m).
Proof. done. Qed.

Lemma fits0_nil order doc fuel l :
  fits doc 0 l = true → flattenSelectionSet order doc (S fuel) l = Some [].
Proof.
  intros Hl. destruct (flattenSelectionSet_total order doc 0 l Hl) as (r & Hr & Hfit).
  pose proof (flattenSelectionSet_flat _ _ _ _ _ Hr) as Hflat.
  destruct r as [|s r].
  - eapply flattenSelectionSet_mono; [|exact Hr]. lia.
  - apply flatSet_spec in Hflat as [Hall _]. inversion Hall as [|?? Hs _]; subst.
    apply andb_true_iff in Hfit as [Hfs _]. by destruct s.
Qed.

(** Flattening [A] followed by the flattened [B] gives what flattening [A]
    followed by [B] gives. *)
Lemma absorb_suffix order doc n : ∀ fuel (A B c : SelectionSet),
  n < fuel → fits doc n A = true → fits doc n B = true →
  flattenSelectionSet order doc fuel B = Some c →
  option_Forall2 setEquiv
    (flattenSelectionSet order doc fuel (A ++ c))
    (flattenSelectionSet order doc fuel (A ++ B)).
Proof.
  induction n as [|n IH]; intros fuel A B c Hlt HA HB Hc;
    (destruct fuel as [|f]; [lia|]).
  - rewrite (fits0_nil order doc f B HB) in Hc. injection Hc as <-.
    rewrite app_nil_r, (fits0_nil order doc f A HA), (fits0_nil order doc f (A ++ B))
      by (by rewrite fits_app, HA, HB).
    constructor. by apply setEquiv_flat_refl.
  - rewrite flattenSelectionSet_unfold in Hc.
    destruct (foldlM _ ∅ B) as [mB'|] eqn:EB; simpl in Hc; [|done]. injection Hc as <-.
    rewrite !flattenSelectionSet_unfold.
    pose proof (absorb_fold order doc n (flattenSelectionSet order doc f)
                  (flattenSelectionSet_flat order doc f)
                  (flattenSelectionSet_sim order order doc f)
                  (flattenSelectionSet_idem order doc f)
                  (flattenSelectionSet_total_lt order doc n f ltac:(lia))
                  (λ A B c, absorb_total order doc n f A B c ltac:(lia))
                  (λ A B c, IH f A B c ltac:(lia))
                  A B [] mB' HA HB EB) as Hfold.
    rewrite !app_nil_r in Hfold.
    destruct Hfold as [m1 m2 Hm|]; simpl; constructor. by apply mapValues_equiv.
Qed.

Lemma inline_fuel order doc n fuel (A P : SelectionSet) frag contents :
  S n < fuel → fits doc (S n) A = true → fits doc n contents = true →
  fragmentContents doc frag = Some contents →
  option_Forall2 setEquiv
    (flattenSelectionSet order doc fuel (A ++ frag :: P))
    (flattenSelectionSet order doc fuel (A ++ contents ++ P)).
Proof.
  intros Hlt HA Hfit Hfrag. destruct fuel as [|f]; [lia|].
  pose proof (flattenSelectionSet_fuel order doc n f (S f) contents Hfit
                ltac:(lia) ltac:(lia)) as Hc.
  destruct (flattenSelectionSet_total_lt order doc n f ltac:(lia) contents Hfit)
    as (c & Hc' & _).
  rewrite Hc', flattenSelectionSet_unfold in Hc.
  destruct (foldlM _ ∅ contents) as [mB'|] eqn:EB; simpl in Hc; [|done].
  injection Hc as ->.
  rewrite !flattenSelectionSet_unfold.
  pose proof (inline_fold order doc n (flattenSelectionSet order doc f)
                (flattenSelectionSet_flat order doc f)
                (flattenSelectionSet_sim order order doc f)
                (flattenSelectionSet_total_lt order doc n f ltac:(lia))
                (λ A B c, absorb_total order doc n f A B c ltac:(lia))
                (λ A B c, absorb_suffix order doc n f A B c ltac:(lia))
                A P frag contents mB' HA Hfit Hfrag EB Hc') as Hfold.
  destruct Hfold as [m1 m2 Hm|]; simpl; constructor. by apply mapValues_equiv.
Qed.

Lemma fits_fragment doc n frag contents :
  fragmentContents doc frag = Some contents →
  fitsSel doc n frag = true → ∃ n', n = S n' ∧ fits doc n' contents = true.
Proof.
  intros Hfrag Hfit. destruct n as [|n'].
  - destruct frag as [| |name]; simpl in *; try done.
    by destruct (findFragmentDefinition doc name).
  - exists n'. split; [done|]. by eapply fits_contents.
Qed.

(** ** Selection sets with the same flattening *)

Lemma sameFlattening_refl order doc l : sameFlattening order doc l l.
Proof.
  split; intros r Hr; exists r; (split; [done|]); destruct Hr as [fuel Hr];
    by apply setEquiv_flat_refl, (flattenSelectionSet_flat _ _ _ _ _ Hr).
Qed.

Lemma sameFlattening_trans order doc l1 l2 l3 :
  sameFlattening order doc l1 l2 → sameFlattening order doc l2 l3 →
  sameFlattening order doc l1 l3.
Proof.
  intros [H12 H21] [H23 H32]. split.
  - intros r (r2 & Hr2 & Heq2)%H12. destruct (H23 _ Hr2) as (r3 & Hr3 & Heq3).
    exists r3. split; [done|]. by eapply setEquiv_trans.
  - intros r (r2 & Hr2 & Heq2)%H32. destruct (H21 _ Hr2) as (r1 & Hr1 & Heq1).
    exists r1. split; [done|]. by eapply setEquiv_trans.
Qed.

Lemma inline_fragment_same order doc (pre post : SelectionSet) frag contents :
  fragmentContents doc frag = Some contents →
  sameFlattening order doc (pre ++ frag :: post) (pre ++ contents ++ post).
Proof.
  intros Hfrag. split.
  - intros r [[|n0] Hr]; [done|].
    pose proof (returns_fits _ _ _ _ _ Hr) as Hfit.
    rewrite fits_app in Hfit. apply andb_true_iff in Hfit as [Hpre Hfit].
    apply andb_true_iff in Hfit as [Hf _].
    destruct (fits_fragment doc n0 frag contents Hfrag Hf) as (n1 & -> & Hc).
    pose proof (inline_fuel order doc n1 (S (S n1)) pre post frag contents
                  ltac:(lia) Hpre Hc Hfrag) as Hrel.
    rewrite Hr in Hrel. apply option_Forall2_Some_l in Hrel as (r' & Hr' & Hrr').
    exists r'. split; [by eexists|done].
  - intros r' [[|n0] Hr']; [done|].
    pose proof (returns_fits _ _ _ _ _ Hr') as Hfit.
    rewrite !fits_app in Hfit. apply andb_true_iff in Hfit as [Hpre Hfit].
    apply andb_true_iff in Hfit as [Hc _].
    pose proof (inline_fuel order doc n0 (S (S n0)) pre post frag contents
                  ltac:(lia) (fits_le doc n0 (S n0) pre ltac:(lia) Hpre) Hc Hfrag) as Hrel.
    rewrite (flattenSelectionSet_mono _ _ (S n0) (S (S n0)) ltac:(lia) _ _ Hr') in Hrel.
    apply option_Forall2_Some_r in Hrel as (r & Hr & Hrr').
    exists r. split; [by eexists|done].
Qed.

Lemma skip_unresolved_same order doc (pre post : SelectionSet) name :
  findFragmentDefinition doc name = None →
  sameFlattening order doc (pre ++ FragmentSpread name :: post) (pre ++ post).
Proof.
  intros Hnone.
  assert (∀ fuel, flattenSelectionSet order doc fuel (pre ++ FragmentSpread name :: post)
                  = flattenSelectionSet order doc fuel (pre ++ post)) as Heq.
  { intros [|fuel]; [done|]. rewrite !flattenSelectionSet_unfold, !foldlM_app.
    destruct (foldlM _ ∅ pre) as [m|]; simpl; [|done]. by rewrite Hnone. }
  split; intros r [fuel Hr]; exists r;
    (split; [exists fuel; by rewrite ?Heq in *|]);
    by apply setEquiv_flat_refl, (flattenSelectionSet_flat _ _ _ _ _ Hr).
Qed.

Lemma inlineSet_same order doc (inl : Selection → option SelectionSet) :
  (∀ s e, inl s = Some e → ∀ pre post,
     sameFlattening order doc (pre ++ s :: post) (pre ++ e ++ post)) →
  ∀ ss fields, mapM inl ss = Some fields → ∀ pre post,
    sameFlattening order doc (pre ++ ss ++ post) (pre ++ concat fields ++ post).
Proof.
  intros Hinl. induction ss as [|s ss IH]; intros fields; csimpl.
  { intros [= <-] pre post. apply sameFlattening_refl. }
  destruct (inl s) as [e|] eqn:Ee; csimpl; [|done].
  destruct (mapM inl ss) as [es|] eqn:Ees; csimpl; [|done].
  intros [= <-] pre post. simpl.
  eapply sameFlattening_trans; [apply (Hinl s e Ee)|].
  rewrite <- app_assoc, !(app_assoc pre e). by apply IH.
Qed.

Lemma inlineSel_same order doc fuel : ∀ s e,
  inlineSel doc fuel s = Some e → ∀ pre post,
    sameFlattening order doc (pre ++ s :: post) (pre ++ e ++ post).
Proof.
  induction fuel as [|fuel IH]; intros s e He pre post.
  - destruct s as [a n i cs|tc cs|name]; simpl in He.
    + injection He as <-. apply sameFlattening_refl.
    + done.
    + destruct (findFragmentDefinition doc name) eqn:Efd; simpl in He; [done|].
      injection He as <-. by apply skip_unresolved_same.
  - destruct (fragmentContents doc s) as [contents|] eqn:Ec.
    + assert (mapM (inlineSel doc fuel) contents ≫= (λ fields, Some (concat fields))
              = Some e) as Hm.
      { destruct s; [by simpl in Ec|cbn [inlineSel] in He; by rewrite Ec in He..]. }
      destruct (mapM (inlineSel doc fuel) contents) as [fields|] eqn:Ef;
        simpl in Hm; [|done]. injection Hm as <-.
      eapply sameFlattening_trans; [by apply inline_fragment_same|].
      by apply (inlineSet_same order doc (inlineSel doc fuel) IH).
    + destruct s as [a n i cs|tc cs|name]; simpl in Ec, He; [|done|].
      * injection He as <-. apply sameFlattening_refl.
      * destruct (findFragmentDefinition doc name) eqn:Efd; [done|].
        simpl in He. injection He as <-. by apply skip_unresolved_same.
Qed.

Lemma inlineSet_fields (inl : Selection → option SelectionSet) :
  (∀ s e, inl s = Some e → Forall (λ x, isField x = true) e) →
  ∀ ss fields, mapM inl ss = Some fields →
    Forall (λ x, isField x = true) (concat fields).
Proof.
  intros Hinl. induction ss as [|s ss IH]; intros fields; csimpl.
  { intros [= <-]. constructor. }
  destruct (inl s) as [e|] eqn:Ee; csimpl; [|done].
  destruct (mapM inl ss) as [es|] eqn:Ees; csimpl; [|done].
  intros [= <-]. simpl. apply Forall_app. split; [by eapply Hinl|by apply IH].
Qed.

Lemma inlineSel_fields doc fuel : ∀ s e,
  inlineSel doc fuel s = Some e → Forall (λ x, isField x = true) e.
Proof.
  induction fuel as [|fuel IH]; intros s e He.
  - destruct s as [a n i cs|tc cs|name]; simpl in He.
    + injection He as <-. by repeat constructor.
    + done.
    + destruct (findFragmentDefinition doc name); simpl in He; [done|].
      injection He as <-. constructor.
  - destruct s as [a n i cs|tc cs|name]; cbn [inlineSel] in He.
    + injection He as <-. by repeat constructor.
    + simpl in He. destruct (mapM (inlineSel doc fuel) cs) as [fields|] eqn:Ef;
        simpl in He; [|done]. injection He as <-.
      by apply (inlineSet_fields (inlineSel doc fuel) IH cs).
    + destruct (fragmentContents doc (FragmentSpread name)) as [contents|];
        [|injection He as <-; constructor].
      destruct (mapM (inlineSel doc fuel) contents) as [fields|] eqn:Ef;
        simpl in He; [|done]. injection He as <-.
      by apply (inlineSet_fields (inlineSel doc fuel) IH contents).
Qed.

Lemma encounteredSet_fields doc rec l :
  Forall (λ x, isField x = true) l → encounteredSet doc rec l = Some l.
Proof.
  induction 1 as [|s l Hs _ IH]; simpl; [done|].
  destruct s; try done. simpl. by rewrite IH.
Qed.

Lemma setEquiv_field_in (r r' : SelectionSet) a n i merged :
  r ≈ r' → FieldSel a n i merged ∈ r →
  ∃ merged', FieldSel a n i merged' ∈ r' ∧ merged ≈ merged'.
Proof.
  intros (mid & Hp & HF) Hin. rewrite Hp in Hin.
  apply list_elem_of_lookup_1 in Hin as [j Hj].
  destruct (Forall2_lookup_l _ _ _ _ _ HF Hj) as (y & Hy & Hxy).
  inversion Hxy as [??? ss ss' mid' Hp' HF']; subst.
  exists ss'. split; [by eapply list_elem_of_lookup_2|]. by exists mid'.
Qed.

Lemma mapM_returns {A B} (f : A → option B) (l : list A) :
  Forall (λ x, ∃ y, f x = Some y) l → ∃ ys, mapM f l = Some ys.
Proof.
  induction 1 as [|x l [y Hy] _ [ys Hys]]; csimpl; [by eauto|].
  rewrite Hy. csimpl. unfold mbind in *. rewrite Hys. simpl. by eauto.
Qed.

(** Within the levels of the selection, the expansion returns. *)
Lemma inlineSel_returns doc n : ∀ s,
  fitsSel doc n s = true → ∃ e, inlineSel doc n s = Some e.
Proof.
  induction n as [|n IH]; intros s Hs.
  - destruct s as [a nm i cs|tc cs|name]; simpl in *; [done..|].
    destruct (findFragmentDefinition doc name); [done|]. simpl. by eauto.
  - assert (∀ cs, fits doc n cs = true →
              ∃ fields, mapM (inlineSel doc n) cs = Some fields) as Hall.
    { intros cs Hcs. apply mapM_returns. apply fits_Forall in Hcs.
      eapply Forall_impl; [|exact Hcs]. simpl. intros c; apply IH. }
    destruct s as [a nm i cs|tc cs|name]; cbn [inlineSel].
    + by eauto.
    + simpl. destruct (Hall cs Hs) as [fields ->]. simpl. by eauto.
    + cbn [fitsSel] in Hs. simpl.
      destruct (findFragmentDefinition doc name) as [fd|]; simpl; [|by eauto].
      destruct (Hall _ Hs) as [fields ->]. simpl. by eauto.
Qed.

Lemma inlineSet_returns doc n ss :
  fits doc n ss = true → ∃ fields, inlineSet doc n ss = Some fields.
Proof.
  intros Hss. unfold inlineSet.
  destruct (mapM_returns (inlineSel doc n) ss) as [fs ->]; [|simpl; by eauto].
  apply fits_Forall in Hss. eapply Forall_impl; [|exact Hss].
  simpl. intros c. apply inlineSel_returns.
Qed.

(** With the fragments of the selection set inlined, so that [fields] are
    the fields the set stands for, a field of the result has, up to order
    at every level, the children that flattening the concatenation of the
    original selection sets of all the [fields] with its key gives. *)
Lemma inlined_groups order doc fuel (ss fields r : SelectionSet) :
  inlineSet doc fuel ss = Some fields →
  Flattens order doc ss r →
  ∀ a n i merged, FieldSel a n i merged ∈ r →
    ∃ both, Flattens order doc (contributions (fieldKey a n) fields) both ∧
            merged ≈ both.
Proof.
  unfold inlineSet. intros Hin Hr a n i merged Hmem.
  destruct (mapM (inlineSel doc fuel) ss) as [fs|] eqn:Efs; simpl in Hin; [|done].
  injection Hin as <-.
  pose proof (inlineSet_same order doc (inlineSel doc fuel)
                (inlineSel_same order doc fuel) ss fs Efs [] []) as [Hsame _].
  rewrite !app_nil_r in Hsame. simpl in Hsame.
  destruct (Hsame r Hr) as (r' & [[|f] Hr'] & Heq); [done|].
  destruct (setEquiv_field_in r r' a n i merged Heq Hmem) as (merged' & Hmem' & Hmm').
  rewrite flattenSelectionSet_unfold in Hr'.
  destruct (foldlM _ ∅ (concat fs)) as [m|] eqn:E; simpl in Hr'; [|done].
  injection Hr' as <-.
  destruct (foldSelections_merge order doc f (concat fs) ∅ [] m
              (entriesMerge_empty order doc) E) as (met & Hmet & Hok & _ & Hsome).
  rewrite encounteredSet_fields in Hmet
    by (by apply (inlineSet_fields (inlineSel doc fuel) (inlineSel_fields doc fuel) ss)).
  injection Hmet as <-. simpl in Hsome.
  apply mapValues_elem_of in Hmem' as (k & g & Hk & Hg).
  destruct (Hok _ _ Hk) as [<- _]. destruct (Hsome _ _ Hk) as (both & Hboth & Hgb).
  destruct g as [ga gn gi gs]. injection Hg as -> -> -> ->.
  exists both. split; [done|]. by eapply setEquiv_trans.
Qed.

(** ** Runs with an order of their own at every [range] *)

Lemma foldR_app {A B} (step : B → A → B → Prop) l1 l2 b b' :
  foldR step b (l1 ++ l2) b' ↔ ∃ b1, foldR step b l1 b1 ∧ foldR step b1 l2 b'.
Proof.
  revert b. induction l1 as [|x l1 IH]; intros b; simpl.
  - split; [intros; exists b; split; [constructor|done]|].
    intros (b1 & H1 & H2). by inversion H1; subst.
  - split.
    + inversion 1 as [|? ? bx ? ? Hx Hrest]; subst.
      apply IH in Hrest as (b1 & H1 & H2). exists b1. split; [by econstructor|done].
    + intros (b1 & H1 & H2). inversion H1 as [|? ? bx ? ? Hx Hrest]; subst.
      econstructor; [done|]. apply IH. eauto.
Qed.

(** A run under a [MapOrder] is one of the runs. *)
Section OracleRun.
Variable doc : QueryDocument.
Variable rec : SelectionSet → option SelectionSet.
Variable recR : SelectionSet → SelectionSet → Prop.
Hypothesis Hrec : ∀ l r, rec l = Some r → recR l r.

Lemma foldFragmentField_run m s m' :
  foldFragmentField rec m s = Some m' → foldFragmentFieldR recR m s m'.
Proof.
  destruct s as [a n i ss|tc ss|name]; simpl.
  - destruct (m !! fieldKey a n) as [e|] eqn:Ee.
    + destruct (rec (Selections e ++ ss)) as [r|] eqn:Er; simpl; [|done].
      intros [= <-]. econstructor; [done|]. by apply Hrec.
    + intros [= <-]. by constructor.
  - intros [= <-]. constructor.
  - intros [= <-]. constructor.
Qed.

Lemma foldFragment_run l : ∀ m m',
  foldlM (foldFragmentField rec) m l = Some m' →
  foldR (foldFragmentFieldR recR) m l m'.
Proof.
  induction l as [|s l IH]; intros m m'; simpl.
  - intros [= <-]. constructor.
  - destruct (foldFragmentField rec m s) as [m1|] eqn:E1; simpl; [|done].
    intros Hl. econstructor; [by apply foldFragmentField_run|by apply IH].
Qed.

Lemma stepSelection_run m s m' :
  stepSelection doc rec m s = Some m' → stepSelectionR doc recR m s m'.
Proof.
  destruct s as [a n i ss|tc ss|name]; simpl.
  - destruct (m !! fieldKey a n) as [e|] eqn:Ee.
    + destruct (rec (Selections e ++ ss)) as [r|] eqn:Er; simpl; [|done].
      intros [= <-]. eapply step_existing; [done|]. by apply Hrec.
    + destruct (rec ss) as [r|] eqn:Er; simpl; [|done].
      intros [= <-]. eapply step_new; [done|]. by apply Hrec.
  - destruct (rec ss) as [c|] eqn:Er; simpl; [|done].
    intros Hl. eapply step_inline; [by apply Hrec|by apply foldFragment_run].
  - destruct (findFragmentDefinition doc name) as [fd|] eqn:Efd.
    + destruct (rec (FragSelections fd)) as [c|] eqn:Er; simpl; [|done].
      intros Hl. eapply step_spread; [done|by apply Hrec|by apply foldFragment_run].
    + intros [= <-]. by apply step_unresolved.
Qed.

Lemma foldSelections_run l : ∀ m m',
  foldlM (stepSelection doc rec) m l = Some m' →
  foldR (stepSelectionR doc recR) m l m'.
Proof.
  induction l as [|s l IH]; intros m m'; simpl.
  - intros [= <-]. constructor.
  - destruct (stepSelection doc rec m s) as [m1|] eqn:E1; simpl; [|done].
    intros Hl. econstructor; [by apply stepSelection_run|by apply IH].
Qed.
End OracleRun.

Lemma flattenSelectionSet_run order doc fuel : ∀ ss r,
  flattenSelectionSet order doc fuel ss = Some r → RunN doc fuel ss r.
Proof.
  induction fuel as [|fuel IH]; intros ss r; [done|].
  rewrite flattenSelectionSet_unfold.
  destruct (foldlM _ ∅ ss) as [m|] eqn:E; simpl; [|done]. intros [= <-].
  exists m. split.
  - eapply foldSelections_run; [exact IH|exact E].
  - by rewrite !mapValues_perm.
Qed.

(** Every run is, up to order at every level, the run under a [MapOrder]. *)
Section RunSim.
Variable doc : QueryDocument.
Variable recR : SelectionSet → SelectionSet → Prop.
Variable rec : SelectionSet → option SelectionSet.
Hypothesis HflatR : ∀ l r, recR l r → flatSet r = true.
Hypothesis Hrel : ∀ l l' r,
  inputRel l l' → recR l r → ∃ r0, rec l' = Some r0 ∧ r ≈ r0.

Lemma merged_sim (e1 e2 : Field) (X X' merged : SelectionSet) :
  fieldEquiv e1 e2 → flatSet (Selections e1) = true → inputRel X X' →
  recR (Selections e1 ++ X) merged →
  ∃ r0, rec (Selections e2 ++ X') = Some r0 ∧
        fieldEquiv (setSelections e1 merged) (setSelections e2 r0).
Proof.
  intros (Ha & Hn & Hi & Hs) Hflat HX Hrun.
  destruct (Hrel (Selections e1 ++ X) (Selections e2 ++ X') merged) as (r0 & Hr0 & Heq);
    [by constructor|done|].
  exists r0. split; [done|]. by repeat split.
Qed.

(** A field is met, in the selection set or in a flattened fragment. *)
Lemma field_sim (fromFragment : bool) m1 m2 a n i (X X' : SelectionSet) m1' :
  mapEquiv m1 m2 → mapOK m1 → inputRel X X' →
  (fromFragment = true → flatSet X = true ∧ X ≈ X') →
  (if fromFragment then foldFragmentFieldR recR m1 (FieldSel a n i X) m1'
   else stepSelectionR doc recR m1 (FieldSel a n i X) m1') →
  ∃ m2',
    (if fromFragment then foldFragmentField rec m2 (FieldSel a n i X')
     else stepSelection doc rec m2 (FieldSel a n i X')) = Some m2' ∧
    mapEquiv m1' m2' ∧ mapOK m1'.
Proof.
  intros Hm Hok HX Hfrag Hrun.
  assert (∀ e1 merged, m1 !! fieldKey a n = Some e1 →
            recR (Selections e1 ++ X) merged →
            ∃ m2', (merged' ← (e2 ← m2 !! fieldKey a n; rec (Selections e2 ++ X'));
                    e2 ← m2 !! fieldKey a n;
                    Some (<[fieldKey a n := setSelections e2 merged']> m2)) = Some m2' ∧
                   mapEquiv (<[fieldKey a n := setSelections e1 merged]> m1) m2' ∧
                   mapOK (<[fieldKey a n := setSelections e1 merged]> m1)) as Hexisting.
  { intros e1 merged He1 Hrun1.
    destruct (mapEquiv_lookup_Some _ _ _ _ Hm He1) as (e2 & He2 & He12).
    destruct (Hok _ _ He1) as [Hk1 Hf1].
    destruct (merged_sim e1 e2 X X' merged He12 Hf1 HX Hrun1) as (r0 & Hr0 & Heq).
    rewrite He2. simpl. rewrite Hr0. simpl. eexists. split; [done|]. split.
    - by apply mapEquiv_insert.
    - apply mapOK_insert; [done|by destruct e1|by eapply HflatR]. }
  destruct fromFragment.
  - destruct (Hfrag eq_refl) as [HXflat HXeq].
    inversion Hrun as [? ? ? ? ? e1 merged He1 Hrun1|? ? ? ? ? Hnone| |]; subst.
    + destruct (Hexisting e1 merged He1 Hrun1) as (m2' & Hm2' & Heq & Hok').
      exists m2'. split; [|done]. simpl.
      destruct (m2 !! fieldKey a n) as [e2|]; simpl in Hm2' |- *; [|done].
      by destruct (rec (Selections e2 ++ X')).
    + simpl. rewrite (mapEquiv_lookup_None _ _ _ Hm Hnone).
      eexists. split; [done|]. split.
      * apply mapEquiv_insert; [done|]. by repeat split.
      * by apply mapOK_insert.
  - inversion Hrun as [? ? ? ? ? e1 merged He1 Hrun1|? ? ? ? ? flattened Hnone Hrun1| | |];
      subst.
    + destruct (Hexisting e1 merged He1 Hrun1) as (m2' & Hm2' & Heq & Hok').
      exists m2'. split; [|done]. simpl.
      destruct (m2 !! fieldKey a n) as [e2|]; simpl in Hm2' |- *; [|done].
      by destruct (rec (Selections e2 ++ X')).
    + simpl. rewrite (mapEquiv_lookup_None _ _ _ Hm Hnone).
      destruct (Hrel X X' flattened HX Hrun1) as (r0 & -> & Heq). simpl.
      eexists. split; [done|]. split.
      * apply mapEquiv_insert; [done|]. by repeat split.
      * apply mapOK_insert; [done|done|by eapply HflatR].
Qed.
Lemma selEquiv_inv_l a n i X g' :
  selEquiv (FieldSel a n i X) g' → ∃ X', g' = FieldSel a n i X' ∧ X ≈ X'.
Proof. inversion 1; subst. eexists. split; [done|]. by eexists. Qed.

(** The loop over a flattened fragment, element by element. *)
Lemma fragLoop_sim c c' :
  Forall2 selEquiv c c' → Forall (λ s, flatSel s = true) c →
  ∀ m1 m2 m1', mapEquiv m1 m2 → mapOK m1 →
    foldR (foldFragmentFieldR recR) m1 c m1' →
    ∃ m2', foldlM (foldFragmentField rec) m2 c' = Some m2' ∧
           mapEquiv m1' m2' ∧ mapOK m1'.
Proof.
  induction 1 as [|g g' c c' Hg _ IH]; intros Hall m1 m2 m1' Hm Hok Hrun.
  - inversion Hrun; subst. exists m2. by split.
  - inversion Hall as [|?? Hgflat Hall']; subst.
    inversion Hrun as [|? ? mx ? ? Hstep Hrest]; subst.
    destruct g as [a n i X| |]; try done.
    destruct (selEquiv_inv_l _ _ _ _ _ Hg) as (X' & -> & HX).
    rewrite flatSel_field in Hgflat.
    destruct (field_sim true m1 m2 a n i X X' mx Hm Hok
                (inputRel_block _ _ Hgflat HX) (λ _, conj Hgflat HX) Hstep)
      as (m2x & Hm2x & Hmx & Hokx).
    destruct (IH Hall' mx m2x m1' Hmx Hokx Hrest) as (m2' & Hm2' & Heq & Hok').
    exists m2'. split; [|done]. cbn [foldlM]. rewrite Hm2x. done.
Qed.

Lemma Forall2_selEquiv_flip c c0 :
  c ≈ c0 → ∃ mid0, c0 ≡ₚ mid0 ∧ Forall2 selEquiv c mid0.
Proof.
  intros (mid0 & Hp & HF)%setEquiv_sym. exists mid0. split; [done|].
  apply Forall2_flip. eapply Forall2_weaken; [exact HF|]. intros ??. apply selEquiv_sym.
Qed.

(** The loop over a flattened fragment, against the loop over an
    equivalent one. *)
Lemma fragment_sim c c0 m1 m2 m1' :
  c ≈ c0 → flatSet c = true → mapEquiv m1 m2 → mapOK m1 →
  foldR (foldFragmentFieldR recR) m1 c m1' →
  ∃ m2', foldlM (foldFragmentField rec) m2 c0 = Some m2' ∧
         mapEquiv m1' m2' ∧ mapOK m1'.
Proof.
  intros Hc Hflatc Hm Hok Hrun.
  destruct (Forall2_selEquiv_flip c c0 Hc) as (mid0 & Hp & HF).
  rewrite (foldFragment_perm rec c0 mid0 m2 Hp (setEquiv_flat _ _ Hc Hflatc)).
  eapply fragLoop_sim; [exact HF| |exact Hm|exact Hok|exact Hrun].
  by apply flatSet_spec in Hflatc as [? _].
Qed.

(** One step of the loop, on the same selection. *)
Lemma step_sim s m1 m2 m1' :
  mapEquiv m1 m2 → mapOK m1 → stepSelectionR doc recR m1 s m1' →
  ∃ m2', stepSelection doc rec m2 s = Some m2' ∧ mapEquiv m1' m2' ∧ mapOK m1'.
Proof.
  intros Hm Hok Hrun. destruct s as [a n i X|tc cs|name].
  - by apply (field_sim false m1 m2 a n i X X m1' Hm Hok (inputRel_refl _)).
  - inversion Hrun as [| |? ? ? c ? Hc Hloop| |]; subst.
    destruct (Hrel cs cs c (inputRel_refl _) Hc) as (c0 & Hc0 & Hcc0).
    simpl. rewrite Hc0. simpl.
    eapply fragment_sim; [exact Hcc0|by eapply HflatR|done..].
  - inversion Hrun as [| | |? ? fd c ? Hfd Hc Hloop|? ? Hfd]; subst.
    + destruct (Hrel _ _ c (inputRel_refl _) Hc) as (c0 & Hc0 & Hcc0).
      simpl. rewrite Hfd, Hc0. simpl.
      eapply fragment_sim; [exact Hcc0|by eapply HflatR|done..].
    + simpl. rewrite Hfd. exists m2. by split.
Qed.

(** The loop over a block of flat fields, element by element. *)
Lemma blockLoop_sim c c' :
  Forall2 selEquiv c c' → Forall (λ s, flatSel s = true) c →
  ∀ m1 m2 m1', mapEquiv m1 m2 → mapOK m1 →
    foldR (stepSelectionR doc recR) m1 c m1' →
    ∃ m2', foldlM (stepSelection doc rec) m2 c' = Some m2' ∧
           mapEquiv m1' m2' ∧ mapOK m1'.
Proof.
  induction 1 as [|g g' c c' Hg _ IH]; intros Hall m1 m2 m1' Hm Hok Hrun.
  - inversion Hrun; subst. exists m2. by split.
  - inversion Hall as [|?? Hgflat Hall']; subst.
    inversion Hrun as [|? ? mx ? ? Hstep Hrest]; subst.
    destruct g as [a n i X| |]; try done.
    destruct (selEquiv_inv_l _ _ _ _ _ Hg) as (X' & -> & HX).
    rewrite flatSel_field in Hgflat.
    destruct (field_sim false m1 m2 a n i X X' mx Hm Hok
                (inputRel_block _ _ Hgflat HX) ltac:(done) Hstep)
      as (m2x & Hm2x & Hmx & Hokx).
    destruct (IH Hall' mx m2x m1' Hmx Hokx Hrest) as (m2' & Hm2' & Heq & Hok').
    exists m2'. split; [|done]. cbn [foldlM]. rewrite Hm2x. done.
Qed.

(** The loop over related inputs. *)
Lemma foldR_sim l l' :
  inputRel l l' →
  ∀ m1 m2 m1', mapEquiv m1 m2 → mapOK m1 →
    foldR (stepSelectionR doc recR) m1 l m1' →
    ∃ m2', foldlM (stepSelection doc rec) m2 l' = Some m2' ∧
           mapEquiv m1' m2' ∧ mapOK m1'.
Proof.
  induction 1 as [|s l l' _ IH|c c' l l' Hcflat Hc _ IH]; intros m1 m2 m1' Hm Hok Hrun.
  - inversion Hrun; subst. exists m2. by split.
  - inversion Hrun as [|? ? mx ? ? Hstep Hrest]; subst.
    destruct (step_sim s m1 m2 mx Hm Hok Hstep) as (m2x & Hm2x & Hmx & Hokx).
    destruct (IH mx m2x m1' Hmx Hokx Hrest) as (m2' & Hm2' & Heq & Hok').
    exists m2'. split; [|done]. cbn [foldlM]. by rewrite Hm2x.
  - apply foldR_app in Hrun as (mx & Hblock & Hrest).
    destruct (Forall2_selEquiv_flip c c' Hc) as (mid0 & Hp & HF).
    destruct (blockLoop_sim c mid0 HF (proj1 (proj1 (flatSet_spec c) Hcflat))
                m1 m2 mx Hm Hok Hblock) as (m2x & Hm2x & Hmx & Hokx).
    destruct (IH mx m2x m1' Hmx Hokx Hrest) as (m2' & Hm2' & Heq & Hok').
    exists m2'. split; [|done]. rewrite foldlM_app.
    rewrite (foldSelections_perm doc rec c' mid0 m2 Hp (setEquiv_flat _ _ Hc Hcflat)).
    by rewrite Hm2x.
Qed.
End RunSim.

Lemma RunN_sim order doc fuel : ∀ l l' r,
  inputRel l l' → RunN doc fuel l r →
  ∃ r0, flattenSelectionSet order doc fuel l' = Some r0 ∧ r ≈ r0 ∧ flatSet r = true.
Proof.
  induction fuel as [|fuel IH]; intros l l' r Hl; [done|].
  intros (m1 & Hloop & Hr).
  assert (∀ x y, RunN doc fuel x y → flatSet y = true) as HflatR.
  { intros x y Hxy. by destruct (IH x x y (inputRel_refl _) Hxy) as (? & _ & _ & ?). }
  assert (∀ x x' y, inputRel x x' → RunN doc fuel x y →
            ∃ r0, flattenSelectionSet order doc fuel x' = Some r0 ∧ y ≈ r0) as Hrel.
  { intros x x' y Hx Hxy. destruct (IH x x' y Hx Hxy) as (r0 & ? & ? & _). eauto. }
  destruct (foldR_sim doc (RunN doc fuel) (flattenSelectionSet order doc fuel)
              HflatR Hrel l l' Hl
              ∅ ∅ m1 mapEquiv_empty mapOK_empty Hloop) as (m2 & Hm2 & Heq & Hok).
  exists (mapValues order m2). rewrite flattenSelectionSet_unfold, Hm2. simpl.
  split; [done|].
  pose proof (mapValues_equiv canonicalOrder order m1 m2 Heq) as (mid & Hp & HF).
  split.
  - exists mid. split; [by rewrite Hr|done].
  - apply flatSet_spec. rewrite Hr. apply flatSet_spec. by apply mapValues_flat.
Qed.

(** * Part 6: the claims *)

(** C1, as stated, fails: the fields [a: x] and [a: y] have the response key
    [a] and are kept as two entries, because the map key is [a:x] for one and
    [a:y] for the other. *)
Lemma C1_same_response_key_two_entries :
  selResponseKey (leaf "a" "x") = selResponseKey (leaf "a" "y") ∧
  flattenSelectionSet canonicalOrder emptyDoc 2 twoAliases
  = Some [leaf "a" "y"; leaf "a" "x"].
Proof. split; [reflexivity|vm_compute; reflexivity]. Qed.

(** C1, amended: the deduplication key of a field is [fieldKey], the name
    when the alias is empty and [alias:name] otherwise.  The output has one
    entry per key, and every field of the input has its key among them, so
    sibling fields are merged exactly when their [fieldKey]s are equal. *)
Theorem C1_merged_by_fieldKey order doc fuel (ss r : SelectionSet) :
  flattenSelectionSet order doc fuel ss = Some r →
  NoDup (selKey <$> r) ∧
  ∀ s, s ∈ ss → isField s = true → ∃ x, x ∈ r ∧ selKey x = selKey s.
Proof.
  intros H. split.
  { by apply flattenSelectionSet_flat, flatSet_spec in H as [_ ?]. }
  destruct fuel as [|fuel]; [done|]. cbn [flattenSelectionSet] in H.
  destruct (foldlM _ ∅ ss) as [m|] eqn:E; simpl in H; [|done].
  injection H as <-. intros s Hs Hfield.
  apply mapValues_elem.
  - eapply foldSelections_ok; eauto using flattenSelectionSet_flat, mapOK_empty.
  - by eapply foldSelections_keys.
Qed.

Lemma C1_merged_by_fieldKey_witness :
  NoDup (selKey <$> [leaf "a" "x"; leaf "" "x"]) ∧
  ∀ s, s ∈ [leaf "a" "x"; leaf "" "x"; leaf "a" "x"] → isField s = true →
       ∃ x, x ∈ [leaf "a" "x"; leaf "" "x"] ∧ selKey x = selKey s.
Proof.
  apply (C1_merged_by_fieldKey canonicalOrder emptyDoc 2
           [leaf "a" "x"; leaf "" "x"; leaf "a" "x"]).
  vm_compute. reflexivity.
Defined.

(** C2, as stated, fails in its second half: below [pet], the flattened
    operation has the fields [a: nick] and [a: name], two siblings with the
    response key [a]. *)
Lemma C2_siblings_share_response_key :
  flatten canonicalOrder emptyDoc 4 petOperation
  = Some (mkOperation Query "Pet" [] []
            [node "" "pet" [leaf "a" "nick"; leaf "a" "name"]] 0 "") ∧
  responseFlatSet [node "" "pet" [leaf "a" "nick"; leaf "a" "name"]] = false.
Proof. split; vm_compute; reflexivity. Qed.

(** C2, amended: every selection set of the flattened operation, at every
    nesting level, contains only fields, and the fields of one level have
    pairwise distinct [fieldKey]s. *)
Theorem C2_output_flat order doc fuel op flatOp :
  flatten order doc fuel op = Some flatOp →
  flatSet (OpSelections flatOp) = true.
Proof.
  unfold flatten.
  destruct (flattenSelectionSet order doc fuel (OpSelections op)) as [r|] eqn:E;
    simpl; [|done].
  intros [= <-]. simpl. by eapply flattenSelectionSet_flat.
Qed.

Lemma C2_output_flat_witness :
  flatSet [node "" "pet" [leaf "a" "nick"; leaf "a" "name"]] = true.
Proof.
  apply (C2_output_flat canonicalOrder emptyDoc 4 petOperation
           (mkOperation Query "Pet" [] []
              [node "" "pet" [leaf "a" "nick"; leaf "a" "name"]] 0 "")).
  vm_compute. reflexivity.
Defined.

(** C3, as stated, fails: the spread [...Missing] names no definition of the
    document, and [flatten] returns an operation, with the two fields and
    without a trace of the spread. *)
Lemma C3_unresolved_spread_returns :
  findFragmentDefinition emptyDoc "Missing" = None ∧
  flatten canonicalOrder emptyDoc 2 danglingOperation
  = Some (mkOperation Query "Dangling" [] [] [leaf "" "id"; leaf "" "name"] 0 "").
Proof. split; vm_compute; reflexivity. Qed.

(** C3, amended: a spread whose name resolves to no definition contributes
    nothing.  The result for a selection set is the result for the set
    without the spread; and wherever such spreads stand (in the selection
    set of the operation, below a field, inside an inline fragment or in
    the definition of a fragment), [flatten] returns what it returns for
    the operation and the document without them.  No run reports an
    error: [flatten] has no error result. *)
Theorem C3_unresolved_spread_skipped order doc fuel name (pre post : SelectionSet) op :
  (findFragmentDefinition doc name = None →
   flattenSelectionSet order doc fuel (pre ++ FragmentSpread name :: post)
   = flattenSelectionSet order doc fuel (pre ++ post)) ∧
  flatten order doc fuel op
  = flatten order (dropDocument doc) fuel (dropOperation doc op).
Proof.
  split.
  - intros Hnone. destruct fuel as [|fuel]; [done|].
    cbn [flattenSelectionSet]. rewrite !foldlM_app.
    destruct (foldlM _ ∅ pre) as [m|]; simpl; [|done].
    by rewrite Hnone.
  - unfold flatten. cbn [dropOperation OpSelections OpKind OpName VariableDefinitions
                           OpDirectives OpPosition OpComment].
    by rewrite <- flattenSelectionSet_drop.
Qed.

Lemma C3_unresolved_spread_skipped_witness :
  flattenSelectionSet canonicalOrder emptyDoc 2
    ([leaf "" "id"] ++ FragmentSpread "Missing" :: [leaf "" "name"])
  = flattenSelectionSet canonicalOrder emptyDoc 2 ([leaf "" "id"] ++ [leaf "" "name"]) ∧
  flatten canonicalOrder emptyDoc 3
    (mkOperation Query "Nested" [] []
       [node "" "user" [leaf "" "id"; FragmentSpread "Missing"]] 0 "")
  = flatten canonicalOrder (dropDocument emptyDoc) 3
      (mkOperation Query "Nested" [] [] [node "" "user" [leaf "" "id"]] 0 "").
Proof.
  destruct (C3_unresolved_spread_skipped canonicalOrder emptyDoc 2 "Missing"
              [leaf "" "id"] [leaf "" "name"] danglingOperation) as [Htop _].
  split; [by apply Htop|].
  apply (C3_unresolved_spread_skipped canonicalOrder emptyDoc 3 "Missing" [] []
           (mkOperation Query "Nested" [] []
              [node "" "user" [leaf "" "id"; FragmentSpread "Missing"]] 0 "")).
Defined.

(** The record of an operation does not depend on the iteration order: it is
    the one computed with the canonical order. *)
Lemma analyseOperation_canonical order doc op fuel0 fuel rc raw flat :
  flattenSelectionSet canonicalOrder doc fuel0 (OpSelections op) = Some rc →
  selectionSetComplexity doc fuel0 rc = Some flat →
  selectionSetComplexity doc fuel0 (OpSelections op) = Some raw →
  fuel0 ≤ fuel →
  analyseOperation order fuel doc op = Some (mkAnalysis (OpName op) raw flat).
Proof.
  intros Hrc Hflat Hraw Hfuel.
  unfold analyseOperation, flatten, Calculate.
  pose proof (flattenSelectionSet_sim order canonicalOrder doc fuel
                (OpSelections op) (OpSelections op) (inputRel_refl _)) as Hsim.
  rewrite (flattenSelectionSet_mono _ _ fuel0 fuel Hfuel _ _ Hrc) in Hsim.
  inversion Hsim as [r ? Hr E1 E2|]. clear E2. cbn [mbind option_bind OpSelections].
  rewrite (selectionSetComplexity_mono _ fuel0 fuel _ _ Hfuel Hraw).
  cbn [mbind option_bind].
  rewrite (selectionSetComplexity_equiv doc fuel r rc Hr).
  by rewrite (selectionSetComplexity_mono _ fuel0 fuel _ _ Hfuel Hflat).
Qed.

(** C4: with a validator that accepts the fixture, [AnalyseDocument] returns
    the one record [GetOrder], 5, 3, whatever the iteration order of the map
    and whichever way the aliases are stored. *)
Theorem C4_reference_fixture order validate (aliased : bool) fuel :
  validate fixtureSchema (fixtureDocument aliased) = true →
  4 ≤ fuel →
  AnalyseDocument order validate fuel fixtureSchema (fixtureDocument aliased)
  = Some (Analysed [mkAnalysis "GetOrder" 5 3]).
Proof.
  intros Hvalid Hfuel. unfold AnalyseDocument. rewrite Hvalid.
  assert (analyseOperation order fuel (fixtureDocument aliased)
            (fixtureOperation aliased) = Some (mkAnalysis "GetOrder" 5 3)) as Hop.
  { assert (∃ rc,
      flattenSelectionSet canonicalOrder (fixtureDocument aliased) 4
        (OpSelections (fixtureOperation aliased)) = Some rc ∧
      selectionSetComplexity (fixtureDocument aliased) 4 rc = Some 3%Z ∧
      selectionSetComplexity (fixtureDocument aliased) 4
        (OpSelections (fixtureOperation aliased)) = Some 5%Z)
      as (rc & Hrc & Hflat & Hraw).
    { destruct aliased; eexists; split_and!; vm_compute; reflexivity. }
    by rewrite (analyseOperation_canonical order _ _ 4 fuel rc 5 3). }
  change (Operations (fixtureDocument aliased)) with [fixtureOperation aliased].
  cbn [mapM]. by rewrite Hop.
Qed.

Lemma C4_reference_fixture_witness :
  AnalyseDocument reverseOrder (λ _ _, true) 4 fixtureSchema (fixtureDocument true)
  = Some (Analysed [mkAnalysis "GetOrder" 5 3]).
Proof.
  apply (C4_reference_fixture reverseOrder (λ _ _, true) true 4); [reflexivity|lia].
Defined.

(** C5, as stated, fails: when the field [a: y { q }] is met, the response
    key [a] has an entry, [a: x { p }]; the children of that entry stay
    [p], they are not the merge of [p] and [q]. *)
Lemma C5_same_response_key_not_merged :
  selResponseKey aliasX = selResponseKey aliasY ∧
  flattenSelectionSet canonicalOrder emptyDoc 3 [aliasX; aliasY]
  = Some [node "a" "y" [leaf "" "q"]; node "a" "x" [leaf "" "p"]] ∧
  flattenSelectionSet canonicalOrder emptyDoc 3 (children aliasX ++ children aliasY)
  = Some [leaf "" "q"; leaf "" "p"].
Proof. split_and!; vm_compute; reflexivity. Qed.

(** C5, amended: when [flatten] returns, the children of every field of the
    result are, up to order at every level, what flattening the
    concatenation of the contributors' original selection sets gives.  The
    contributors of a field are all the fields with its [fieldKey] that
    the selection set stands for, its fragments inlined ([fields]); for
    two contributors these are "both contributors' original (unmerged)
    nested selections".  (The code flattens the entry's already flattened
    children together with the new field's selections.) *)
Theorem C5_merged_children order doc (ss r : SelectionSet) :
  Flattens order doc ss r →
  ∃ fuel fields,
    inlineSet doc fuel ss = Some fields ∧
    ∀ a n i merged, FieldSel a n i merged ∈ r →
      ∃ both, Flattens order doc (contributions (fieldKey a n) fields) both ∧
              merged ≈ both.
Proof.
  intros Hr. pose proof Hr as [[|fuel] Hfuel]; [done|].
  pose proof (returns_fits _ _ _ _ _ Hfuel) as Hfit.
  destruct (inlineSet_returns doc fuel ss Hfit) as [fields Hfields].
  exists fuel, fields. split; [done|].
  intros a n i merged Hmem. by eapply inlined_groups.
Qed.

Lemma C5_merged_children_witness :
  ∃ fuel fields,
    inlineSet (fixtureDocument true) fuel
      (OpSelections (fixtureOperation true) ++
       [InlineFragment "Query"
          [fixtureField true "Query" "user" "User" [("id", "$id")]
             [FragmentSpread "UserFragment"]]]) = Some fields ∧
    ∀ a n i merged,
      FieldSel a n i merged
        ∈ [fixtureField true "Query" "user" "User" [("id", "$id")]
             (fixtureUserFields true)] →
      ∃ both,
        Flattens canonicalOrder (fixtureDocument true)
          (contributions (fieldKey a n) fields) both ∧
        merged ≈ both.
Proof.
  apply (C5_merged_children canonicalOrder (fixtureDocument true)).
  exists 6. vm_compute. reflexivity.
Defined.

(** C6: flattening a flattened selection set returns, and returns it up to
    order at every level; in particular the response keys are the same
    multiset.  The two runs may iterate their maps in different orders. *)
Theorem C6_idempotent order order' doc fuel (ss r : SelectionSet) :
  flattenSelectionSet order doc fuel ss = Some r →
  (∃ fuel' r', flattenSelectionSet order' doc fuel' r = Some r') ∧
  ∀ fuel' r', flattenSelectionSet order' doc fuel' r = Some r' →
    r' ≈ r ∧ selResponseKey <$> r' ≡ₚ selResponseKey <$> r.
Proof.
  intros H. pose proof (flattenSelectionSet_flat _ _ _ _ _ H) as Hflat. split.
  - destruct (flatten_flat order' doc r Hflat) as (fuel' & r' & Hr' & _). eauto.
  - intros fuel' r' Hr'.
    pose proof (flattenSelectionSet_idem _ _ _ _ _ Hflat Hr') as Heq.
    split; [done|]. destruct Heq as (mid & Hp & HF). rewrite Hp.
    apply reflexive_eq. clear -HF.
    induction HF as [|x y l l' Hxy _ IH]; [done|].
    rewrite !fmap_cons. f_equal; [by apply selEquiv_responseKey|done].
Qed.

Lemma C6_idempotent_witness :
  (∃ fuel' r', flattenSelectionSet reverseOrder emptyDoc fuel'
                 [leaf "" "id"; leaf "" "name"] = Some r') ∧
  ∀ fuel' r', flattenSelectionSet reverseOrder emptyDoc fuel'
                [leaf "" "id"; leaf "" "name"] = Some r' →
    r' ≈ [leaf "" "id"; leaf "" "name"] ∧
    selResponseKey <$> r' ≡ₚ selResponseKey <$> [leaf "" "id"; leaf "" "name"].
Proof.
  apply (C6_idempotent canonicalOrder reverseOrder emptyDoc 2
           [leaf "" "id"; leaf "" "name"; leaf "" "id"]).
  vm_compute. reflexivity.
Defined.

(** C7: when a fragment of a selection set (an inline fragment, or a spread
    that resolves) is replaced by its flattened contents, the run on the new
    set returns exactly when the run on the original does, and the two
    results are equal up to order at every level. *)
Theorem C7_fragment_transparency order doc (pre post : SelectionSet) frag
    (contents c : SelectionSet) :
  fragmentContents doc frag = Some contents →
  Flattens order doc contents c →
  (∀ r, Flattens order doc (pre ++ frag :: post) r →
        ∃ r', Flattens order doc (pre ++ c ++ post) r' ∧ r ≈ r') ∧
  (∀ r', Flattens order doc (pre ++ c ++ post) r' →
         ∃ r, Flattens order doc (pre ++ frag :: post) r ∧ r ≈ r').
Proof.
  intros Hfrag [fuel0 Hc].
  destruct (transparency_fuel order order order doc pre frag post contents c fuel0
              Hfrag Hc) as [N HN].
  split.
  - intros r (fuel' & Hfuel')%(Flattens_fuel _ _ _ _ N).
    destruct Hfuel' as [Hle Hr]. specialize (HN fuel' Hle). rewrite Hr in HN.
    apply option_Forall2_Some_l in HN as (r' & Hr' & Hrr').
    exists r'. split; [by eexists|done].
  - intros r' (fuel' & Hfuel')%(Flattens_fuel _ _ _ _ N).
    destruct Hfuel' as [Hle Hr']. specialize (HN fuel' Hle). rewrite Hr' in HN.
    apply option_Forall2_Some_r in HN as (r & Hr & Hrr').
    exists r. split; [by eexists|done].
Qed.

Lemma C7_fragment_transparency_witness :
  (∀ r, Flattens canonicalOrder (fixtureDocument true)
          ([leaf "" "id"] ++ FragmentSpread "UserFragment" :: [leaf "" "email"]) r →
        ∃ r', Flattens canonicalOrder (fixtureDocument true)
                ([leaf "" "id"] ++ fixtureUserFields true ++ [leaf "" "email"]) r' ∧
              r ≈ r') ∧
  (∀ r', Flattens canonicalOrder (fixtureDocument true)
           ([leaf "" "id"] ++ fixtureUserFields true ++ [leaf "" "email"]) r' →
         ∃ r, Flattens canonicalOrder (fixtureDocument true)
                ([leaf "" "id"] ++ FragmentSpread "UserFragment" :: [leaf "" "email"]) r ∧
              r ≈ r').
Proof.
  apply (C7_fragment_transparency canonicalOrder (fixtureDocument true)
           [leaf "" "id"] [leaf "" "email"] (FragmentSpread "UserFragment")
           (fixtureUserFields true)).
  - reflexivity.
  - exists 2. vm_compute. reflexivity.
Defined.

(** C9: two inputs (selection set and document) that differ only in the
    type conditions of inline fragments have the same result. *)
Theorem C9_type_conditions_ignored order doc1 doc2 fuel (ss1 ss2 : SelectionSet) :
  eraseSet ss1 = eraseSet ss2 →
  eraseDocument doc1 = eraseDocument doc2 →
  flattenSelectionSet order doc1 fuel ss1 = flattenSelectionSet order doc2 fuel ss2.
Proof.
  intros Hss Hdoc.
  rewrite (flattenSelectionSet_erase order doc1), (flattenSelectionSet_erase order doc2).
  by rewrite Hss, Hdoc.
Qed.

Lemma C9_type_conditions_ignored_witness :
  flattenSelectionSet canonicalOrder emptyDoc 3
    [leaf "" "id"; InlineFragment "Dog" [leaf "" "name"; leaf "" "id"]]
  = flattenSelectionSet canonicalOrder emptyDoc 3
      [leaf "" "id"; InlineFragment "Cat" [leaf "" "name"; leaf "" "id"]].
Proof.
  apply (C9_type_conditions_ignored canonicalOrder emptyDoc emptyDoc 3); reflexivity.
Defined.

(** C10: when the fragment reference graph of the document is acyclic, the
    run on any selection set returns, given enough fuel. *)
Theorem C10_terminates order doc (ss : SelectionSet) :
  Acyclic doc → ∃ fuel r, flattenSelectionSet order doc fuel ss = Some r.
Proof.
  intros Hacyclic. destruct (acyclic_fits doc Hacyclic ss) as [n Hn].
  destruct (flattenSelectionSet_total order doc n ss Hn) as (r & Hr & _).
  by exists (S n), r.
Qed.

Lemma fixtureDocument_acyclic aliased : Acyclic (fixtureDocument aliased).
Proof.
  assert (∀ a b, ¬ references (fixtureDocument aliased) a b) as Hno.
  { intros a b (fd & Hfd & Hb). unfold findFragmentDefinition in Hfd.
    simpl in Hfd. repeat case_decide; simplify_eq; destruct aliased;
      by apply elem_of_nil in Hb. }
  intros a H. destruct H as [?? H|??? H _]; by apply Hno in H.
Defined.

Lemma C10_terminates_witness :
  ∃ fuel r, flattenSelectionSet canonicalOrder (fixtureDocument true) fuel
              (OpSelections (fixtureOperation true)) = Some r.
Proof.
  apply (C10_terminates canonicalOrder (fixtureDocument true)).
  apply fixtureDocument_acyclic.
Defined.

Lemma cyclic_spread_diverges order fuel :
  flattenSelectionSet order cyclicDocument fuel [FragmentSpread "Loop"] = None.
Proof.
  induction fuel as [|fuel IH]; [done|].
  cbn [flattenSelectionSet foldlM stepSelection].
  change (findFragmentDefinition cyclicDocument "Loop")
    with (Some (mkFragment "Loop" "User" [FragmentSpread "Loop"])).
  cbn [FragSelections]. by rewrite IH.
Qed.

(** ** Every [range] with an order of its own *)

Lemma oracle_run order doc (ss r : SelectionSet) :
  Flattens order doc ss r → Run doc ss r.
Proof. intros [fuel Hr]. exists fuel. by eapply flattenSelectionSet_run. Qed.

(** Go may iterate in a different order at every [range], also over maps
    with the same keys.  Whatever the orders of a run, its result is, up
    to order at every level, the result of the run under any [MapOrder],
    which returns too.  (Every run under a [MapOrder] is such a run:
    [oracle_run].) *)
Theorem run_agrees order doc (ss r : SelectionSet) :
  Run doc ss r → ∃ r0, Flattens order doc ss r0 ∧ r ≈ r0.
Proof.
  intros [fuel Hr].
  destruct (RunN_sim order doc fuel ss ss r (inputRel_refl _) Hr) as (r0 & Hr0 & Heq & _).
  exists r0. split; [by exists fuel|done].
Qed.

(** A run in which two maps with the same keys are iterated in two
    orders: the children of [u] come out as [a, b], those of [v] as
    [b, a]. *)
Lemma mixed_run :
  Run emptyDoc
    [node "" "u" [leaf "" "a"; leaf "" "b"]; node "" "v" [leaf "" "a"; leaf "" "b"]]
    [node "" "u" [leaf "" "a"; leaf "" "b"]; node "" "v" [leaf "" "b"; leaf "" "a"]].
Proof.
  assert (RunN emptyDoc 1 [] []) as Hnil.
  { exists ∅. split; [constructor|done]. }
  assert (∀ r, r ≡ₚ [leaf "" "a"; leaf "" "b"] →
               RunN emptyDoc 2 [leaf "" "a"; leaf "" "b"] r) as Hab.
  { intros r Hr. eexists. split.
    - econstructor; [by apply step_new|]. econstructor; [by apply step_new|]. constructor.
    - rewrite Hr. vm_compute. reflexivity. }
  exists 3. eexists. split.
  - econstructor; [apply step_new; [done|apply (Hab [leaf "" "a"; leaf "" "b"]); done]|].
    econstructor;
      [apply step_new; [done|apply (Hab [leaf "" "b"; leaf "" "a"]); apply Permutation_swap]|].
    constructor.
  - vm_compute. reflexivity.
Qed.

(** No [MapOrder] gives that result: a [MapOrder] orders the keys [a], [b]
    in one way. *)
Lemma mixed_run_no_oracle order fuel :
  flattenSelectionSet order emptyDoc fuel
    [node "" "u" [leaf "" "a"; leaf "" "b"]; node "" "v" [leaf "" "a"; leaf "" "b"]]
  ≠ Some [node "" "u" [leaf "" "a"; leaf "" "b"]; node "" "v" [leaf "" "b"; leaf "" "a"]].
Proof.
  destruct fuel as [|fuel]; [done|]. rewrite flattenSelectionSet_unfold.
  unfold node at 1 2. cbn [foldlM]. rewrite !stepSelection_field. unfold updateKey.
  rewrite lookup_empty. cbn [mergedEntry].
  destruct (flattenSelectionSet order emptyDoc fuel [leaf "" "a"; leaf "" "b"])
    as [c|] eqn:Ec; cbn [mbind option_bind]; [|done].
  rewrite stepSelection_field. unfold updateKey.
  rewrite lookup_insert_ne by (by vm_compute).
  rewrite lookup_empty. cbn [mergedEntry]. rewrite Ec. cbn [mbind option_bind].
  intros [= Hr].
  assert (∀ x, x ∈ [node "" "u" [leaf "" "a"; leaf "" "b"];
                    node "" "v" [leaf "" "b"; leaf "" "a"]] → children x = c) as Hall.
  { intros x Hx. rewrite <- Hr in Hx.
    apply mapValues_elem_of in Hx as (k & f & Hk & ->).
    apply lookup_insert_Some in Hk as [[_ <-]|[_ Hk]]; [done|].
    by apply lookup_insert_Some in Hk as [[_ <-]|[_ Hk]]. }
  pose proof (Hall _ ltac:(left)) as H1.
  pose proof (Hall _ ltac:(right; left)) as H2.
  unfold node, leaf in H1, H2. simpl in H1, H2. rewrite <- H1 in H2. by simplify_eq.
Qed.

Lemma run_agrees_witness :
  ∃ r0,
    Flattens canonicalOrder emptyDoc
      [node "" "u" [leaf "" "a"; leaf "" "b"]; node "" "v" [leaf "" "a"; leaf "" "b"]]
      r0 ∧
    [node "" "u" [leaf "" "a"; leaf "" "b"]; node "" "v" [leaf "" "b"; leaf "" "a"]] ≈ r0.
Proof. apply (run_agrees canonicalOrder emptyDoc). apply mixed_run. Defined.

(** ** Inlining *)

(** [flatten] inlines fragments: when a fragment of a selection set (an
    inline fragment, or a spread that resolves) is replaced by its
    contents, as they stand in the document, the run on the new set
    returns exactly when the run on the original does, and the two results
    are equal up to order at every level. *)
Theorem flatten_inlines_fragment order doc (pre post : SelectionSet) frag
    (contents : SelectionSet) :
  fragmentContents doc frag = Some contents →
  (∀ r, Flattens order doc (pre ++ frag :: post) r →
        ∃ r', Flattens order doc (pre ++ contents ++ post) r' ∧ r ≈ r') ∧
  (∀ r', Flattens order doc (pre ++ contents ++ post) r' →
         ∃ r, Flattens order doc (pre ++ frag :: post) r ∧ r ≈ r').
Proof.
  intros Hfrag.
  destruct (inline_fragment_same order doc pre post frag contents Hfrag) as [H1 H2].
  by split.
Qed.

(** [flatten] merges piecewise: flattening two selection sets one after
    the other gives, up to order at every level, what flattening their
    flattened results one after the other gives. *)
Theorem flatten_app order doc (A B a b : SelectionSet) :
  Flattens order doc A a → Flattens order doc B b →
  ∃ r r', Flattens order doc (A ++ B) r ∧ Flattens order doc (a ++ b) r' ∧ r ≈ r'.
Proof.
  intros [fa Ha] [fb Hb].
  set (n := fa `max` fb).
  assert (flattenSelectionSet order doc (S n) A = Some a) as Ha'.
  { eapply flattenSelectionSet_mono; [|exact Ha]. lia. }
  assert (flattenSelectionSet order doc (S n) B = Some b) as Hb'.
  { eapply flattenSelectionSet_mono; [|exact Hb]. lia. }
  pose proof (returns_fits _ _ _ _ _ Ha') as HA.
  pose proof (returns_fits _ _ _ _ _ Hb') as HB.
  destruct (flattenSelectionSet_total order doc n A HA) as (a' & Ha'' & Hafit).
  assert (a' = a) as -> by congruence.
  pose proof (absorb_total order doc n (S n) A B a ltac:(lia) HA HB Ha') as H1.
  pose proof (absorb_suffix order doc n (S n) a B b ltac:(lia) Hafit HB Hb') as H2.
  destruct (flattenSelectionSet_total order doc n (A ++ B)) as (r & Hr & _).
  { by rewrite fits_app, HA, HB. }
  rewrite Hr in H1. apply option_Forall2_Some_r in H1 as (x & Hx & Hxr).
  rewrite Hx in H2. apply option_Forall2_Some_r in H2 as (r' & Hr' & Hr'x).
  exists r, r'. split_and!; [by eexists|by eexists|].
  apply setEquiv_sym. by eapply setEquiv_trans.
Qed.

Lemma flatten_inlines_fragment_witness :
  (∀ r, Flattens canonicalOrder (fixtureDocument true)
          ([leaf "" "id"] ++ FragmentSpread "UserFragment" :: [leaf "" "email"]) r →
        ∃ r', Flattens canonicalOrder (fixtureDocument true)
                ([leaf "" "id"] ++ fixtureUserFields true ++ [leaf "" "email"]) r' ∧
              r ≈ r') ∧
  (∀ r', Flattens canonicalOrder (fixtureDocument true)
           ([leaf "" "id"] ++ fixtureUserFields true ++ [leaf "" "email"]) r' →
         ∃ r, Flattens canonicalOrder (fixtureDocument true)
                ([leaf "" "id"] ++ FragmentSpread "UserFragment" :: [leaf "" "email"]) r ∧
              r ≈ r').
Proof.
  apply (flatten_inlines_fragment canonicalOrder (fixtureDocument true)
           [leaf "" "id"] [leaf "" "email"] (FragmentSpread "UserFragment")
           (fixtureUserFields true)).
  reflexivity.
Defined.

Lemma flatten_app_witness :
  ∃ r r',
    Flattens canonicalOrder emptyDoc
      ([node "" "user" [leaf "" "id"]; node "" "user" [leaf "" "name"]] ++
       [InlineFragment "User" [node "" "user" [leaf "" "id"]]; leaf "" "id"]) r ∧
    Flattens canonicalOrder emptyDoc
      ([node "" "user" [leaf "" "id"; leaf "" "name"]] ++
       [node "" "user" [leaf "" "id"]; leaf "" "id"]) r' ∧
    r ≈ r'.
Proof.
  apply (flatten_app canonicalOrder emptyDoc
           [node "" "user" [leaf "" "id"]; node "" "user" [leaf "" "name"]]
           [InlineFragment "User" [node "" "user" [leaf "" "id"]]; leaf "" "id"]);
    exists 4; vm_compute; reflexivity.
Defined.

(** ** The children of an entry, as the loops meet the fields *)

(** The same in the terms of the loops: the children of an entry are, up to
    order at every level, what flattening the concatenation of the
    contributors' selection sets gives: the selection sets of all the
    fields the loops met with the key of the entry, one after the other,
    each as it was when the field was met.  The fields met are the fields
    of the selection set and, for a fragment, the fields of its flattened
    contents. *)
Theorem merged_children_as_met order doc fuel (ss r : SelectionSet) :
  flattenSelectionSet order doc fuel ss = Some r →
  ∃ met,
    encounteredSet doc (flattenSelectionSet order doc (pred fuel)) ss = Some met ∧
    ∀ a n i merged, FieldSel a n i merged ∈ r →
      ∃ both, Flattens order doc (contributions (fieldKey a n) met) both ∧
              merged ≈ both.
Proof.
  destruct fuel as [|fuel]; [done|]. cbn [flattenSelectionSet pred].
  destruct (foldlM _ ∅ ss) as [m|] eqn:E; simpl; [|done]. intros [= <-].
  destruct (foldSelections_merge order doc fuel ss ∅ [] m
              (entriesMerge_empty order doc) E) as (met & Hmet & Hok & _ & Hsome).
  exists met. split; [done|].
  intros a n i merged (k & f & Hk & Hf)%mapValues_elem_of.
  destruct (Hok _ _ Hk) as [<- _]. destruct (Hsome _ _ Hk) as (both & Hboth & Heq).
  destruct f as [fa fn fi fs]. injection Hf as -> -> -> ->. by exists both.
Qed.

Lemma merged_children_as_met_witness :
  ∃ met,
    encounteredSet emptyDoc (flattenSelectionSet canonicalOrder emptyDoc (pred 4))
      [node "" "user" [leaf "" "id"; leaf "" "name"];
       InlineFragment "User" [node "" "user" [leaf "" "name"; leaf "" "email"]];
       node "" "user" [leaf "" "id"]] = Some met ∧
    ∀ a n i merged,
      FieldSel a n i merged
        ∈ [node "" "user" [leaf "" "email"; leaf "" "id"; leaf "" "name"]] →
      ∃ both, Flattens canonicalOrder emptyDoc (contributions (fieldKey a n) met) both ∧
              merged ≈ both.
Proof.
  apply (merged_children_as_met canonicalOrder emptyDoc 4).
  vm_compute. reflexivity.
Defined.

(** ** The order of the map iteration *)

(** The order in which Go ranges over [fieldMap] is not specified.  Two runs
    of [flatten] on the same operation, under any two orders, return
    together; the operations they return differ in the order of siblings
    only, at any level of the flattened selection set. *)
Theorem flatten_order_independent order1 order2 doc fuel op :
  option_Forall2
    (λ o1 o2, OpSelections o1 ≈ OpSelections o2 ∧
              o2 = mkOperation (OpKind o1) (OpName o1) (VariableDefinitions o1)
                     (OpDirectives o1) (OpSelections o2) (OpPosition o1) (OpComment o1))
    (flatten order1 doc fuel op) (flatten order2 doc fuel op).
Proof.
  unfold flatten.
  pose proof (flattenSelectionSet_sim order1 order2 doc fuel
                (OpSelections op) (OpSelections op) (inputRel_refl _)) as Hsim.
  destruct Hsim as [r1 r2 Hr|]; simpl; constructor. by split.
Qed.

(** * Part 6, continued: the rest of the package *)

(** ** [findFragmentDefinition] *)

Lemma findFragment_split frags name fd :
  findFragment frags name = Some fd →
  ∃ before after, frags = before ++ fd :: after ∧
    name ∉ FragName <$> before.
Proof.
  induction frags as [|f frags IH]; simpl; [done|].
  case_decide as Hf.
  - intros [= ->]. exists [], frags. split; [done|]. by intros ?%elem_of_nil.
  - intros (before & after & -> & Hno)%IH. exists (f :: before), after.
    split; [done|]. rewrite fmap_cons.
    by intros [?|?]%elem_of_cons.
Qed.

Lemma findFragment_None frags name :
  findFragment frags name = None ↔ name ∉ FragName <$> frags.
Proof.
  induction frags as [|f frags IH]; simpl.
  - split; [by intros _ ?%elem_of_nil|done].
  - rewrite not_elem_of_cons. case_decide as Hf.
    + split; [done|]. by intros [? _].
    + rewrite IH. split; [by intros ?; split; [congruence|]|by intros [_ ?]].
Qed.

(** The lookup returns the first definition of the document with the name:
    the definition it returns has the name and no definition before it
    has; it returns none exactly when no definition has the name. *)
Theorem findFragmentDefinition_first doc name :
  match findFragmentDefinition doc name with
  | Some fd =>
      FragName fd = name ∧
      ∃ before after, Fragments doc = before ++ fd :: after ∧
        name ∉ FragName <$> before
  | None => name ∉ FragName <$> Fragments doc
  end.
Proof.
  unfold findFragmentDefinition.
  destruct (findFragment (Fragments doc) name) as [fd|] eqn:E.
  - split; [by apply findFragment_Some in E as [? _]|].
    by apply findFragment_split.
  - by apply findFragment_None.
Qed.

(** ** The document, as far as the flattening reads it *)

Lemma foldlM_ext {A B} (f g : B → A → option B) :
  (∀ b x, f b x = g b x) → ∀ l b, foldlM f b l = foldlM g b l.
Proof.
  intros Hfg l. induction l as [|x l IH]; intros b; simpl; [done|].
  rewrite Hfg. destruct (g b x); simpl; auto.
Qed.

Lemma foldFragmentField_ext (rec rec' : SelectionSet → option SelectionSet) :
  (∀ l, rec l = rec' l) → ∀ m s, foldFragmentField rec m s = foldFragmentField rec' m s.
Proof.
  intros Hrec m s. destruct s as [a n i cs| |]; simpl; [|done..].
  destruct (m !! fieldKey a n); [|done]. by rewrite Hrec.
Qed.

Lemma stepSelection_ext doc doc' (rec rec' : SelectionSet → option SelectionSet) :
  (∀ name, findFragmentDefinition doc name = findFragmentDefinition doc' name) →
  (∀ l, rec l = rec' l) →
  ∀ m s, stepSelection doc rec m s = stepSelection doc' rec' m s.
Proof.
  intros Hdoc Hrec m s. destruct s as [a n i cs|tc cs|name]; simpl.
  - destruct (m !! fieldKey a n); by rewrite Hrec.
  - rewrite Hrec. destruct (rec' cs); simpl; [|done].
    apply foldlM_ext. by apply foldFragmentField_ext.
  - rewrite Hdoc. destruct (findFragmentDefinition doc' name); [|done].
    rewrite Hrec. destruct (rec' _); simpl; [|done].
    apply foldlM_ext. by apply foldFragmentField_ext.
Qed.

Lemma flattenSelectionSet_ext order doc doc' :
  (∀ name, findFragmentDefinition doc name = findFragmentDefinition doc' name) →
  ∀ fuel ss, flattenSelectionSet order doc fuel ss
             = flattenSelectionSet order doc' fuel ss.
Proof.
  intros Hdoc. induction fuel as [|fuel IH]; intros ss; [done|].
  rewrite !flattenSelectionSet_unfold.
  by rewrite (foldlM_ext _ _ (stepSelection_ext doc doc' _ _ Hdoc IH)).
Qed.

Lemma findFragment_app frags more name :
  findFragment (frags ++ more) name
  = match findFragment frags name with
    | Some fd => Some fd
    | None => findFragment more name
    end.
Proof.
  induction frags as [|f frags IH]; simpl; [by destruct (findFragment more name)|].
  by case_decide.
Qed.

(** A definition whose name an earlier definition has is never read, and
    neither are the operations of the document: with such definitions
    added behind the others, and with any operations, the run on a
    selection set is the same run. *)
Theorem flatten_shadowed_definition order doc ops (more : list FragmentDefinition)
    fuel ss :
  Forall (λ fd, FragName fd ∈ FragName <$> Fragments doc) more →
  flattenSelectionSet order (mkDocument ops (Fragments doc ++ more)) fuel ss
  = flattenSelectionSet order doc fuel ss.
Proof.
  intros Hmore. apply flattenSelectionSet_ext. intros name.
  unfold findFragmentDefinition. simpl. rewrite findFragment_app.
  destruct (findFragment (Fragments doc) name) as [fd|] eqn:E; [done|].
  apply findFragment_None in E. apply findFragment_None.
  intros (fd & -> & Hfd)%list_elem_of_fmap.
  rewrite Forall_forall in Hmore. apply E, Hmore. by apply list_elem_of_In.
Qed.

Lemma flatten_shadowed_definition_witness :
  flattenSelectionSet canonicalOrder
    (mkDocument [] (Fragments (fixtureDocument true)
                    ++ [mkFragment "UserFragment" "User" [leaf "" "email"]]))
    4 (OpSelections (fixtureOperation true))
  = flattenSelectionSet canonicalOrder (fixtureDocument true) 4
      (OpSelections (fixtureOperation true)).
Proof.
  apply (flatten_shadowed_definition canonicalOrder (fixtureDocument true)).
  repeat constructor.
Defined.

(** ** The number of fields *)

Lemma sumM_app {A} (g : A → option nat) (l1 l2 : list A) :
  sumM g (l1 ++ l2) = c1 ← sumM g l1; c2 ← sumM g l2; Some (c1 + c2).
Proof.
  induction l1 as [|x l1 IH]; simpl.
  - by destruct (sumM g l2).
  - destruct (g x) as [c|]; simpl; [|done]. rewrite IH.
    destruct (sumM g l1) as [c1|]; simpl; [|done].
    destruct (sumM g l2) as [c2|]; simpl; [|done]. f_equal. lia.
Qed.

Lemma sizeSet_app (l1 l2 : SelectionSet) :
  sizeSet (l1 ++ l2) = sizeSet l1 + sizeSet l2.
Proof. apply sum_list_with_app. Qed.

Lemma fieldCount_app doc fuel (l1 l2 : SelectionSet) :
  fieldCount doc fuel (l1 ++ l2)
  = c1 ← fieldCount doc fuel l1; c2 ← fieldCount doc fuel l2; Some (c1 + c2).
Proof. destruct fuel; [done|apply sumM_app]. Qed.

(** Where there are only fields, the count is the number of fields. *)
Lemma fieldCount_fieldsOnly doc fuel : ∀ l c,
  fieldsOnly l = true → fieldCount doc fuel l = Some c → c = sizeSet l.
Proof.
  induction fuel as [|fuel IH]; [done|].
  induction l as [|s l IHl]; intros c Hl Hc; simpl in Hc.
  - by injection Hc as <-.
  - apply andb_true_iff in Hl as [Hs Hl].
    destruct s as [a n i cs| |]; simpl in Hs; [|done..]. simpl in Hc.
    destruct (fieldCount doc fuel cs) as [c1|] eqn:E1; simpl in Hc; [|done].
    destruct (sumM _ l) as [c2|] eqn:E2; simpl in Hc; [|done].
    injection Hc as <-. rewrite (IH _ _ Hs E1), (IHl _ Hl E2). done.
Qed.

Lemma mapSize_empty : mapSize ∅ = 0.
Proof. unfold mapSize. by rewrite map_to_list_empty. Qed.

Lemma mapSize_insert_new (m : gmap string Field) k v :
  m !! k = None → mapSize (<[k := v]> m) = mapSize m + S (sizeSet (Selections v)).
Proof.
  intros Hk. unfold mapSize. rewrite (map_to_list_insert m k v Hk). simpl. lia.
Qed.

Lemma mapSize_insert_old (m : gmap string Field) k old v :
  m !! k = Some old →
  mapSize (<[k := v]> m) + sizeSet (Selections old)
  = mapSize m + sizeSet (Selections v).
Proof.
  intros Hk. unfold mapSize.
  rewrite <- (insert_delete_eq m k v).
  rewrite (map_to_list_insert (delete k m) k v) by apply lookup_delete_eq.
  rewrite <- (map_to_list_delete m k old Hk). simpl. lia.
Qed.

Lemma mapSize_values order (m : gmap string Field) :
  sizeSet (mapValues order m) = mapSize m.
Proof.
  unfold sizeSet, mapSize. rewrite (mapValues_perm order m).
  induction (map_to_list m) as [|[k f] l IH]; [done|].
  rewrite fmap_cons. cbn [sum_list_with]. by rewrite IH.
Qed.

Section Count.
Variable doc : QueryDocument.
Variable rec : SelectionSet → option SelectionSet.
Variable cnt : SelectionSet → option nat.
Hypothesis Hflat : recFlat rec.
Hypothesis Hcnt : ∀ l r, rec l = Some r → ∃ c, cnt l = Some c ∧ sizeSet r ≤ c.
Hypothesis Happ : ∀ l1 l2,
  cnt (l1 ++ l2) = c1 ← cnt l1; c2 ← cnt l2; Some (c1 + c2).
Hypothesis Hfields : ∀ l c, fieldsOnly l = true → cnt l = Some c → c = sizeSet l.

Lemma merged_size (E cs merged : SelectionSet) :
  flatSet E = true → rec (E ++ cs) = Some merged →
  ∃ c, cnt cs = Some c ∧ sizeSet merged ≤ sizeSet E + c.
Proof.
  intros HE Hm. destruct (Hcnt _ _ Hm) as (c' & Hc' & Hle).
  rewrite Happ in Hc'.
  destruct (cnt E) as [c1|] eqn:E1; simpl in Hc'; [|done].
  destruct (cnt cs) as [c2|] eqn:E2; simpl in Hc'; [|done].
  injection Hc' as <-. exists c2. split; [done|].
  by rewrite <- (Hfields E c1 (flatSet_fieldsOnly _ HE) E1).
Qed.

Lemma foldFragmentField_size m s m' :
  mapOK m → flatSel s = true → foldFragmentField rec m s = Some m' →
  mapSize m' ≤ mapSize m + sizeSel s.
Proof.
  intros Hok Hs Hstep. destruct s as [a n i G| |]; [|done..].
  rewrite flatSel_field in Hs. simpl in Hstep.
  destruct (m !! fieldKey a n) as [existing|] eqn:Ek.
  - destruct (rec (Selections existing ++ G)) as [merged|] eqn:Em;
      simpl in Hstep; [|done]. injection Hstep as <-.
    destruct (Hok _ _ Ek) as [_ HE].
    destruct (merged_size _ _ _ HE Em) as (c & Hc & Hle).
    rewrite (Hfields G c (flatSet_fieldsOnly _ Hs) Hc) in Hle.
    pose proof (mapSize_insert_old m _ existing (setSelections existing merged) Ek)
      as Hsz.
    simpl in Hsz |- *. fold (sizeSet G). lia.
  - injection Hstep as <-. rewrite mapSize_insert_new by done. simpl.
    fold (sizeSet G). lia.
Qed.

Lemma foldFragment_size : ∀ l m m',
  mapOK m → flatSet l = true → foldlM (foldFragmentField rec) m l = Some m' →
  mapSize m' ≤ mapSize m + sizeSet l.
Proof.
  intros l m m' Hok [Hall _]%flatSet_spec. revert m Hok.
  induction Hall as [|s l Hs _ IH]; intros m Hok Hfold; simpl in Hfold.
  - injection Hfold as <-. simpl. lia.
  - destruct (foldFragmentField rec m s) as [m1|] eqn:E1; simpl in Hfold; [|done].
    pose proof (foldFragmentField_size _ _ _ Hok Hs E1).
    pose proof (IH m1 (foldFragmentField_ok rec Hflat _ _ _ Hok Hs E1) Hfold).
    unfold sizeSet in *. simpl. lia.
Qed.

Lemma stepSelection_size m s m' :
  mapOK m → stepSelection doc rec m s = Some m' →
  ∃ c, fieldCountSel doc cnt s = Some c ∧ mapSize m' ≤ mapSize m + c.
Proof.
  intros Hok Hstep.
  assert (∀ contents, rec contents ≫= (λ c, foldlM (foldFragmentField rec) m c)
                      = Some m' →
            ∃ c, cnt contents = Some c ∧ mapSize m' ≤ mapSize m + c) as Hfrag.
  { intros contents H.
    destruct (rec contents) as [c|] eqn:Ec; simpl in H; [|done].
    destruct (Hcnt _ _ Ec) as (cc & Hcc & Hle). exists cc. split; [done|].
    pose proof (foldFragment_size _ _ _ Hok (Hflat _ _ Ec) H). lia. }
  destruct s as [a n i cs|tc cs|name]; simpl in Hstep |- *.
  - destruct (m !! fieldKey a n) as [existing|] eqn:Ek.
    + destruct (rec (Selections existing ++ cs)) as [merged|] eqn:Em;
        simpl in Hstep; [|done]. injection Hstep as <-.
      destruct (Hok _ _ Ek) as [_ HE].
      destruct (merged_size _ _ _ HE Em) as (c & -> & Hle).
      exists (S c). split; [done|].
      pose proof (mapSize_insert_old m _ existing (setSelections existing merged) Ek)
        as Hsz.
      simpl in Hsz. lia.
    + destruct (rec cs) as [flattened|] eqn:Ef; simpl in Hstep; [|done].
      injection Hstep as <-. destruct (Hcnt _ _ Ef) as (c & -> & Hle).
      exists (S c). split; [done|]. rewrite mapSize_insert_new by done.
      simpl. lia.
  - by apply Hfrag.
  - destruct (findFragmentDefinition doc name) as [fd|]; [by apply Hfrag|].
    injection Hstep as <-. exists 0. split; [done|lia].
Qed.

Lemma foldSelections_size : ∀ l m m',
  mapOK m → foldlM (stepSelection doc rec) m l = Some m' →
  ∃ c, sumM (fieldCountSel doc cnt) l = Some c ∧ mapSize m' ≤ mapSize m + c.
Proof.
  induction l as [|s l IH]; intros m m' Hok Hfold; simpl in Hfold.
  - injection Hfold as <-. exists 0. split; [done|lia].
  - destruct (stepSelection doc rec m s) as [m1|] eqn:E1; simpl in Hfold; [|done].
    destruct (stepSelection_size _ _ _ Hok E1) as (c1 & Hc1 & Hle1).
    destruct (IH m1 m' (stepSelection_ok doc rec Hflat _ _ _ Hok E1) Hfold)
      as (c2 & Hc2 & Hle2).
    exists (c1 + c2). simpl. rewrite Hc1. simpl. rewrite Hc2. simpl.
    split; [done|lia].
Qed.
End Count.

Lemma flattenSelectionSet_size order doc fuel : ∀ ss r,
  flattenSelectionSet order doc fuel ss = Some r →
  ∃ c, fieldCount doc fuel ss = Some c ∧ sizeSet r ≤ c.
Proof.
  induction fuel as [|fuel IH]; intros ss r Hr; [done|].
  rewrite flattenSelectionSet_unfold in Hr.
  destruct (foldlM _ ∅ ss) as [m|] eqn:E; simpl in Hr; [|done].
  injection Hr as <-.
  destruct (foldSelections_size doc _ (fieldCount doc fuel)
              (flattenSelectionSet_flat order doc fuel) IH
              (fieldCount_app doc fuel) (fieldCount_fieldsOnly doc fuel)
              ss ∅ m mapOK_empty E) as (c & Hc & Hle).
  exists c. split; [done|]. rewrite mapSize_values, mapSize_empty in *. lia.
Qed.

(** Flattening never adds a field: at all levels together the result has
    at most as many fields as the selection set has with its fragments
    expanded, every occurrence counted. *)
Theorem flatten_no_more_fields order doc fuel (ss r : SelectionSet) :
  flattenSelectionSet order doc fuel ss = Some r →
  ∃ c, fieldCount doc fuel ss = Some c ∧ sizeSet r ≤ c.
Proof. apply flattenSelectionSet_size. Qed.

Lemma flatten_no_more_fields_witness :
  ∃ r, flattenSelectionSet canonicalOrder (fixtureDocument true) 4
         (OpSelections (fixtureOperation true)) = Some r ∧
       sizeSet r = 3 ∧
       ∃ c, fieldCount (fixtureDocument true) 4
              (OpSelections (fixtureOperation true)) = Some c ∧ sizeSet r ≤ c.
Proof.
  eexists. split; [reflexivity|]. split; [reflexivity|].
  apply (flatten_no_more_fields canonicalOrder (fixtureDocument true) 4).
  reflexivity.
Defined.

(** ** The first field of a key *)

Lemma firstField_app k (l1 l2 : SelectionSet) :
  firstField k (l1 ++ l2)
  = match firstField k l1 with
    | Some s => Some s
    | None => firstField k l2
    end.
Proof.
  induction l1 as [|s l1 IH]; simpl; [by destruct (firstField k l2)|].
  destruct s as [a n i cs| |]; [|done..]. by case_decide.
Qed.

Lemma firstField_split k (l : SelectionSet) s :
  Forall (λ x, isField x = true) l → firstField k l = Some s →
  ∃ before after, l = before ++ s :: after ∧ selKey s = k ∧
    k ∉ selKey <$> before.
Proof.
  induction 1 as [|x l Hx _ IH]; simpl; [done|].
  destruct x as [a n i cs| |]; [|done..]. case_decide as Hk.
  - intros [= <-]. exists [], l. split; [done|]. split; [done|].
    by intros ?%elem_of_nil.
  - intros (before & after & -> & Hs & Hno)%IH.
    exists (FieldSel a n i cs :: before), after. split; [done|].
    split; [done|]. rewrite fmap_cons. simpl.
    intros [?|?]%elem_of_cons; [congruence|done].
Qed.

Lemma firstField_None k (l : SelectionSet) :
  Forall (λ x, isField x = true) l →
  firstField k l = None ↔ k ∉ selKey <$> l.
Proof.
  induction 1 as [|x l Hx _ IH]; simpl.
  - split; [by intros _ ?%elem_of_nil|done].
  - destruct x as [a n i cs| |]; [|done..]. simpl.
    rewrite not_elem_of_cons. case_decide as Hk.
    + split; [done|]. by intros [? _].
    + rewrite IH. split; [by intros ?; split; [congruence|]|by intros [_ ?]].
Qed.

Lemma entriesFirst_empty : entriesFirst ∅ [].
Proof. intros k. by rewrite lookup_empty. Qed.

Section First.
Variable doc : QueryDocument.
Variable rec : SelectionSet → option SelectionSet.

Lemma stepSelection_first m a n i cs m' met :
  entriesFirst m met →
  stepSelection doc rec m (FieldSel a n i cs) = Some m' →
  entriesFirst m' (met ++ [FieldSel a n i cs]).
Proof.
  intros Hinv Hstep k. rewrite firstField_app. simpl in Hstep |- *.
  pose proof (Hinv k) as Hk. pose proof (Hinv (fieldKey a n)) as Hkey.
  destruct (m !! fieldKey a n) as [existing|] eqn:Ek.
  - destruct (rec (Selections existing ++ cs)) as [merged|];
      simpl in Hstep; [|done]. injection Hstep as <-.
    destruct (decide (fieldKey a n = k)) as [<-|Hne].
    + rewrite lookup_insert_eq. rewrite Ek in Hk. simpl in Hk |- *.
      destruct (firstField (fieldKey a n) met); [done|by simpl in Hk].
    + rewrite lookup_insert_ne by done. rewrite Hk.
      by destruct (firstField k met).
  - destruct (rec cs) as [flattened|]; simpl in Hstep; [|done].
    injection Hstep as <-.
    destruct (decide (fieldKey a n = k)) as [<-|Hne].
    + rewrite lookup_insert_eq. simpl in Hkey.
      by destruct (firstField (fieldKey a n) met).
    + rewrite lookup_insert_ne by done. rewrite Hk.
      by destruct (firstField k met).
Qed.

Lemma foldFields_first : ∀ l m m' met,
  Forall (λ x, isField x = true) l → entriesFirst m met →
  foldlM (stepSelection doc rec) m l = Some m' → entriesFirst m' (met ++ l).
Proof.
  induction l as [|s l IH]; intros m m' met Hl Hinv Hfold; simpl in Hfold.
  - injection Hfold as <-. by rewrite app_nil_r.
  - inversion Hl as [|?? Hs Hl']; subst.
    destruct (stepSelection doc rec m s) as [m1|] eqn:E1; simpl in Hfold; [|done].
    destruct s as [a n i cs| |]; [|done..].
    rewrite (cons_middle _ met l), app_assoc.
    eapply IH; [done| |done]. by eapply stepSelection_first.
Qed.
End First.

(** With the fragments of the selection set inlined, so that [fields] are
    the fields the set stands for: the result has the keys of [fields],
    and each of its fields is, apart from its selection set, the first of
    [fields] with its key. *)
Lemma inlined_first order doc fuel (ss fields r : SelectionSet) :
  inlineSet doc fuel ss = Some fields →
  Flattens order doc ss r →
  (∀ k, k ∈ selKey <$> r ↔ k ∈ selKey <$> fields) ∧
  ∀ a n i merged, FieldSel a n i merged ∈ r →
    ∃ before cs after, fields = before ++ FieldSel a n i cs :: after ∧
      fieldKey a n ∉ selKey <$> before.
Proof.
  unfold inlineSet. intros Hin Hr.
  destruct (mapM (inlineSel doc fuel) ss) as [fs|] eqn:Efs; simpl in Hin; [|done].
  injection Hin as <-.
  pose proof (inlineSet_fields (inlineSel doc fuel) (inlineSel_fields doc fuel)
                ss fs Efs) as Hfields.
  pose proof (inlineSet_same order doc (inlineSel doc fuel)
                (inlineSel_same order doc fuel) ss fs Efs [] []) as [Hsame _].
  rewrite !app_nil_r in Hsame. simpl in Hsame.
  destruct (Hsame r Hr) as (r' & [[|f] Hr'] & Heq); [done|].
  rewrite flattenSelectionSet_unfold in Hr'.
  destruct (foldlM _ ∅ (concat fs)) as [m|] eqn:E; simpl in Hr'; [|done].
  injection Hr' as <-.
  pose proof (foldFields_first doc _ (concat fs) ∅ m [] Hfields entriesFirst_empty E)
    as Hfirst. simpl in Hfirst.
  pose proof (foldSelections_ok doc _ (flattenSelectionSet_flat order doc f)
                ∅ (concat fs) m mapOK_empty E) as Hok.
  split.
  - intros k. rewrite (setEquiv_keys _ _ Heq), (mapValues_keys order m Hok).
    pose proof (Hfirst k) as Hk.
    pose proof (firstField_None k (concat fs) Hfields) as Hnone.
    rewrite list_elem_of_fmap. split.
    + intros ([k' g] & -> & Hg%elem_of_map_to_list). simpl in *.
      rewrite Hg in Hk. destruct (decide (k' ∈ selKey <$> concat fs)); [done|].
      apply Hnone in n. by rewrite n in Hk.
    + intros Hin. destruct (m !! k) as [g|] eqn:Eg.
      * exists (k, g). split; [done|]. by apply elem_of_map_to_list.
      * destruct (firstField k (concat fs)); [done|]. by apply Hnone in Hin.
  - intros a n i merged Hmem.
    destruct (setEquiv_field_in r _ a n i merged Heq Hmem) as (merged' & Hmem' & _).
    apply mapValues_elem_of in Hmem' as (k & g & Hk & Hg).
    destruct (Hok _ _ Hk) as [<- _]. pose proof (Hfirst (keyOf g)) as Hh.
    rewrite Hk in Hh. destruct g as [ga gn gi gs]. injection Hg as -> -> -> ->.
    unfold keyOf in *. simpl in Hh.
    destruct (firstField (fieldKey ga gn) (concat fs)) as [s|] eqn:Es; [|done].
    destruct s as [a' n' i' cs| |]; simpl in Hh; [|done..].
    injection Hh as <- <- <-.
    destruct (firstField_split _ _ _ Hfields Es) as (before & after & Hl & Hkey & Hno).
    by exists before, cs, after.
Qed.

(** The fields of the result are the first occurrences: with the fragments
    of the selection set inlined, the result has a field for exactly the
    keys of the inlined fields, and each field of the result has the alias,
    the name, the arguments, the directives and the position of the first
    inlined field with its key.  What a later field with the key has of
    these is dropped; only its selection set is merged. *)
Theorem flatten_first_occurrence order doc (ss r : SelectionSet) :
  Flattens order doc ss r →
  ∃ fuel fields,
    inlineSet doc fuel ss = Some fields ∧
    (∀ k, k ∈ selKey <$> r ↔ k ∈ selKey <$> fields) ∧
    ∀ a n i merged, FieldSel a n i merged ∈ r →
      ∃ before cs after, fields = before ++ FieldSel a n i cs :: after ∧
        fieldKey a n ∉ selKey <$> before.
Proof.
  intros Hr. pose proof Hr as [[|fuel] Hfuel]; [done|].
  pose proof (returns_fits _ _ _ _ _ Hfuel) as Hfit.
  destruct (inlineSet_returns doc fuel ss Hfit) as [fields Hfields].
  exists fuel, fields. split; [done|]. by eapply inlined_first.
Qed.

Lemma flatten_first_occurrence_witness :
  ∃ fuel fields,
    inlineSet emptyDoc fuel [userOne; userTwo] = Some fields ∧
    (∀ k, k ∈ selKey <$> [fixtureField false "Query" "user" "User" [("id", "1")]
                            [leaf "" "id"; leaf "" "name"]]
          ↔ k ∈ selKey <$> fields) ∧
    ∀ a n i merged,
      FieldSel a n i merged
        ∈ [fixtureField false "Query" "user" "User" [("id", "1")]
             [leaf "" "id"; leaf "" "name"]] →
      ∃ before cs after, fields = before ++ FieldSel a n i cs :: after ∧
        fieldKey a n ∉ selKey <$> before.
Proof.
  apply (flatten_first_occurrence canonicalOrder emptyDoc [userOne; userTwo]).
  exists 3. vm_compute. reflexivity.
Defined.

(** ** [AnalyseDocument] *)

Lemma analyseOperation_name order fuel doc op res :
  analyseOperation order fuel doc op = Some res → OperationName res = OpName op.
Proof.
  unfold analyseOperation. intros H.
  destruct (flatten order doc fuel op) as [flatOp|]; simpl in H; [|done].
  destruct (Calculate doc fuel op); simpl in H; [|done].
  destruct (Calculate doc fuel flatOp); simpl in H; [|done].
  by injection H as <-.
Qed.

(** A document the validation rejects is not flattened: the error is
    returned at once.  For a document that passes, no error is returned,
    and the records are one per operation, in the order of the document,
    each with the name of its operation. *)
Theorem AnalyseDocument_records order validate fuel schemaDoc queryDoc :
  (validate schemaDoc queryDoc = false →
   AnalyseDocument order validate fuel schemaDoc queryDoc = Some ValidationError) ∧
  (validate schemaDoc queryDoc = true →
   ∀ res, AnalyseDocument order validate fuel schemaDoc queryDoc = Some res →
     ∃ documentResults, res = Analysed documentResults ∧
       OperationName <$> documentResults = OpName <$> Operations queryDoc).
Proof.
  unfold AnalyseDocument. split; intros ->; [done|]. intros res H.
  destruct (mapM _ (Operations queryDoc)) as [rs|] eqn:E; simpl in H; [|done].
  injection H as <-. exists rs. split; [done|].
  apply mapM_Some_1 in E. induction E as [|op r ops rs Hr _ IH]; [done|].
  rewrite !fmap_cons. f_equal; [by eapply analyseOperation_name|done].
Qed.

Lemma AnalyseDocument_records_witness :
  ∃ documentResults,
    Analysed [mkAnalysis "GetOrder" 5 3] = Analysed documentResults ∧
    OperationName <$> documentResults = OpName <$> Operations (fixtureDocument true).
Proof.
  apply (AnalyseDocument_records canonicalOrder (λ _ _, true) 4 fixtureSchema
           (fixtureDocument true)); reflexivity.
Defined.

Lemma analyseOperation_order order order' fuel doc op :
  analyseOperation order fuel doc op = analyseOperation order' fuel doc op.
Proof.
  unfold analyseOperation, flatten, Calculate.
  pose proof (flattenSelectionSet_sim order order' doc fuel
                (OpSelections op) (OpSelections op) (inputRel_refl _)) as Hsim.
  inversion Hsim as [r r' Hr E1 E2|]; [|done]. cbn [mbind option_bind OpSelections].
  destruct (selectionSetComplexity doc fuel (OpSelections op)); simpl; [|done].
  by rewrite (selectionSetComplexity_equiv doc fuel r r' Hr).
Qed.

(** The records do not depend on the order in which Go iterates over the
    maps (with the scorer a sum over the selections, as the model of the
    library has it): under any two orders [AnalyseDocument] returns the
    same, or does not return under either. *)
Theorem AnalyseDocument_order_independent order order' validate fuel
    schemaDoc queryDoc :
  AnalyseDocument order validate fuel schemaDoc queryDoc
  = AnalyseDocument order' validate fuel schemaDoc queryDoc.
Proof.
  unfold AnalyseDocument. destruct (validate schemaDoc queryDoc); [|done].
  by rewrite (mapM_ext _ _ _ (analyseOperation_order order order' fuel queryDoc)).
Qed.






(** *** The analysis returns *)

Lemma totalCost_returns {A} (g : A → option Z) (l : list A) :
  Forall (λ x, ∃ c, g x = Some c) l → ∃ t, totalCost g l = Some t.
Proof.
  induction 1 as [|x l [c Hc] _ [t Ht]]; simpl; [by eauto|].
  rewrite Hc. simpl. rewrite Ht. simpl. by eauto.
Qed.

Lemma spreadsDefined_spec doc ss :
  spreadsDefined doc ss = true ↔
  ∀ name, name ∈ spreadNamesOf ss → name ∈ fragmentNames doc.
Proof.
  unfold spreadsDefined. rewrite forallb_forall. split.
  - intros H name Hin%list_elem_of_In. by eapply bool_decide_eq_true_1, H.
  - intros H name Hin%list_elem_of_In. by apply bool_decide_eq_true_2, H.
Qed.

Lemma spreadNames_child (cs : SelectionSet) c name :
  c ∈ cs → name ∈ spreadNames c → name ∈ spreadNamesOf cs.
Proof.
  intros Hc Hname. apply list_elem_of_In, in_flat_map.
  exists c. split; by apply list_elem_of_In.
Qed.

Lemma spreadNames_fieldsOnly s : fieldsOnlySel s = true → spreadNames s = [].
Proof.
  induction s as [a n i cs IH| |] using Selection_nested_ind; simpl; [|done..].
  intros Hall. rewrite forallb_forall in Hall.
  induction IH as [|c cs Hc _ IHcs]; simpl; [done|].
  rewrite Hc, IHcs; [done| |].
  - intros x Hx. apply Hall. by right.
  - apply Hall. by left.
Qed.

Lemma spreadsDefined_fieldsOnly doc ss :
  fieldsOnly ss = true → spreadsDefined doc ss = true.
Proof.
  intros Hall. apply spreadsDefined_spec. intros name Hin.
  apply list_elem_of_In, in_flat_map in Hin as (c & Hc & Hname).
  unfold fieldsOnly in Hall. rewrite forallb_forall in Hall.
  rewrite (spreadNames_fieldsOnly c (Hall c Hc)) in Hname. by destruct Hname.
Qed.

(** The modelled scorer returns on a selection set within [n] levels whose
    spreads all resolve. *)
Lemma selectionSetComplexity_returns doc :
  forallb (λ fd, spreadsDefined doc (FragSelections fd)) (Fragments doc) = true →
  ∀ n ss, fits doc n ss = true → spreadsDefined doc ss = true →
    ∃ c, selectionSetComplexity doc (S n) ss = Some c.
Proof.
  intros Hfrags. rewrite forallb_forall in Hfrags.
  assert (∀ name, name ∈ fragmentNames doc →
            ∃ fd, findFragmentDefinition doc name = Some fd ∧
                  spreadsDefined doc (FragSelections fd) = true) as Hfind.
  { intros name Hin. unfold findFragmentDefinition.
    destruct (findFragment (Fragments doc) name) as [fd|] eqn:E.
    - exists fd. split; [done|]. apply Hfrags, list_elem_of_In.
      by apply findFragment_Some in E as [_ ?].
    - by apply findFragment_None in E. }
  assert (∀ n, (∀ cs, fits doc n cs = true → spreadsDefined doc cs = true →
                  ∃ c, selectionSetComplexity doc (S n) cs = Some c) →
            ∀ s, fitsSel doc (S n) s = true →
                 (∀ name, name ∈ spreadNames s → name ∈ fragmentNames doc) →
                 ∃ c, selectionComplexity doc (selectionSetComplexity doc (S n)) s
                      = Some c) as Hsel.
  { intros n IH s Hs Hnames. destruct s as [a nm i cs|tc cs|name].
    - destruct (IH cs) as [c Hc]; [done|by apply spreadsDefined_spec|].
      cbn [selectionComplexity]. rewrite Hc. simpl. by eauto.
    - destruct (IH cs) as [c Hc]; [done|by apply spreadsDefined_spec|].
      cbn [selectionComplexity]. by eauto.
    - destruct (Hfind name) as (fd & Hfd & Hdef); [apply Hnames; left|].
      cbn [fitsSel] in Hs. rewrite Hfd in Hs.
      destruct (IH (FragSelections fd)) as [c Hc]; [done..|].
      cbn [selectionComplexity]. rewrite Hfd. simpl. by eauto. }
  assert (∀ n rec, (∀ s, fitsSel doc n s = true →
                      (∀ name, name ∈ spreadNames s → name ∈ fragmentNames doc) →
                      ∃ c, selectionComplexity doc rec s = Some c) →
            ∀ ss, fits doc n ss = true → spreadsDefined doc ss = true →
              ∃ c, foldlM (addComplexity doc rec) 0%Z ss = Some c) as Hset.
  { intros n rec Hs ss Hfit Hdef. unfold addComplexity.
    rewrite foldlM_totalCost.
    destruct (totalCost_returns (selectionComplexity doc rec) ss) as [t ->];
      [|simpl; by eauto].
    apply fits_Forall in Hfit. rewrite Forall_forall in Hfit |- *.
    intros s Hin. apply Hs; [by apply Hfit|].
    intros name Hname. eapply spreadsDefined_spec; [done|].
    eapply spreadNames_child; [by apply list_elem_of_In|done]. }
  induction n as [|n IH]; intros ss Hfit Hdef;
    rewrite selectionSetComplexity_unfold.
  - apply (Hset 0); [|done..]. intros s Hs Hnames.
    destruct s as [a nm i cs|tc cs|name]; simpl in Hs; [done..|].
    destruct (Hfind name) as (fd & Hfd & _); [apply Hnames; left|].
    by rewrite Hfd in Hs.
  - apply (Hset (S n)); [|done..]. by apply Hsel.
Qed.

Lemma analyseOperation_returns order doc op :
  Acyclic doc →
  forallb (λ fd, spreadsDefined doc (FragSelections fd)) (Fragments doc) = true →
  spreadsDefined doc (OpSelections op) = true →
  ∃ fuel0, ∀ fuel, fuel0 ≤ fuel →
    ∃ res, analyseOperation order fuel doc op = Some res.
Proof.
  intros Hacyclic Hfrags Hop.
  destruct (acyclic_fits doc Hacyclic (OpSelections op)) as [n Hn].
  destruct (flattenSelectionSet_total canonicalOrder doc n _ Hn) as (rc & Hrc & Hfit).
  destruct (selectionSetComplexity_returns doc Hfrags n _ Hn Hop) as [raw Hraw].
  destruct (selectionSetComplexity_returns doc Hfrags n rc Hfit) as [flat Hflat].
  { apply spreadsDefined_fieldsOnly, flatSet_fieldsOnly.
    by eapply flattenSelectionSet_flat. }
  exists (S n). intros fuel Hfuel. eexists.
  by eapply analyseOperation_canonical.
Qed.

(** On a document whose fragments do not spread in a cycle and whose
    spreads all name a definition, [AnalyseDocument] returns (with the
    scorer as the model of the library has it). *)
Theorem AnalyseDocument_returns order validate schemaDoc queryDoc :
  Acyclic queryDoc → allSpreadsDefined queryDoc = true →
  ∃ fuel0, ∀ fuel, fuel0 ≤ fuel →
    ∃ res, AnalyseDocument order validate fuel schemaDoc queryDoc = Some res.
Proof.
  intros Hacyclic [Hops Hfrags]%andb_true_iff. unfold AnalyseDocument.
  destruct (validate schemaDoc queryDoc); [|exists 0; by eauto].
  assert (∃ fuel0, ∀ fuel, fuel0 ≤ fuel →
            ∃ rs, mapM (analyseOperation order fuel queryDoc) (Operations queryDoc)
                  = Some rs) as (fuel0 & Hall).
  { rewrite forallb_forall in Hops.
    induction (Operations queryDoc) as [|op ops IH].
    - exists 0. intros fuel _. by exists [].
    - destruct IH as [f2 H2]; [intros x Hx; apply Hops; by right|].
      destruct (analyseOperation_returns order queryDoc op Hacyclic Hfrags)
        as [f1 H1]; [apply Hops; by left|].
      exists (f1 `max` f2). intros fuel Hfuel.
      destruct (H1 fuel) as [r Hr]; [lia|]. destruct (H2 fuel) as [rs Hrs]; [lia|].
      exists (r :: rs). csimpl. rewrite Hr. csimpl. unfold mbind in *.
      rewrite Hrs. done. }
  exists fuel0. intros fuel Hfuel. destruct (Hall fuel Hfuel) as [rs ->].
  simpl. by eauto.
Qed.

Lemma AnalyseDocument_returns_witness :
  ∃ fuel0, ∀ fuel, fuel0 ≤ fuel →
    ∃ res, AnalyseDocument canonicalOrder (λ _ _, true) fuel fixtureSchema
             (fixtureDocument true) = Some res.
Proof.
  apply (AnalyseDocument_returns canonicalOrder (λ _ _, true) fixtureSchema
           (fixtureDocument true)).
  - apply fixtureDocument_acyclic.
  - reflexivity.
Defined.

(** ** [RunAnalysis] *)

Section RunAnalysisFacts.
Context {error : Type}.
Variable Glob : string → error + list string.
Variable ReadFile : string → error + string.
Variable LoadSchema : list Source.t → error + Schema.
Variable ParseQuery : Source.t → error + QueryDocument.
Variable order : MapOrder.
Variable validate : Schema → QueryDocument → bool.
Variable fuel : nat.

Lemma readSchemas_ok : ∀ schemas new inputs,
  Forall2 (sourceOf ReadFile) schemas new →
  readSchemas error ReadFile inputs schemas = inr (inputs ++ new).
Proof.
  induction schemas as [|p schemas IH]; intros new inputs Hall;
    inversion Hall as [|? src ? new' (bytes & Hb & ->) Hrest]; subst; simpl.
  - by rewrite app_nil_r.
  - rewrite Hb, (IH new' _ Hrest), <- app_assoc. done.
Qed.

Lemma readSchemas_error : ∀ before inputs p after err,
  Forall (readable ReadFile) before → ReadFile p = inl err →
  readSchemas error ReadFile inputs (before ++ p :: after)
  = inl (ReadingSchemaFile error p err).
Proof.
  induction before as [|q before IH]; intros inputs p after err Hall Hp; simpl.
  - by rewrite Hp.
  - inversion Hall as [|?? [bytes Hb] Hrest]; subst. rewrite Hb. by apply IH.
Qed.

Lemma readSchemas_spec : ∀ schemas inputs,
  match readSchemas error ReadFile inputs schemas with
  | inr inputs' =>
      ∃ new, inputs' = inputs ++ new ∧ Forall2 (sourceOf ReadFile) schemas new
  | inl e =>
      ∃ before p after err, schemas = before ++ p :: after ∧
        Forall (readable ReadFile) before ∧ ReadFile p = inl err ∧
        e = ReadingSchemaFile error p err
  end.
Proof.
  induction schemas as [|p schemas IH]; intros inputs; simpl.
  - exists []. by rewrite app_nil_r.
  - destruct (ReadFile p) as [err|bytes] eqn:Ep.
    + exists [], p, schemas, err. by repeat split.
    + specialize (IH (inputs ++ [Source.mk p bytes false])).
      destruct (readSchemas _ _ _ schemas) as [e|inputs'].
      * destruct IH as (before & q & after & err & -> & Hall & Hq & ->).
        exists (p :: before), q, after, err. repeat split; [|done].
        constructor; [by exists bytes|done].
      * destruct IH as (new & -> & Hall).
        exists (Source.mk p bytes false :: new). rewrite <- app_assoc.
        split; [done|]. constructor; [by exists bytes|done].
Qed.

Lemma appendAnalysis_spec match_ : ∀ analysis results,
  appendAnalysis match_ results analysis = results ++ (recordOf match_ <$> analysis).
Proof.
  unfold appendAnalysis.
  induction analysis as [|res analysis IH]; intros results; simpl.
  - by rewrite app_nil_r.
  - rewrite IH, <- app_assoc. done.
Qed.

Lemma analyseFile_spec schemaDoc results log match_ :
  analyseFile error ReadFile ParseQuery order validate fuel schemaDoc
    (results, log) match_
  = rs ← fileResults ReadFile ParseQuery order validate fuel schemaDoc match_;
    Some (results ++ rs,
          log ++ option_list (fileWarning ReadFile ParseQuery validate schemaDoc match_)).
Proof.
  unfold analyseFile, fileResults, fileWarning, validDocument, AnalyseDocument.
  destruct (ReadFile match_) as [err|bytes]; simpl; [by rewrite app_nil_r|].
  destruct (ParseQuery _) as [err|queryDoc]; simpl; [by rewrite app_nil_r|].
  destruct (validate schemaDoc queryDoc); simpl; [|by rewrite app_nil_r].
  destruct (mapM _ (Operations queryDoc)) as [analysis|]; simpl; [|done].
  by rewrite appendAnalysis_spec, app_nil_r.
Qed.

Lemma analyseFiles_spec schemaDoc : ∀ matches results log,
  foldlM (analyseFile error ReadFile ParseQuery order validate fuel schemaDoc)
    (results, log) matches
  = perFile ← mapM (fileResults ReadFile ParseQuery order validate fuel schemaDoc)
                matches;
    Some (results ++ concat perFile,
          log ++ omap (fileWarning ReadFile ParseQuery validate schemaDoc) matches).
Proof.
  induction matches as [|m matches IH]; intros results log.
  - simpl. by rewrite !app_nil_r.
  - cbn [foldlM]. rewrite analyseFile_spec. csimpl.
    destruct (fileResults _ _ _ _ _ _ m) as [rs|]; csimpl; [|done].
    rewrite IH. unfold mbind.
    destruct (mapM _ matches) as [perFile|]; csimpl; [|done].
    rewrite <- !app_assoc.
    by destruct (fileWarning ReadFile ParseQuery validate schemaDoc m).
Qed.
(** When [RunAnalysis] returns results, and only then: the schema pattern
    matches, every schema file is read, the schema loads from the sources
    made of them, in the order of the match, and the document pattern
    matches.  The results are then, file by file in the order of the match,
    the records of the operations of each file, with the path of the file;
    a file that cannot be read or parsed, or whose document the validation
    rejects, has no record and exactly one warning, and does not end the
    run. *)
Theorem RunAnalysis_files schema docs results log :
  RunAnalysis error Glob ReadFile LoadSchema ParseQuery order validate fuel
    schema docs = Some (inr results, log) ↔
  ∃ schemas inputs schemaDoc matches perFile,
    Glob schema = inr schemas ∧ Forall2 (sourceOf ReadFile) schemas inputs ∧
    LoadSchema inputs = inr schemaDoc ∧ Glob docs = inr matches ∧
    mapM (fileResults ReadFile ParseQuery order validate fuel schemaDoc) matches
      = Some perFile ∧
    results = concat perFile ∧
    log = omap (fileWarning ReadFile ParseQuery validate schemaDoc) matches.
Proof.
  unfold RunAnalysis. split.
  - destruct (Glob schema) as [err|schemas]; [done|].
    pose proof (readSchemas_spec schemas []) as Hread.
    destruct (readSchemas _ _ [] schemas) as [e|inputs]; [done|].
    destruct Hread as (new & -> & Hnew). simpl.
    destruct (LoadSchema new) as [err|schemaDoc] eqn:El; [done|].
    destruct (Glob docs) as [err|matches]; [done|].
    rewrite analyseFiles_spec.
    destruct (mapM _ matches) as [perFile|] eqn:Em; simpl; [|done].
    intros [= <- <-]. by exists schemas, new, schemaDoc, matches, perFile.
  - intros (schemas & inputs & schemaDoc & matches & perFile
            & -> & Hin & Hl & -> & Hm & -> & ->).
    rewrite (readSchemas_ok _ _ [] Hin). simpl. rewrite Hl.
    rewrite analyseFiles_spec, Hm. done.
Qed.

(** [RunAnalysis] returns an error in four cases only, all before the first
    document is read (so that nothing is logged): the schema pattern does
    not match, a schema file cannot be read (the error names the first
    such file), the schema does not load, or the document pattern does not
    match.  In each of them it returns that error. *)
Theorem RunAnalysis_error schema docs e log :
  RunAnalysis error Glob ReadFile LoadSchema ParseQuery order validate fuel
    schema docs = Some (inl e, log) ↔
  log = [] ∧
  match e with
  | GlobbingSchemaFiles _ err => Glob schema = inl err
  | ReadingSchemaFile _ schemaPath err =>
      ∃ before after, Glob schema = inr (before ++ schemaPath :: after) ∧
        Forall (readable ReadFile) before ∧ ReadFile schemaPath = inl err
  | LoadingSchema _ err =>
      ∃ schemas inputs, Glob schema = inr schemas ∧
        Forall2 (sourceOf ReadFile) schemas inputs ∧ LoadSchema inputs = inl err
  | GlobbingDocumentsFiles _ err =>
      ∃ schemas inputs schemaDoc, Glob schema = inr schemas ∧
        Forall2 (sourceOf ReadFile) schemas inputs ∧
        LoadSchema inputs = inr schemaDoc ∧ Glob docs = inl err
  end.
Proof.
  unfold RunAnalysis. split.
  - destruct (Glob schema) as [err|schemas]; [by intros [= <- <-]|].
    pose proof (readSchemas_spec schemas []) as Hread.
    destruct (readSchemas _ _ [] schemas) as [e'|inputs].
    { destruct Hread as (before & p & after & err & -> & Hall & Hp & ->).
      intros [= <- <-]. split; [done|]. by exists before, after. }
    destruct Hread as (new & -> & Hnew). simpl.
    destruct (LoadSchema new) as [err|schemaDoc] eqn:El.
    { intros [= <- <-]. split; [done|]. by exists schemas, new. }
    destruct (Glob docs) as [err|matches].
    { intros [= <- <-]. split; [done|]. by exists schemas, new, schemaDoc. }
    rewrite analyseFiles_spec. by destruct (mapM _ matches).
  - intros [-> He]. destruct e as [err|p err|err|err].
    + by rewrite He.
    + destruct He as (before & after & -> & Hall & Hp).
      by rewrite (readSchemas_error before [] p after err Hall Hp).
    + destruct He as (schemas & inputs & -> & Hin & Hl).
      rewrite (readSchemas_ok _ _ [] Hin). simpl. by rewrite Hl.
    + destruct He as (schemas & inputs & schemaDoc & -> & Hin & Hl & Hd).
      rewrite (readSchemas_ok _ _ [] Hin). simpl. by rewrite Hl, Hd.
Qed.
End RunAnalysisFacts.

Lemma RunAnalysis_files_witness :
  ∃ schemas inputs schemaDoc matches perFile,
    fixtureGlob "schema/*.graphql" = inr schemas ∧
    Forall2 (sourceOf fixtureReadFile) schemas inputs ∧
    fixtureLoadSchema inputs = inr schemaDoc ∧
    fixtureGlob "queries/*.graphql" = inr matches ∧
    mapM (fileResults fixtureReadFile fixtureParseQuery canonicalOrder
            (λ _ _, true) 4 schemaDoc) matches = Some perFile ∧
    [ComplexityAnalysis.mk "queries/order.graphql" "GetOrder" 5 3]
      = concat perFile ∧
    [ReadingQueryFile string "queries/locked.graphql" "permission denied";
     ParsingQuery string "queries/broken.graphql" "unexpected token"]
      = omap (fileWarning fixtureReadFile fixtureParseQuery (λ _ _, true) schemaDoc)
          matches.
Proof.
  apply (RunAnalysis_files fixtureGlob fixtureReadFile fixtureLoadSchema
           fixtureParseQuery canonicalOrder (λ _ _, true) 4
           "schema/*.graphql" "queries/*.graphql").
  reflexivity.
Defined.

Lemma RunAnalysis_error_witness :
  RunAnalysis string fixtureGlob fixtureReadFile fixtureLoadSchema
    fixtureParseQuery canonicalOrder (λ _ _, true) 4
    "queries/*.graphql" "queries/*.graphql"
  = Some (inl (ReadingSchemaFile string "queries/locked.graphql"
                 "permission denied"), []).
Proof.
  apply (RunAnalysis_error fixtureGlob fixtureReadFile fixtureLoadSchema
           fixtureParseQuery canonicalOrder (λ _ _, true) 4).
  split; [reflexivity|].
  exists [], ["queries/order.graphql"; "queries/broken.graphql"].
  repeat split; constructor.
Defined.

(** ** Fragments that spread in a cycle *)

Lemma fitsSel_spread doc : ∀ s n b,
  fitsSel doc n s = true → b ∈ spreadNames s →
  fitsSel doc n (FragmentSpread b) = true.
Proof.
  assert (∀ cs, Forall (λ c, ∀ n b, fitsSel doc n c = true → b ∈ spreadNames c →
                          fitsSel doc n (FragmentSpread b) = true) cs →
            ∀ n b, forallb (fitsSel doc n) cs = true → b ∈ flat_map spreadNames cs →
              fitsSel doc (S n) (FragmentSpread b) = true) as Hcs.
  { intros cs IH n b Hall Hb.
    apply list_elem_of_In, in_flat_map in Hb as (c & Hc & Hb).
    rewrite forallb_forall in Hall. rewrite Forall_forall in IH.
    apply (fitsSel_le doc n); [lia|].
    apply (IH c Hc); [by apply Hall|by apply list_elem_of_In]. }
  induction s as [a nm i cs IH|tc cs IH|name] using Selection_nested_ind;
    intros n b Hs Hb.
  - destruct n as [|n]; [done|]. by apply (Hcs cs).
  - destruct n as [|n]; [done|]. by apply (Hcs cs).
  - simpl in Hb. by apply list_elem_of_singleton in Hb as ->.
Qed.

Lemma reachesCycle_step doc a :
  reachesCycle doc a → ∃ b, references doc a b ∧ reachesCycle doc b.
Proof.
  intros (c & Hac & Hcc). apply rtc_inv in Hac as [->|(b & Hab & Hbc)].
  - inversion Hcc as [?? Hr|? b ? Hr Hbc]; subst.
    + exists c. split; [done|]. by exists c.
    + exists b. split; [done|]. exists c. split; [by apply tc_rtc|done].
  - exists b. split; [done|]. by exists c.
Qed.

Lemma reachesCycle_unfit doc n : ∀ a,
  reachesCycle doc a → fitsSel doc n (FragmentSpread a) = false.
Proof.
  induction n as [|n IH]; intros a Ha;
    destruct (reachesCycle_step doc a Ha) as (b & (fd & Hfd & Hb) & Hbad);
    simpl; rewrite Hfd; [done|].
  apply not_true_is_false. intros Hall.
  apply list_elem_of_In, in_flat_map in Hb as (c & Hc & Hb).
  rewrite forallb_forall in Hall.
  pose proof (fitsSel_spread doc c n b (Hall c Hc)) as Hfit.
  rewrite (IH b Hbad) in Hfit. by discriminate Hfit; apply list_elem_of_In.
Qed.

(** The run does not return on a selection set with a spread, at any depth,
    whose name leads to a fragment that spreads itself, directly or through
    other fragments: no amount of fuel is enough (in Go the recursion does
    not end).  The run returns on every selection set of an acyclic
    document, and on none that leads into a cycle. *)
Theorem cyclic_fragment_diverges order doc (ss : SelectionSet) a fuel :
  a ∈ spreadNamesOf ss → reachesCycle doc a →
  flattenSelectionSet order doc fuel ss = None.
Proof.
  intros Ha Hbad. destruct fuel as [|n]; [done|].
  destruct (flattenSelectionSet order doc (S n) ss) as [r|] eqn:Er; [|done].
  apply returns_fits, fits_Forall in Er. rewrite Forall_forall in Er.
  apply list_elem_of_In, in_flat_map in Ha as (s & Hs & Ha).
  pose proof (fitsSel_spread doc s n a (Er s Hs)) as Hfit.
  rewrite (reachesCycle_unfit doc n a Hbad) in Hfit.
  by discriminate Hfit; apply list_elem_of_In.
Qed.

Lemma cyclic_fragment_diverges_witness :
  flattenSelectionSet canonicalOrder cyclicDocument 100
    [node "" "user" [FragmentSpread "Loop"]] = None.
Proof.
  apply (cyclic_fragment_diverges canonicalOrder cyclicDocument _ "Loop").
  - simpl. left.
  - exists "Loop". split; [apply rtc_refl|]. apply tc_once.
    exists (mkFragment "Loop" "User" [FragmentSpread "Loop"]).
    split; [reflexivity|]. simpl. left.
Defined.

(** ** The key of [fieldMap] *)

Lemma append_nil (s : string) : "" +:+ s = s.
Proof. reflexivity. Qed.

Lemma append_cons c (a s : string) : String c a +:+ s = String c (a +:+ s).
Proof. reflexivity. Qed.

Lemma noColon_key a n : noColon (a +:+ ":" +:+ n) = false.
Proof.
  induction a as [|c a IH].
  - done.
  - rewrite append_cons. simpl. rewrite IH. apply andb_false_r.
Qed.

Lemma colon_split : ∀ a a' n n',
  noColon a = true → noColon a' = true →
  a +:+ ":" +:+ n = a' +:+ ":" +:+ n' → a = a' ∧ n = n'.
Proof.
  induction a as [|c a IH]; intros [|c' a'] n n' Ha Ha' Heq;
    rewrite ?append_nil, !append_cons, ?append_nil in Heq; simpl in Ha, Ha'.
  - by injection Heq as ->.
  - injection Heq as <- _. by rewrite bool_decide_eq_true_2 in Ha'.
  - injection Heq as -> _. by rewrite bool_decide_eq_true_2 in Ha.
  - injection Heq as -> Heq.
    apply andb_true_iff in Ha as [_ Ha]. apply andb_true_iff in Ha' as [_ Ha'].
    by destruct (IH a' n n' Ha Ha' Heq) as [-> ->].
Qed.

(** Two fields have the same key of [fieldMap], and so are merged, exactly
    when they have the same alias and the same name, provided aliases and
    names have no colon (as every GraphQL name). *)
Theorem fieldKey_inj a n a' n' :
  noColon a = true → noColon n = true → noColon a' = true → noColon n' = true →
  fieldKey a n = fieldKey a' n' ↔ a = a' ∧ n = n'.
Proof.
  intros Ha Hn Ha' Hn'. split; [|by intros [-> ->]].
  unfold fieldKey. repeat case_decide; subst.
  - done.
  - intros ->. by rewrite noColon_key in Hn.
  - intros <-. by rewrite noColon_key in Hn'.
  - by apply colon_split.
Qed.

Lemma fieldKey_inj_witness :
  fieldKey "me" "user" = fieldKey "me" "user" ↔ "me" = "me" ∧ "user" = "user".
Proof. apply (fieldKey_inj "me" "user" "me" "user"); reflexivity. Defined.

(** * Part 7: the store model *)

(** ** A call leaves its inputs unchanged *)

Module HeapFacts.
Import Heap.

Lemma extends_refl h : extends h h.
Proof. by split. Qed.

Lemma extends_trans h1 h2 h3 : extends h1 h2 → extends h2 h3 → extends h1 h3.
Proof. intros [? H12] [? H23]. split; [lia|auto]. Qed.

Lemma extends_alloc h o : extends h (h ++ [o]).
Proof.
  split; [rewrite length_app; lia|].
  intros a x Ha. by apply lookup_app_l_Some.
Qed.

Lemma extends_store h0 h a o :
  extends h0 h → length h0 ≤ a → extends h0 (<[a := o]> h).
Proof.
  intros [Hlen Hag] Ha. split; [by rewrite length_insert|].
  intros b x Hb. rewrite list_lookup_insert_ne; [auto|].
  apply lookup_lt_Some in Hb. lia.
Qed.

Lemma load_inv a h o h' : load a h = Some (o, h') → h' = h ∧ h !! a = Some o.
Proof. unfold load. destruct (h !! a); naive_solver. Qed.

Lemma bind_inv {A B} (m : M A) (f : A → M B) h y h' :
  bind m f h = Some (y, h') → ∃ x h1, m h = Some (x, h1) ∧ f x h1 = Some (y, h').
Proof. unfold bind. destruct (m h) as [[x h1]|]; naive_solver. Qed.

Lemma setSelectionSet_frame h0 x ss h u h' :
  extends h0 h → length h0 ≤ x →
  setSelectionSet x ss h = Some (u, h') → extends h0 h'.
Proof.
  intros Hext Hx (o & h1 & [-> _]%load_inv & Hst)%bind_inv.
  destruct o; try done. unfold store in Hst.
  case_match; [|done]. injection Hst as _ <-.
  by apply extends_store.
Qed.

Lemma findFragment_frame frags name h r h' :
  findFragment frags name h = Some (r, h') → h' = h.
Proof.
  induction frags as [|frag rest IH]; simpl.
  { by intros [= _ <-]. }
  intros (o & h1 & [-> _]%load_inv & H)%bind_inv.
  destruct o; try done. case_decide; [by injection H as _ <-|auto].
Qed.

Lemma findFragmentDefinition_frame doc name h r h' :
  findFragmentDefinition doc name h = Some (r, h') → h' = h.
Proof.
  intros (o & h1 & [-> _]%load_inv & H)%bind_inv.
  destruct o; try done. by eapply findFragment_frame.
Qed.

Section Frame.
Variable doc : addr.
Variable rec : list addr → M (list addr).
Hypothesis Hrec : recFrame rec.

Lemma mergeExisting_frame h0 existing ss h u h' :
extends h0 h → length h0 ≤ existing →
mergeExisting rec existing ss h = Some (u, h') → extends h0 h'.
Proof.
intros Hext Hx (e & h1 & [-> _]%load_inv & H)%bind_inv.
apply bind_inv in H as (merged & h2 & Hmerged & Hset).
apply Hrec in Hmerged as [Hext2 _].
eapply setSelectionSet_frame; [|done|exact Hset]. by eapply extends_trans.
Qed.

Lemma foldFragmentField_frame h0 m fragSel h m' h' :
loopInv h0 m h → length h0 ≤ fragSel →
foldFragmentField rec m fragSel h = Some (m', h') → loopInv h0 m' h'.
Proof.
intros [Hext Hm] Hnew (o & h1 & [-> _]%load_inv & H)%bind_inv.
destruct o as [a n i ss| | | | |]; try (injection H as <- <-; by split).
simpl in H. destruct (m !! fieldKey a n) as [existing|] eqn:E.
- apply bind_inv in H as (u & h2 & Hmerge & Hret). injection Hret as <- <-.
  split; [|done]. eapply mergeExisting_frame; [done| |exact Hmerge].
  apply (Hm _ _ E).
- injection H as <- <-. split; [done|]. by apply map_Forall_insert_2.
Qed.

Lemma foldFragment_frame h0 frags : ∀ m h m' h',
loopInv h0 m h → Forall (λ a, length h0 ≤ a) frags →
foldM (foldFragmentField rec) m frags h = Some (m', h') → loopInv h0 m' h'.
Proof.
induction frags as [|a frags IH]; intros m h m' h' Hinv Hnew; simpl.
{ by intros [= <- <-]. }
inversion Hnew; subst.
intros (m1 & h1 & Hstep & Hrest)%bind_inv.
eapply IH; [|done|exact Hrest]. by eapply foldFragmentField_frame.
Qed.

Lemma newIn_weaken h0 h l : extends h0 h → newIn h l → Forall (λ a, length h0 ≤ a) l.
Proof.
intros [Hlen _]. apply Forall_impl. intros a Ha. lia.
Qed.

Lemma stepSelection_frame h0 m selection h m' h' :
loopInv h0 m h →
stepSelection doc rec m selection h = Some (m', h') → loopInv h0 m' h'.
Proof.
intros [Hext Hm] (o & h1 & [-> _]%load_inv & H)%bind_inv.
destruct o as [a n i ss|tc ss|name| | |]; try (injection H as <- <-; by split).
- simpl in H. destruct (m !! fieldKey a n) as [existing|] eqn:E.
  + apply bind_inv in H as (u & h2 & Hmerge & Hret). injection Hret as <- <-.
    split; [|done]. eapply mergeExisting_frame; [done| |exact Hmerge].
    apply (Hm _ _ E).
  + apply bind_inv in H as (flattened & h2 & Hfl & H).
    apply bind_inv in H as (p & h3 & Halloc & Hret).
    injection Hret as <- <-. injection Halloc as <- <-.
    apply Hrec in Hfl as [Hext2 _].
    assert (extends h0 h2) as Hext02 by by eapply extends_trans.
    split.
    * eapply extends_trans; [exact Hext02|apply extends_alloc].
    * apply map_Forall_insert_2; [|done]. by destruct Hext02.
- apply bind_inv in H as (frags & h2 & Hfr & H).
  apply Hrec in Hfr as [Hext2 Hnew].
  eapply foldFragment_frame; [| |exact H].
  + split; [by eapply extends_trans|done].
  + eapply newIn_weaken; [exact Hext|done].
- apply bind_inv in H as (found & h2 & Hfound & H).
  apply findFragmentDefinition_frame in Hfound as ->.
  destruct found as [fragDef|]; [|injection H as <- <-; by split].
  apply bind_inv in H as (fd & h3 & [-> _]%load_inv & H).
  apply bind_inv in H as (frags & h4 & Hfr & H).
  apply Hrec in Hfr as [Hext2 Hnew].
  eapply foldFragment_frame; [| |exact H].
  + split; [by eapply extends_trans|done].
  + eapply newIn_weaken; [exact Hext|done].
Qed.

Lemma foldSelections_frame h0 l : ∀ m h m' h',
loopInv h0 m h →
foldM (stepSelection doc rec) m l h = Some (m', h') → loopInv h0 m' h'.
Proof.
induction l as [|a l IH]; intros m h m' h' Hinv; simpl.
{ by intros [= <- <-]. }
intros (m1 & h1 & Hstep & Hrest)%bind_inv.
eapply IH; [|exact Hrest]. by eapply stepSelection_frame.
Qed.
End Frame.

Lemma flattenSelectionSet_frame order doc fuel :
  recFrame (flattenSelectionSet order doc fuel).
Proof.
  induction fuel as [|fuel IH]; intros ss h out h' H; [done|].
  cbn [flattenSelectionSet] in H.
  apply bind_inv in H as (m & h1 & Hfold & Hret). injection Hret as <- <-.
  destruct (foldSelections_frame doc _ IH h ss ∅ h m h1) as [Hext Hm];
    [split; [apply extends_refl|apply map_Forall_empty]|done|].
  split; [done|]. unfold newIn, mapValues.
  rewrite Forall_forall. intros a Hin%list_elem_of_In.
  apply rangeValues_elem in Hin as [k Hk]. apply (Hm _ _ Hk).
Qed.

(** C8: a call of [flatten] leaves every object of the store as it was
    before the call (the operation, the document, the fragment definitions
    and every selection reachable from them are among these), and the
    operation it returns is a new object. *)
Theorem C8_inputs_unchanged order doc fuel op (h : heap) flatOp (h' : heap) :
  flatten order doc fuel op h = Some (flatOp, h') →
  (∀ a o, h !! a = Some o → h' !! a = Some o) ∧ length h ≤ flatOp.
Proof.
  intros (o & h1 & [-> _]%load_inv & H)%bind_inv.
  destruct o as [| | | |kind name vars directives ss position comment|]; try done.
  apply bind_inv in H as (flattened & h2 & Hfl & Halloc).
  injection Halloc as <- <-.
  apply flattenSelectionSet_frame in Hfl as [[Hlen Hsame] _].
  split; [|done]. intros a o Ha. apply lookup_app_l_Some. auto.
Qed.

Lemma C8_inputs_unchanged_witness :
  ∃ flatOp h',
    flatten canonicalOrder 10 4 9 fixtureHeap = Some (flatOp, h') ∧
    (∀ a o, fixtureHeap !! a = Some o → h' !! a = Some o) ∧
    length fixtureHeap ≤ flatOp.
Proof.
  eexists _, _. split; [vm_compute; reflexivity|].
  apply (C8_inputs_unchanged canonicalOrder 10 4 9 fixtureHeap).
  vm_compute. reflexivity.
Defined.

(** ** The store model against the value model *)

Lemma closedb_closed h : closedb h = true → closed h.
Proof.
  unfold closedb. rewrite forallb_forall. intros H b o Hb.
  apply list_elem_of_lookup_2, list_elem_of_In, H in Hb.
  rewrite forallb_forall in Hb. apply Forall_forall.
  intros c Hc. by apply Hb, bool_decide_eq_true in Hc.
Qed.

Lemma extends_lookup_lt h h' b o :
  extends h h' → b < length h → h' !! b = Some o → h !! b = Some o.
Proof.
  intros [_ Hext] Hlt Hb. destruct (lookup_lt_is_Some_2 h b Hlt) as [o' Ho'].
  rewrite (Hext _ _ Ho') in Hb. congruence.
Qed.

Lemma reads_lt h a s : reads h a s → a < length h.
Proof. destruct 1; by eapply lookup_lt_Some. Qed.

Lemma readsSet_lt h l ss : Forall2 (reads h) l ss → Forall (λ c, c < length h) l.
Proof. induction 1; constructor; [by eapply reads_lt|done]. Qed.

Lemma reads_extends h h' a s : extends h h' → reads h a s → reads h' a s.
Proof.
  intros [_ Hext].
  induction 1 as [a al n i ss cs Ha IH|a tc ss cs Ha IH|a name Ha]
    using reads_nested_ind.
  - econstructor; [by apply Hext|]. eapply Forall2_weaken; [exact IH|]. by intros ?? [_ ?].
  - econstructor; [by apply Hext|]. eapply Forall2_weaken; [exact IH|]. by intros ?? [_ ?].
  - constructor. by apply Hext.
Qed.

Lemma readsSet_extends h h' l ss :
  extends h h' → Forall2 (reads h) l ss → Forall2 (reads h') l ss.
Proof. intros Hext H. eapply Forall2_weaken; [exact H|]. intros. by eapply reads_extends. Qed.

Lemma Forall2_children {A B} (R R' : A → B → Prop) (Q : A → Prop) l l' :
  Forall2 (λ x y, R x y ∧ (Q x → R' x y)) l l' → Forall Q l → Forall2 R' l l'.
Proof.
  induction 1 as [|x y l l' [_ Hxy] _ IH]; intros HQ; [constructor|].
  inversion HQ; subst. constructor; auto.
Qed.

(** A write to an object without parent changes the reading of no other
    object. *)
Lemma reads_store h e o a s :
  (∀ b o', h !! b = Some o' → Forall (λ c, c ≠ e) (addressesOf o')) →
  a ≠ e → reads h a s → reads (<[e := o]> h) a s.
Proof.
  intros Hnp Hne H. revert Hne.
  induction H as [a al n i ss cs Ha IH|a tc ss cs Ha IH|a name Ha]
    using reads_nested_ind; intros Hne.
  - econstructor; [by rewrite list_lookup_insert_ne|].
    eapply Forall2_children; [exact IH|]. apply (Hnp _ _ Ha).
  - econstructor; [by rewrite list_lookup_insert_ne|].
    eapply Forall2_children; [exact IH|]. apply (Hnp _ _ Ha).
  - constructor. by rewrite list_lookup_insert_ne.
Qed.

Lemma readsSet_store h e o l ss :
  (∀ b o', h !! b = Some o' → Forall (λ c, c ≠ e) (addressesOf o')) →
  Forall (λ a, a ≠ e) l → Forall2 (reads h) l ss →
  Forall2 (reads (<[e := o]> h)) l ss.
Proof.
  intros Hnp Hne H. induction H as [|a s l ss Has _ IH]; [constructor|].
  inversion Hne; subst. constructor; [by apply reads_store|auto].
Qed.

Lemma readsFragment_extends h h' a fd :
  extends h h' → readsFragment h a fd → readsFragment h' a fd.
Proof.
  intros Hext (ss & Ha & Hss). exists ss. split; [by apply Hext|].
  by eapply readsSet_extends.
Qed.

Lemma readsOperation_extends h h' a op :
  extends h h' → readsOperation h a op → readsOperation h' a op.
Proof.
  intros Hext (ss & Ha & Hss). exists ss. split; [by apply Hext|].
  by eapply readsSet_extends.
Qed.

Lemma readsDocument_extends h h' a doc :
  extends h h' → readsDocument h a doc → readsDocument h' a doc.
Proof.
  intros Hext (ops & frags & Ha & Hops & Hfrags). exists ops, frags. split_and!.
  - by apply Hext.
  - eapply Forall2_weaken; [exact Hops|]. intros. by eapply readsOperation_extends.
  - eapply Forall2_weaken; [exact Hfrags|]. intros. by eapply readsFragment_extends.
Qed.

(** After a call that wrote to no old object and allocated objects that
    hold new addresses only. *)
Lemma freshClosed_call lo h h1 :
  lo ≤ length h → freshClosed lo h → extends h h1 → freshClosed (length h) h1 →
  freshClosed lo h1.
Proof.
  intros Hlo Hfc Hext Hnew b o Hb Ho.
  destruct (decide (b < length h)) as [Hlt|Hge].
  - eapply Hfc; [done|]. by eapply extends_lookup_lt.
  - eapply Forall_impl; [|eapply (Hnew b o); [lia|done]]. simpl. intros. lia.
Qed.

Lemma noParent_call (T : addr → Prop) h h1 :
  (∀ c, T c → c < length h) → noParent T h → extends h h1 →
  freshClosed (length h) h1 → noParent T h1.
Proof.
  intros HT Hnp Hext Hnew b o Ho.
  destruct (decide (b < length h)) as [Hlt|Hge].
  - eapply Hnp. by eapply extends_lookup_lt.
  - eapply Forall_impl; [|eapply (Hnew b o); [lia|done]]. simpl.
    intros c Hc Hin. apply HT in Hin. lia.
Qed.

Lemma load_Some a h o : h !! a = Some o → load a h = Some (o, h).
Proof. unfold load. by intros ->. Qed.

Lemma bind_Some {A B} (m : M A) (f : A → M B) h x h1 :
  m h = Some (x, h1) → bind m f h = f x h1.
Proof. unfold bind. by intros ->. Qed.

Lemma findFragment_refines h frags fds name :
  Forall2 (readsFragment h) frags fds →
  ∃ found, findFragment frags name h = Some (found, h) ∧
           option_Forall2 (readsFragment h) found (Value.findFragment fds name).
Proof.
  induction 1 as [|a fd frags fds Hfd _ IH]; simpl.
  - exists None. split; [done|constructor].
  - pose proof Hfd as (ss & Ha & Hss).
    rewrite (bind_Some _ _ _ _ _ (load_Some _ _ _ Ha)).
    destruct (decide (FragName fd = name)) as [_|_]; [|exact IH].
    exists (Some a). split; [done|by constructor].
Qed.

Lemma findFragmentDefinition_refines h docA doc name :
  readsDocument h docA doc →
  ∃ found, findFragmentDefinition docA name h = Some (found, h) ∧
           option_Forall2 (readsFragment h) found (Value.findFragmentDefinition doc name).
Proof.
  intros (ops & frags & Ha & _ & Hfrags). unfold findFragmentDefinition.
  rewrite (bind_Some _ _ _ _ _ (load_Some _ _ _ Ha)).
  by apply findFragment_refines.
Qed.

Lemma setSelectionSet_Some h x al n i ss ss' :
  h !! x = Some (OField al n i ss) →
  setSelectionSet x ss' h = Some (tt, <[x := OField al n i ss']> h).
Proof.
  intros Hx. unfold setSelectionSet.
  rewrite (bind_Some _ _ _ _ _ (load_Some _ _ _ Hx)). unfold store. by rewrite Hx.
Qed.

Lemma loopRel_lt h0 mA h m pending (c : addr) :
  loopRel h0 mA h m pending →
  (∃ k, mA !! k = Some c) ∨ c ∈ pending → c < length h.
Proof.
  intros HL [[k Hk]|Hc].
  - pose proof (lr_entries _ _ _ _ _ HL k) as He. rewrite Hk in He.
    inversion He; subst. by eapply reads_lt.
  - pose proof (lr_pending _ _ _ _ _ HL) as Hp.
    rewrite Forall_forall in Hp. apply list_elem_of_In, Hp in Hc. lia.
Qed.

Lemma noParent_mono (T T' : addr → Prop) h :
  (∀ c, T' c → T c) → noParent T h → noParent T' h.
Proof.
  intros HT Hnp b o Hb. eapply Forall_impl; [|exact (Hnp b o Hb)]. simpl.
  intros c Hc Hc'. by apply Hc, HT.
Qed.

Lemma loopRel_entry h0 mA h m pending k :
  loopRel h0 mA h m pending →
  (mA !! k = None ∧ m !! k = None) ∨
  (∃ a f, mA !! k = Some a ∧ m !! k = Some f ∧ reads h a (ofField f)).
Proof.
  intros HL. pose proof (lr_entries _ _ _ _ _ HL k) as He.
  destruct (mA !! k) as [a|], (m !! k) as [f|]; inversion He; subst; eauto 6.
Qed.

(** The loop has visited [q] and left the map as it was. *)
Lemma loopRel_skip h0 mA h m q pending :
  loopRel h0 mA h m (q :: pending) → loopRel h0 mA h m pending.
Proof.
  intros HL. destruct HL as [? ? ? ? ? Hnp Hp Hnd ?]. constructor; try done.
  - eapply noParent_mono; [|exact Hnp]. simpl. intros c [?|?]; [by left|right].
    by apply elem_of_cons; right.
  - by inversion Hp.
  - by inversion Hnd.
Qed.

(** The loop has visited [q] and stored it under a new key. *)
Lemma loopRel_move h0 mA h m q pending key f :
  loopRel h0 mA h m (q :: pending) → mA !! key = None →
  reads h q (ofField f) →
  loopRel h0 (<[key := q]> mA) h (<[key := f]> m) pending.
Proof.
  intros HL Hkey Hq. destruct HL as [? ? ? Hr Hinj Hnp Hp Hnd He].
  inversion Hp as [|?? [Hqlt Hqm] Hp']; subst. inversion Hnd as [|?? Hqp Hnd']; subst.
  constructor; try done.
  - apply map_Forall_insert_2; [lia|done].
  - intros k1 k2 a Hk1 Hk2.
    destruct (decide (k1 = key)) as [->|H1], (decide (k2 = key)) as [->|H2]; [done|..].
    + rewrite lookup_insert_eq in Hk1. rewrite lookup_insert_ne in Hk2 by done.
      injection Hk1 as <-. by destruct (Hqm k2).
    + rewrite lookup_insert_eq in Hk2. rewrite lookup_insert_ne in Hk1 by done.
      injection Hk2 as <-. by destruct (Hqm k1).
    + rewrite lookup_insert_ne in Hk1, Hk2 by done. by eapply Hinj.
  - eapply noParent_mono; [|exact Hnp]. simpl. intros c [[k Hk]|Hc].
    + destruct (decide (k = key)) as [->|Hne].
      * rewrite lookup_insert_eq in Hk. injection Hk as <-. right. by left.
      * rewrite lookup_insert_ne in Hk by done. left. by exists k.
    + right. by right.
  - apply Forall_forall. intros q' Hq'%list_elem_of_In.
    rewrite Forall_forall in Hp'. destruct (Hp' q' (proj1 (list_elem_of_In _ _) Hq')) as [? Hm'].
    split; [done|]. intros k Hk. destruct (decide (k = key)) as [->|Hne].
    + rewrite lookup_insert_eq in Hk. injection Hk as ->. done.
    + rewrite lookup_insert_ne in Hk by done. by destruct (Hm' k).
  - intros k. destruct (decide (k = key)) as [->|Hne].
    + rewrite !lookup_insert_eq. by constructor.
    + rewrite !lookup_insert_ne by done. apply He.
Qed.

(** Lines 165-176: the children are flattened and the new field is a new
    object, stored under a new key. *)
Lemma loopRel_alloc h0 mA h m key al n i out h1 r :
  loopRel h0 mA h m [] → mA !! key = None →
  post h out h1 r →
  loopRel h0 (<[key := length h1]> mA) (h1 ++ [OField al n i out])
    (<[key := mkField al n i r]> m) [].
Proof.
  intros HL Hkey (Hext & Hcl & Hfc & Hnew & Hnd & Hnp & Hout).
  assert (HT : ∀ c : addr, (∃ k, mA !! k = Some c) → c < length h).
  { intros c Hc. eapply loopRel_lt; [exact HL|by left]. }
  pose proof (proj1 (lr_extends _ _ _ _ _ HL)) as Hlen0.
  pose proof (proj1 Hext) as Hlen1.
  pose proof (readsSet_lt _ _ _ Hout) as Hlt.
  assert (Hlookup : ∀ b o, (h1 ++ [OField al n i out]) !! b = Some o →
            (b < length h1 ∧ h1 !! b = Some o) ∨
            (b = length h1 ∧ o = OField al n i out)).
  { intros b o Hb. apply lookup_app_Some in Hb as [Hb|[Hge Hb]].
    - left. split; [by eapply lookup_lt_Some|done].
    - right. apply list_lookup_singleton_Some in Hb as [Hb ->]. split; [lia|done]. }
  constructor.
  - eapply extends_trans; [exact (lr_extends _ _ _ _ _ HL)|].
    eapply extends_trans; [done|apply extends_alloc].
  - intros b o Hb. rewrite length_app. simpl.
    destruct (Hlookup b o Hb) as [[_ Hb']|[_ ->]].
    + eapply Forall_impl; [|exact (Hcl b o Hb')]. simpl. lia.
    + simpl. eapply Forall_impl; [|exact Hlt]. simpl. lia.
  - intros b o Hlb Hb. destruct (Hlookup b o Hb) as [[_ Hb']|[_ ->]].
    + eapply (freshClosed_call (length h0) h h1);
        [exact Hlen0|exact (lr_fresh _ _ _ _ _ HL)|done..].
    + simpl. eapply Forall_impl; [|exact Hnew]. simpl. lia.
  - apply map_Forall_insert_2; [lia|exact (lr_range _ _ _ _ _ HL)].
  - intros k1 k2 a Hk1 Hk2.
    destruct (decide (k1 = key)) as [->|H1], (decide (k2 = key)) as [->|H2]; [done|..].
    + rewrite lookup_insert_eq in Hk1. rewrite lookup_insert_ne in Hk2 by done.
      injection Hk1 as <-. assert (length h1 < length h) by (apply HT; by exists k2). lia.
    + rewrite lookup_insert_eq in Hk2. rewrite lookup_insert_ne in Hk1 by done.
      injection Hk2 as <-. assert (length h1 < length h) by (apply HT; by exists k1). lia.
    + rewrite lookup_insert_ne in Hk1, Hk2 by done.
      exact (lr_inj _ _ _ _ _ HL _ _ _ Hk1 Hk2).
  - assert (Hin : ∀ c : addr,
              (∃ k, <[key := length h1]> mA !! k = Some c) ∨ c ∈ @nil addr →
              c = length h1 ∨ ∃ k, mA !! k = Some c).
    { intros c [[k Hk]|Hc]; [|by apply elem_of_nil in Hc].
      destruct (decide (k = key)) as [->|Hne].
      - rewrite lookup_insert_eq in Hk. left. congruence.
      - rewrite lookup_insert_ne in Hk by done. right. by exists k. }
    intros b o Hb. apply Forall_forall. intros c Hc HTc.
    assert (c < length h1 ∧ (length h ≤ c ∨ ¬ ∃ k, mA !! k = Some c)) as [Hc1 Hc2].
    { destruct (Hlookup b o Hb) as [[_ Hb']|[_ ->]].
      - pose proof (Hcl b o Hb') as H1.
        pose proof (noParent_call _ _ _ HT
          (noParent_mono _ _ _ (λ c Hc, or_introl Hc) (lr_noParent _ _ _ _ _ HL))
          Hext Hfc b o Hb') as H2.
        rewrite Forall_forall in H1, H2. split; [by apply H1|right; by apply H2].
      - simpl in Hc. unfold newIn in Hnew. rewrite Forall_forall in Hlt, Hnew.
        split; [by apply Hlt|left; by apply Hnew]. }
    destruct (Hin c HTc) as [->|Hk]; [lia|].
    destruct Hc2 as [Hc2|Hc2]; [|done]. apply HT in Hk. lia.
  - constructor.
  - constructor.
  - intros k. destruct (decide (k = key)) as [->|Hne].
    + rewrite !lookup_insert_eq. constructor. simpl. econstructor.
      * rewrite lookup_app_r by lia. by rewrite Nat.sub_diag.
      * eapply readsSet_extends; [apply extends_alloc|done].
    + rewrite !lookup_insert_ne by done.
      pose proof (lr_entries _ _ _ _ _ HL k) as Hk.
      destruct (mA !! k) as [a|], (m !! k) as [g|]; inversion Hk; subst; constructor.
      eapply reads_extends; [apply extends_alloc|]. by eapply reads_extends.
Qed.

Section Refines.
Variable docA : addr.
Variable doc : QueryDocument.
Variable recA : list addr → M (list addr).
Variable rec : SelectionSet → option SelectionSet.
Hypothesis Hrec : recRefines docA doc recA rec.

(** [existing.SelectionSet = flattenSelectionSet(...)]: the write changes
    the entry of [key] and the reading of no other object. *)
Lemma mergeExisting_refines h0 mA h m pending key existing f ssA ss :
  readsDocument h docA doc →
  loopRel h0 mA h m pending →
  mA !! key = Some existing → m !! key = Some f →
  Forall2 (reads h) ssA ss →
  outcomes (λ _ h' r,
      loopRel h0 mA h' (<[key := setSelections f r]> m) pending ∧
      ∀ a s, a ≠ existing → reads h a s → reads h' a s)
    (mergeExisting recA existing ssA h) (rec (Selections f ++ ss)).
Proof.
  intros Hdoc HL HmA Hm Hss.
  pose proof (lr_entries _ _ _ _ _ HL key) as He. rewrite HmA, Hm in He.
  inversion He as [?? Hr|]; subst. inversion Hr as [? al n i cs ? Ha Hcs| |]; subst.
  unfold mergeExisting. rewrite (bind_Some _ _ _ _ _ (load_Some _ _ _ Ha)).
  simpl selectionSetOf.
  pose proof (Hrec h (cs ++ ssA) (Selections f ++ ss) (lr_closed _ _ _ _ _ HL) Hdoc
                (Forall2_app Hcs Hss)) as Hcall.
  unfold bind at 1.
  destruct (recA (cs ++ ssA) h) as [[out h1]|], (rec (Selections f ++ ss)) as [r|];
    simpl in Hcall; try done.
  destruct Hcall as (Hext & Hcl & Hfc & Hnew & Hnd & Hnp & Hout).
  rewrite (setSelectionSet_Some _ _ _ _ _ _ out (proj2 Hext _ _ Ha)). simpl.
  set (T := λ c, (∃ k, mA !! k = Some c) ∨ c ∈ pending).
  assert (HT : ∀ c, T c → c < length h) by (intros c; by apply (loopRel_lt _ _ _ _ _ _ HL)).
  assert (HnpT : noParent T h1).
  { eapply noParent_call; [exact HT| |done..]. exact (lr_noParent _ _ _ _ _ HL). }
  assert (Hlo : length h0 ≤ existing).
  { exact (lr_range _ _ _ _ _ HL _ _ HmA). }
  assert (Hparent : ∀ b o', h1 !! b = Some o' →
                      Forall (λ c, c ≠ existing) (addressesOf o')).
  { intros b o' Hb. eapply Forall_impl; [|exact (HnpT b o' Hb)]. simpl.
    intros c Hc ->. apply Hc. left. by exists key. }
  assert (Hne : Forall (λ c, c ≠ existing) out).
  { eapply Forall_impl; [|exact Hnew]. simpl. intros c Hc ->.
    apply lookup_lt_Some in Ha. lia. }
  assert (Hpres : ∀ a s, a ≠ existing → reads h a s →
            reads (<[existing := OField (Alias f) (Name f) (Info f) out]> h1) a s).
  { intros a s Hae Has. apply reads_store; [done..|]. by eapply reads_extends. }
  split; [|exact Hpres]. constructor.
  - apply extends_store; [|done].
    eapply extends_trans; [exact (lr_extends _ _ _ _ _ HL)|done].
  - intros b o. rewrite length_insert. intros Hb.
    destruct (decide (b = existing)) as [->|Hbe].
    + rewrite list_lookup_insert_eq in Hb by (by eapply lookup_lt_Some, Hext).
      injection Hb as <-. simpl. by eapply readsSet_lt.
    + rewrite list_lookup_insert_ne in Hb by done. by eapply Hcl.
  - intros b o Hlb Hb.
    destruct (decide (b = existing)) as [->|Hbe].
    + rewrite list_lookup_insert_eq in Hb by (by eapply lookup_lt_Some, Hext).
      injection Hb as <-. simpl. eapply Forall_impl; [|exact Hnew]. simpl.
      intros c Hc. pose proof (proj1 (lr_extends _ _ _ _ _ HL)). lia.
    + rewrite list_lookup_insert_ne in Hb by done.
      eapply (freshClosed_call (length h0) h h1); [|exact (lr_fresh _ _ _ _ _ HL)|done..].
      exact (proj1 (lr_extends _ _ _ _ _ HL)).
  - exact (lr_range _ _ _ _ _ HL).
  - exact (lr_inj _ _ _ _ _ HL).
  - intros b o Hb.
    destruct (decide (b = existing)) as [->|Hbe].
    + rewrite list_lookup_insert_eq in Hb by (by eapply lookup_lt_Some, Hext).
      injection Hb as <-. simpl. eapply Forall_impl; [|exact Hnew]. simpl.
      intros c Hc HTc%HT. lia.
    + rewrite list_lookup_insert_ne in Hb by done. by eapply HnpT.
  - eapply Forall_impl; [|exact (lr_pending _ _ _ _ _ HL)]. simpl.
    intros q [Hq ?]. rewrite length_insert. pose proof (proj1 Hext). split; [lia|done].
  - exact (lr_pending_nodup _ _ _ _ _ HL).
  - intros k. destruct (decide (k = key)) as [->|Hk].
    + rewrite HmA, lookup_insert_eq. constructor. simpl.
      econstructor; [by rewrite list_lookup_insert_eq by (by eapply lookup_lt_Some, Hext)|].
      by apply readsSet_store.
    + rewrite lookup_insert_ne by done.
      pose proof (lr_entries _ _ _ _ _ HL k) as Hk'.
      destruct (mA !! k) as [a|] eqn:HmAk, (m !! k) as [g|] eqn:Hmk;
        inversion Hk'; subst; constructor.
      apply Hpres; [|done]. intros ->. apply Hk.
      exact (lr_inj _ _ _ _ _ HL _ _ _ HmAk HmA).
Qed.

Lemma foldFragmentField_refines h0 mA h m q pending s :
  readsDocument h0 docA doc →
  loopRel h0 mA h m (q :: pending) →
  reads h q s →
  outcomes (λ mA' h' m',
      loopRel h0 mA' h' m' pending ∧
      ∀ a s, a ∈ pending → reads h a s → reads h' a s)
    (foldFragmentField recA mA q h) (Value.foldFragmentField rec m s).
Proof.
  intros Hdoc0 HL Hq. unfold foldFragmentField.
  pose proof (readsDocument_extends _ _ _ _ (lr_extends _ _ _ _ _ HL) Hdoc0) as Hdoc.
  inversion Hq as [? al n i ssA ss Ha Hss|? tc ssA ss Ha Hss|? name Ha]; subst;
    rewrite (bind_Some _ _ _ _ _ (load_Some _ _ _ Ha)); simpl.
  - destruct (loopRel_entry _ _ _ _ _ (fieldKey al n) HL)
      as [[HmA Hm]|(existing & f & HmA & Hm & Hf)]; rewrite HmA, Hm.
    + simpl. split; [|done].
      by apply (loopRel_move _ _ _ _ _ _ _ (mkField al n i ss)).
    + pose proof (mergeExisting_refines _ _ _ _ _ _ _ _ _ _ Hdoc HL HmA Hm Hss) as Hcall.
      unfold bind at 1.
      destruct (mergeExisting recA existing ssA h) as [[[] h1]|],
        (rec (Selections f ++ ss)) as [r|]; simpl in Hcall |- *; try done.
      destruct Hcall as [HL1 Hpres]. split; [by eapply loopRel_skip|].
      intros a s Ha'. apply Hpres. intros ->.
      pose proof (lr_pending _ _ _ _ _ HL) as Hp. inversion Hp as [|?? _ Hp']; subst.
      rewrite Forall_forall in Hp'.
      destruct (Hp' existing (proj1 (list_elem_of_In _ _) Ha')) as [_ Hno].
      by destruct (Hno (fieldKey al n)).
  - split; [by eapply loopRel_skip|done].
  - split; [by eapply loopRel_skip|done].
Qed.

Lemma foldFragment_refines h0 pending fs : ∀ mA h m,
  readsDocument h0 docA doc →
  loopRel h0 mA h m pending →
  Forall2 (reads h) pending fs →
  outcomes (λ mA' h' m', loopRel h0 mA' h' m' [])
    (foldM (foldFragmentField recA) mA pending h)
    (foldlM (Value.foldFragmentField rec) m fs).
Proof.
  revert fs. induction pending as [|q pending IH]; intros fs mA h m Hdoc0 HL Hfs;
    inversion Hfs as [|? s ? fs' Hq Hrest]; subst; simpl; [done|].
  pose proof (foldFragmentField_refines _ _ _ _ _ _ _ Hdoc0 HL Hq) as Hstep.
  unfold bind at 1.
  destruct (foldFragmentField recA mA q h) as [[mA1 h1]|],
    (Value.foldFragmentField rec m s) as [m1|]; simpl in Hstep |- *; try done.
  destruct Hstep as [HL1 Hpres]. apply IH; [done..|].
  apply Forall2_same_length_lookup_2; [by eapply Forall2_length|].
  intros j a s' Hj Hj'. apply Hpres; [by eapply list_elem_of_lookup_2|].
  by eapply Forall2_lookup_lr.
Qed.

(** Lines 180-204 and 210-229: the contents of a fragment are flattened, and
    the loop over the flattened fields starts with all of them pending. *)
Lemma fragment_refines h0 mA h m ssA ss :
  readsDocument h0 docA doc →
  loopRel h0 mA h m [] →
  Forall2 (reads h) ssA ss →
  outcomes (λ mA' h' m', loopRel h0 mA' h' m' [])
    (bind (recA ssA) (λ fs, foldM (foldFragmentField recA) mA fs) h)
    (fs ← rec ss; foldlM (Value.foldFragmentField rec) m fs).
Proof.
  intros Hdoc0 HL Hss.
  pose proof (readsDocument_extends _ _ _ _ (lr_extends _ _ _ _ _ HL) Hdoc0) as Hdoc.
  pose proof (Hrec h ssA ss (lr_closed _ _ _ _ _ HL) Hdoc Hss) as Hcall.
  unfold bind at 1.
  destruct (recA ssA h) as [[out h1]|], (rec ss) as [r|]; simpl in Hcall |- *; try done.
  destruct Hcall as (Hext & Hcl & Hfc & Hnew & Hnd & Hnp & Hout).
  assert (HT : ∀ c : addr, (∃ k, mA !! k = Some c) → c < length h).
  { intros c Hc. eapply loopRel_lt; [exact HL|by left]. }
  apply foldFragment_refines; [done| |done].
  pose proof (proj1 (lr_extends _ _ _ _ _ HL)) as Hlen0.
  constructor.
  - eapply extends_trans; [exact (lr_extends _ _ _ _ _ HL)|done].
  - done.
  - eapply freshClosed_call; [exact Hlen0|exact (lr_fresh _ _ _ _ _ HL)|done..].
  - exact (lr_range _ _ _ _ _ HL).
  - exact (lr_inj _ _ _ _ _ HL).
  - intros b o Hb.
    pose proof (noParent_call _ _ _ HT
      (noParent_mono _ _ _ (λ c Hc, or_introl Hc) (lr_noParent _ _ _ _ _ HL))
      Hext Hfc b o Hb) as H1.
    pose proof (Hnp b o Hb) as H2.
    apply Forall_forall. rewrite Forall_forall in H1, H2.
    intros c Hc [Hin|Hin]; [by apply (H1 c)|by apply (H2 c)].
  - apply Forall_forall. intros q Hq%list_elem_of_In.
    pose proof (readsSet_lt _ _ _ Hout) as Hlt.
    rewrite Forall_forall in Hlt. unfold newIn in Hnew. rewrite Forall_forall in Hnew.
    pose proof (Hlt q (proj1 (list_elem_of_In _ _) Hq)).
    pose proof (Hnew q (proj1 (list_elem_of_In _ _) Hq)).
    split; [lia|]. intros k Hk. assert (q < length h) by (apply HT; by exists k). lia.
  - done.
  - intros k. pose proof (lr_entries _ _ _ _ _ HL k) as Hk.
    destruct (mA !! k) as [a|], (m !! k) as [g|]; inversion Hk; subst; constructor.
    by eapply reads_extends.
Qed.

Lemma stepSelection_refines h0 mA h m a s :
  readsDocument h0 docA doc →
  loopRel h0 mA h m [] →
  reads h a s →
  outcomes (λ mA' h' m', loopRel h0 mA' h' m' [])
    (stepSelection docA recA mA a h) (Value.stepSelection doc rec m s).
Proof.
  intros Hdoc0 HL Has. unfold stepSelection.
  pose proof (readsDocument_extends _ _ _ _ (lr_extends _ _ _ _ _ HL) Hdoc0) as Hdoc.
  inversion Has as [? al n i ssA ss Ha Hss|? tc ssA ss Ha Hss|? name Ha]; subst;
    rewrite (bind_Some _ _ _ _ _ (load_Some _ _ _ Ha)); simpl.
  - destruct (loopRel_entry _ _ _ _ _ (fieldKey al n) HL)
      as [[HmA Hm]|(existing & f & HmA & Hm & Hf)]; rewrite HmA, Hm.
    + pose proof (Hrec h ssA ss (lr_closed _ _ _ _ _ HL) Hdoc Hss) as Hcall.
      unfold bind at 1.
      destruct (recA ssA h) as [[out h1]|], (rec ss) as [r|];
        simpl in Hcall |- *; try done.
      by eapply loopRel_alloc.
    + pose proof (mergeExisting_refines _ _ _ _ _ _ _ _ _ _ Hdoc HL HmA Hm Hss) as Hcall.
      unfold bind at 1.
      destruct (mergeExisting recA existing ssA h) as [[[] h1]|],
        (rec (Selections f ++ ss)) as [r|]; simpl in Hcall |- *; try done.
      by destruct Hcall.
  - by apply fragment_refines.
  - destruct (findFragmentDefinition_refines _ _ _ name Hdoc) as (found & Hfind & Hfound).
    rewrite (bind_Some _ _ _ _ _ Hfind).
    destruct found as [fragDef|], (Value.findFragmentDefinition doc name) as [fd|];
      inversion Hfound as [?? (fss & Hfd & Hfss)|]; subst; [|done].
    rewrite (bind_Some _ _ _ _ _ (load_Some _ _ _ Hfd)). simpl.
    by apply fragment_refines.
Qed.

Lemma foldSelections_refines h0 ssA ss : ∀ mA h m,
  readsDocument h0 docA doc →
  Forall2 (reads h0) ssA ss →
  loopRel h0 mA h m [] →
  outcomes (λ mA' h' m', loopRel h0 mA' h' m' [])
    (foldM (stepSelection docA recA) mA ssA h)
    (foldlM (Value.stepSelection doc rec) m ss).
Proof.
  intros mA h m Hdoc0 Hss. revert mA h m.
  induction Hss as [|a s ssA ss Has _ IH]; intros mA h m HL; simpl; [done|].
  pose proof (stepSelection_refines _ _ _ _ _ _ Hdoc0 HL
                (reads_extends _ _ _ _ (lr_extends _ _ _ _ _ HL) Has)) as Hstep.
  unfold bind at 1.
  destruct (stepSelection docA recA mA a h) as [[mA1 h1]|],
    (Value.stepSelection doc rec m s) as [m1|]; simpl in Hstep |- *; try done.
  by apply IH.
Qed.
End Refines.

Lemma loopRel_init h : closed h → loopRel h ∅ h ∅ [].
Proof.
  intros Hcl. constructor.
  - apply extends_refl.
  - done.
  - intros b o Hlb Hb. apply lookup_lt_Some in Hb. lia.
  - apply map_Forall_empty.
  - intros k1 k2 a Hk1. by rewrite lookup_empty in Hk1.
  - intros b o Hb. apply Forall_forall. intros c _ [[k Hk]|Hc].
    + by rewrite lookup_empty in Hk.
    + by apply elem_of_nil in Hc.
  - constructor.
  - constructor.
  - intros k. rewrite !lookup_empty. constructor.
Qed.

Lemma loopRel_dom h0 mA h m pending : loopRel h0 mA h m pending → dom mA = dom m.
Proof.
  intros HL. apply set_eq. intros k. rewrite !elem_of_dom.
  destruct (loopRel_entry _ _ _ _ _ k HL) as [[-> ->]|(a & f & -> & -> & _)]; naive_solver.
Qed.

(** Lines 235-240: the two maps are ranged over in the same order of keys. *)
Lemma mapValues_refines order h0 mA h m :
  loopRel h0 mA h m [] → post h0 (mapValues order mA) h (Value.mapValues order m).
Proof.
  intros HL. unfold mapValues, Value.mapValues, rangeValues, rangeKeys.
  rewrite <- (loopRel_dom _ _ _ _ _ HL).
  assert (Hnd : NoDup (rangeOrder order (elements (dom mA)))).
  { rewrite rangeOrder_perm. apply NoDup_elements. }
  set (l := rangeOrder order (elements (dom mA))) in *. clearbody l.
  assert (Hin : ∀ a : addr, a ∈ omap (λ k, mA !! k) l → ∃ k, k ∈ l ∧ mA !! k = Some a).
  { intros a Ha. by apply list_elem_of_omap in Ha. }
  split_and!.
  - exact (lr_extends _ _ _ _ _ HL).
  - exact (lr_closed _ _ _ _ _ HL).
  - exact (lr_fresh _ _ _ _ _ HL).
  - apply Forall_forall. intros a Ha%list_elem_of_In.
    destruct (Hin a Ha) as (k & _ & Hk). exact (lr_range _ _ _ _ _ HL _ _ Hk).
  - clear Hin. induction l as [|k l IH]; [constructor|].
    inversion Hnd as [|?? Hk Hnd']; subst. simpl.
    destruct (mA !! k) as [a|] eqn:Hka; [|by apply IH].
    constructor; [|by apply IH].
    intros (k' & Hk' & Hk'a)%list_elem_of_omap.
    by rewrite (lr_inj _ _ _ _ _ HL _ _ _ Hka Hk'a) in Hk.
  - eapply noParent_mono; [|exact (lr_noParent _ _ _ _ _ HL)]. simpl.
    intros c Hc. left. destruct (Hin c Hc) as (k & _ & Hk). by exists k.
  - clear Hin Hnd. induction l as [|k l IH]; simpl; [constructor|].
    destruct (loopRel_entry _ _ _ _ _ k HL) as [[-> ->]|(a & f & -> & -> & Hf)];
      [done|]. simpl. by constructor.
Qed.

(** The run on the store and the run on values return together, and the
    objects the first returns read as the selection set the second
    returns. *)
Lemma flattenSelectionSet_refines order docA doc fuel :
  recRefines docA doc (flattenSelectionSet order docA fuel)
    (Value.flattenSelectionSet order doc fuel).
Proof.
  induction fuel as [|fuel IH]; intros h ssA ss Hcl Hdoc Hss; simpl; [done|].
  pose proof (foldSelections_refines docA doc _ _ IH h ssA ss ∅ h ∅ Hdoc Hss
                (loopRel_init h Hcl)) as Hloop.
  unfold bind at 1.
  destruct (foldM _ ∅ ssA h) as [[mA h1]|], (foldlM _ ∅ ss) as [m|];
    simpl in Hloop |- *; try done.
  by apply mapValues_refines.
Qed.

Lemma fixtureHeap_reads : readsDocument fixtureHeap 10 (fixtureDocument true).
Proof.
  exists [9], [2; 5]. split_and!; [done|..];
    repeat first
      [ apply Forall2_nil | apply Forall2_cons
      | eexists; split; [reflexivity|] | by eapply reads_spread
      | eapply reads_field; [reflexivity|] ].
Qed.

(** [flatten] on the store against [flatten] on values.  In a store without
    dangling pointer where [docA] reads as the document [doc] and [opA] as
    the operation [op], the two runs return together; the object the run on
    the store returns reads as the operation the run on values returns,
    and the input operation and the document read as they did before. *)
Theorem flatten_refines order docA doc fuel (h : heap) opA op :
  closed h → readsDocument h docA doc → readsOperation h opA op →
  outcomes (λ flatOp h' flat,
      readsOperation h' flatOp flat ∧ readsOperation h' opA op ∧
      readsDocument h' docA doc)
    (flatten order docA fuel opA h) (Value.flatten order doc fuel op).
Proof.
  intros Hcl Hdoc (ssA & Hop & Hss). unfold flatten, Value.flatten.
  rewrite (bind_Some _ _ _ _ _ (load_Some _ _ _ Hop)).
  pose proof (flattenSelectionSet_refines order docA doc fuel h ssA _ Hcl Hdoc Hss)
    as Hcall.
  unfold bind at 1.
  destruct (flattenSelectionSet order docA fuel ssA h) as [[out h1]|],
    (Value.flattenSelectionSet order doc fuel (OpSelections op)) as [r|];
    simpl in Hcall |- *; try done.
  destruct Hcall as (Hext & _ & _ & _ & _ & _ & Hout).
  assert (Hext' : extends h (h1 ++ [OOperation (OpKind op) (OpName op)
      (VariableDefinitions op) (OpDirectives op) out (OpPosition op) (OpComment op)])).
  { eapply extends_trans; [done|apply extends_alloc]. }
  split_and!.
  - exists out. simpl. split.
    + rewrite lookup_app_r by lia. by rewrite Nat.sub_diag.
    + eapply readsSet_extends; [apply extends_alloc|done].
  - eapply readsOperation_extends; [exact Hext'|]. by exists ssA.
  - by eapply readsDocument_extends.
Qed.

Lemma flatten_refines_witness :
  ∃ flatOp h' flat,
    flatten canonicalOrder 10 4 9 fixtureHeap = Some (flatOp, h') ∧
    Value.flatten canonicalOrder (fixtureDocument true) 4 (fixtureOperation true)
      = Some flat ∧
    readsOperation h' flatOp flat.
Proof.
  eexists _, _, _. split; [vm_compute; reflexivity|]. split; [vm_compute; reflexivity|].
  refine (proj1 (flatten_refines canonicalOrder 10 (fixtureDocument true) 4
                   fixtureHeap 9 (fixtureOperation true) _ fixtureHeap_reads _)).
  - by apply closedb_closed.
  - exists [8]. split; [done|].
    pose proof fixtureHeap_reads as (ops & frags & Hd & Hops & _).
    injection Hd as <- <-. inversion Hops as [|???? (ss & Hss & Hr) _]; subst.
    injection Hss as <-. exact Hr.
Defined.

(** ** The result is a copy *)

Lemma reach_fresh lo (h : heap) a b :
  freshClosed lo h → lo ≤ a → reach h a b → lo ≤ b.
Proof.
  intros Hfresh Ha Hreach. induction Hreach as [a|a o c b Ho Hc _ IH]; [done|].
  apply IH. pose proof (Hfresh a o Ha Ho) as Hall.
  rewrite Forall_forall in Hall. by apply Hall, list_elem_of_In.
Qed.

Lemma reach_old (h h' : heap) a b :
  closed h → extends h h' → a < length h → reach h' a b → b < length h.
Proof.
  intros Hcl [_ Hext] Ha Hreach.
  induction Hreach as [a|a o c b Ho Hc _ IH]; [done|].
  apply IH. destruct (lookup_lt_is_Some_2 h a Ha) as [o' Ho'].
  assert (Some o = Some o') as [= ->] by (rewrite <- Ho; exact (Hext a o' Ho')).
  pose proof (Hcl a o' Ho') as Hall.
  rewrite Forall_forall in Hall. by apply Hall, list_elem_of_In.
Qed.

(** [flatten] builds its result out of objects of its own: in a store
    without dangling pointer where [docA] and [opA] read as a document and
    an operation, every operation, field or fragment object that the
    returned operation leads to was allocated by the call, and no object
    that was there before leads to one the call allocated.  (Arguments and
    directives are held by value in the store model.) *)
Theorem flatten_copies order docA doc fuel (h : heap) opA op flatOp h' :
  closed h → readsDocument h docA doc → readsOperation h opA op →
  flatten order docA fuel opA h = Some (flatOp, h') →
  (∀ b, reach h' flatOp b → length h ≤ b) ∧
  (∀ a b, a < length h → reach h' a b → b < length h).
Proof.
  intros Hcl Hdoc (ssA & Hop & Hss). unfold flatten.
  rewrite (bind_Some _ _ _ _ _ (load_Some _ _ _ Hop)).
  pose proof (flattenSelectionSet_refines order docA doc fuel h ssA _ Hcl Hdoc Hss)
    as Hcall.
  unfold bind at 1.
  destruct (flattenSelectionSet order docA fuel ssA h) as [[out h1]|]; [|done].
  destruct (Value.flattenSelectionSet order doc fuel (OpSelections op)) as [r|];
    simpl in Hcall; [|done].
  destruct Hcall as (Hext & _ & Hfresh & Hnew & _).
  unfold alloc. intros [= <- <-].
  assert (extends h (h1 ++ [OOperation (OpKind op) (OpName op)
      (VariableDefinitions op) (OpDirectives op) out (OpPosition op) (OpComment op)]))
    as Hext'.
  { eapply extends_trans; [done|apply extends_alloc]. }
  split.
  - intros b. apply reach_fresh; [|by destruct Hext].
    intros a o Ha Ho. destruct (decide (a < length h1)) as [Hlt|Hge].
    + rewrite lookup_app_l in Ho by done. by eapply Hfresh.
    + rewrite lookup_app_r in Ho by lia.
      destruct (a - length h1) as [|k] eqn:Ek; simpl in Ho; [|done].
      injection Ho as <-. exact Hnew.
  - intros a b. by apply reach_old.
Qed.

Lemma flatten_copies_witness :
  ∃ flatOp h',
    flatten canonicalOrder 10 4 9 fixtureHeap = Some (flatOp, h') ∧
    (∀ b, reach h' flatOp b → length fixtureHeap ≤ b) ∧
    (∀ a b, a < length fixtureHeap → reach h' a b → b < length fixtureHeap).
Proof.
  eexists _, _. split; [vm_compute; reflexivity|].
  refine (flatten_copies canonicalOrder 10 (fixtureDocument true) 4
            fixtureHeap 9 (fixtureOperation true) _ _ _ fixtureHeap_reads _ eq_refl).
  - by apply closedb_closed.
  - exists [8]. split; [done|].
    pose proof fixtureHeap_reads as (ops & frags & Hd & Hops & _).
    injection Hd as <- <-. inversion Hops as [|???? (ss & Hss & Hr) _]; subst.
    injection Hss as <-. exact Hr.
Defined.

End HeapFacts.
